(** * buildkit/config.py: configuration bundles, layered config files

    A shallow embedding of [buildkit/config.py] and the properties of its
    layered path lists, its three config file variants, the derived INI
    views and the base bundle dependency resolution.

    Python values are modelled as follows.
    - [str] is [string]; a character is a code point below 256.
    - [dict] and [set] are [gmap] and [gset]: no property below depends on
      the insertion order of a dictionary.
    - [collections.deque] is a [list] whose head is the left end.
    - [pathlib.Path] is the list of its components.
    - A [configparser.ConfigParser] is the table of the options that it
      has read; the interpolation of the values, applied when an option is
      read, is modelled as the library performs it.
    - Methods run in a state and exception monad over the receiver object
      and a log of the filesystem operations performed so far. *)

From Stdlib Require Import Ascii NArith.
From stdpp Require Import base option list gmap strings fin_maps.

(** ** Python string primitives *)

Module Str.

Local Open Scope N_scope.

(** [len(s) != 0], the test [filter(len, ...)] applies. *)
Definition nonempty (s : string) : bool :=
  match s with EmptyString => false | String _ _ => true end.

(** Line boundaries of [str.splitlines] among the code points below 256:
    LF, VT, FF, CR, FS, GS, RS and NEL.  CR followed by LF is one boundary. *)
Definition is_linebreak (c : ascii) : bool :=
  let n := N_of_ascii c in
  (n =? 10) || (n =? 11) || (n =? 12) || (n =? 13) ||
  (n =? 28) || (n =? 29) || (n =? 30) || (n =? 133).

Definition is_cr (c : ascii) : bool := N_of_ascii c =? 13.
Definition is_lf (c : ascii) : bool := N_of_ascii c =? 10.

(** [str.isspace] on one character, code points below 256. *)
Definition isspace (c : ascii) : bool :=
  let n := N_of_ascii c in
  ((9 <=? n) && (n <=? 13)) || ((28 <=? n) && (n <=? 32)) ||
  (n =? 133) || (n =? 160).

(** [s.split(sep)] for a one-character separator. *)
Fixpoint split (sep : ascii) (s : string) : list string :=
  match s with
  | EmptyString => [EmptyString]
  | String c s' =>
      if Ascii.eqb c sep then EmptyString :: split sep s'
      else match split sep s' with
           | [] => [String c EmptyString]
           | w :: ws => String c w :: ws
           end
  end.

(** [s.splitlines()]: [cur] is the line being read.  A last line without a
    terminator is kept, an empty remainder after a terminator is not. *)
Fixpoint splitlines_from (cur : string) (s : string) : list string :=
  match s with
  | EmptyString => if nonempty cur then [cur] else []
  | String c s' =>
      if is_linebreak c then
        match s' with
        | String c' s'' =>
            if is_cr c && is_lf c' then cur :: splitlines_from EmptyString s''
            else cur :: splitlines_from EmptyString s'
        | EmptyString => [cur]
        end
      else splitlines_from (cur +:+ String c EmptyString) s'
  end.

Definition splitlines (s : string) : list string :=
  splitlines_from EmptyString s.

Fixpoint lstrip (s : string) : string :=
  match s with
  | EmptyString => EmptyString
  | String c s' => if isspace c then lstrip s' else s
  end.

Fixpoint rstrip (s : string) : string :=
  match s with
  | EmptyString => EmptyString
  | String c s' =>
      match rstrip s' with
      | EmptyString => if isspace c then EmptyString else String c EmptyString
      | r => String c r
      end
  end.

(** [s.strip()] *)
Definition strip (s : string) : string := rstrip (lstrip s).

(** Number of occurrences of a character. *)
Fixpoint count (c : ascii) (s : string) : nat :=
  match s with
  | EmptyString => 0%nat
  | String c' s' => if Ascii.eqb c' c then S (count c s') else count c s'
  end.

(** The part of [s] before the first [c] (all of [s] if there is none). *)
Fixpoint before (c : ascii) (s : string) : string :=
  match s with
  | EmptyString => EmptyString
  | String c' s' => if Ascii.eqb c' c then EmptyString else String c' (before c s')
  end.

(** The part of [s] after the first [c] (empty if there is none). *)
Fixpoint after (c : ascii) (s : string) : string :=
  match s with
  | EmptyString => EmptyString
  | String c' s' => if Ascii.eqb c' c then s' else after c s'
  end.

(** [c in s] for a character [c]. *)
Fixpoint has_char (c : ascii) (s : string) : bool :=
  match s with
  | EmptyString => false
  | String c' s' => Ascii.eqb c' c || has_char c s'
  end.

(** [s.lower()], code points below 256: the letters A to Z and the Latin-1
    capitals, the multiplication sign apart. *)
Definition lower_char (c : ascii) : ascii :=
  let n := N_of_ascii c in
  if ((65 <=? n) && (n <=? 90)) ||
     ((192 <=? n) && (n <=? 222) && negb (n =? 215))
  then ascii_of_N (n + 32) else c.

Fixpoint lower (s : string) : string :=
  match s with
  | EmptyString => EmptyString
  | String c s' => String (lower_char c) (lower s')
  end.

(** The one-character strings of [s], as iterating over a [str] yields. *)
Fixpoint chars (s : string) : list string :=
  match s with
  | EmptyString => []
  | String c s' => String c EmptyString :: chars s'
  end.

End Str.

(** ** Paths and the filesystem *)

(** A [pathlib.Path], as the list of its components. *)
Definition Path : Type := list string.

(** [p / n] for a name [n] that is one component of a path: not empty,
    without a slash, and neither [.] nor [..] (see [simple_name]).  For
    other operands [pathlib] normalizes, and the statements that depend on
    the names of bundles assume names of this kind. *)
Definition path_div (p : Path) (n : string) : Path := p ++ [n].
Infix "//" := path_div (at level 40, left associativity).

(** [p.name] *)
Definition path_name (p : Path) : string := List.last p EmptyString.

(** [p.parent] *)
Definition path_parent (p : Path) : Path := removelast p.

(** What [configparser] holds after reading INI text: the options of the
    [DEFAULT] section and the options of every other section, with their
    values as written.  The reader belongs to the standard library and is
    not modelled: a file carries the table that the reader gets from it.
    The values are interpolated when they are read, see [interpolate]. *)
Record Ini : Type := mkIni {
  ini_defaults : gmap string string;
  ini_sections : gmap string (gmap string string)
}.

(** A directory with its entries, or a regular file with its text, decoded
    in [ENCODING], and what the reader of [configparser] makes of it.  A
    file that does not decode is outside the model. *)
#[local] Set Warnings "-register-all".
Inductive Node : Type :=
  | Dir (entries : list (string * Node))
  | File (text : string) (ini : option Ini).

Fixpoint assoc {A : Type} (k : string) (l : list (string * A)) : option A :=
  match l with
  | [] => None
  | (k', a) :: l' => if String.eqb k' k then Some a else assoc k l'
  end.

Fixpoint fs_lookup (root : Node) (p : Path) : option Node :=
  match p with
  | [] => Some root
  | c :: p' =>
      match root with
      | Dir es => match assoc c es with
                  | Some n => fs_lookup n p'
                  | None => None
                  end
      | File _ _ => None
      end
  end.

(** A component of [p] before the last is a regular file: the path leads
    through a file. *)
Fixpoint below_file (root : Node) (p : Path) : bool :=
  match p with
  | [] => false
  | c :: p' =>
      match root with
      | Dir es => match assoc c es with
                  | Some n => below_file n p'
                  | None => false
                  end
      | File _ _ => true
      end
  end.

(** ** Exceptions, the log of filesystem operations, the monad *)

(** [ParsingError] stands for the errors of the reader of [configparser],
    [InterpolationError] for those of its interpolation. *)
Inductive Exn : Type :=
  | FileNotFoundError (p : Path)
  | NotADirectoryError (p : Path)
  | IsADirectoryError (p : Path)
  | ParsingError (p : Path)
  | ValueError (msg : string)
  | TypeError (msg : string)
  | KeyError (key : string)
  | SchemaError
  | InterpolationError
  | OutOfFuel.

Inductive FsOp : Type :=
  | OpExists (p : Path)
  | OpIsDir (p : Path)
  | OpRead (p : Path)
  | OpIterdir (p : Path).

Inductive Result (A : Type) : Type :=
  | Ok (a : A)
  | Raise (e : Exn).
Arguments Ok {A} a.
Arguments Raise {A} e.

(** The state of a method call: the receiver and the operations performed
    on the filesystem so far, oldest first. *)
Record St (O : Type) : Type := mkSt { self : O; trace : list FsOp }.
Arguments mkSt {O} self trace.
Arguments self {O} s.
Arguments trace {O} s.

Definition M (O A : Type) : Type := St O → Result A * St O.

Global Instance M_ret {O} : MRet (M O) := λ A a st, (Ok a, st).
Global Instance M_bind {O} : MBind (M O) := λ A B f m st,
  match m st with
  | (Ok a, st') => f a st'
  | (Raise e, st') => (Raise e, st')
  end.

Definition raise {O A} (e : Exn) : M O A := λ st, (Raise e, st).
Definition get_self {O} : M O O := λ st, (Ok (self st), st).
Definition put_self {O} (o : O) : M O unit := λ st, (Ok tt, mkSt o (trace st)).
Definition log {O} (op : FsOp) : M O unit :=
  λ st, (Ok tt, mkSt (self st) (trace st ++ [op])).

(** A method [m] run on the object [o], sharing the log: its outcome and the
    object as the call left it, also when it raised. *)
Definition call_obj {O O' A} (o : O) (m : M O A) : M O' (Result A * O) :=
  λ st, let '(r, st') := m (mkSt o (trace st)) in
        (Ok (r, self st'), mkSt (self st) (trace st')).

(** The same, an exception of [m] propagating to the caller. *)
Definition call {O O' A} (o : O) (m : M O A) : M O' (A * O) :=
  '(r, o') ← call_obj o m;
  match r with
  | Ok a => mret (a, o')
  | Raise e => raise e
  end.

Section Filesystem.
Context (fs : Node).
Context {O : Type}.

(** [p.exists()] *)
Definition path_exists (p : Path) : M O bool :=
  log (OpExists p);;
  mret (match fs_lookup fs p with Some _ => true | None => false end).

(** [p.is_dir()] *)
Definition path_is_dir (p : Path) : M O bool :=
  log (OpIsDir p);;
  mret (match fs_lookup fs p with Some (Dir _) => true | _ => false end).

(** What the system call raises for a path that names nothing: the path
    leads through a regular file, or a component is missing. *)
Definition missing_error (p : Path) : Exn :=
  if below_file fs p then NotADirectoryError p else FileNotFoundError p.

(** [p.open(encoding=ENCODING)] followed by [read()] *)
Definition read_text (p : Path) : M O string :=
  log (OpRead p);;
  match fs_lookup fs p with
  | Some (File text _) => mret text
  | Some (Dir _) => raise (IsADirectoryError p)
  | None => raise (missing_error p)
  end.

(** [p.open(encoding=ENCODING)] followed by the reading of its text by
    [configparser] *)
Definition read_ini (p : Path) : M O Ini :=
  log (OpRead p);;
  match fs_lookup fs p with
  | Some (File _ (Some i)) => mret i
  | Some (File _ None) => raise (ParsingError p)
  | Some (Dir _) => raise (IsADirectoryError p)
  | None => raise (missing_error p)
  end.

(** [p.iterdir()], the names of the entries *)
Definition iterdir (p : Path) : M O (list string) :=
  log (OpIterdir p);;
  match fs_lookup fs p with
  | Some (Dir es) => mret (es.*1)
  | Some (File _ _) => raise (NotADirectoryError p)
  | None => raise (missing_error p)
  end.
End Filesystem.

(** ** Constants *)

Definition PRUNING_LIST : string := "pruning.list".
Definition DOMAIN_REGEX_LIST : string := "domain_regex.list".
Definition DOMAIN_SUBSTITUTION_LIST : string := "domain_substitution.list".
Definition EXTRA_DEPS_INI : string := "extra_deps.ini".
Definition GN_FLAGS_MAP : string := "gn_flags.map".
Definition BASEBUNDLEMETA_INI : string := "basebundlemeta.ini".
Definition PATCH_ORDER_LIST : string := "patch_order.list".
Definition PATCHES_DIR : string := "patches".
Definition VERSION_INI : string := "version.ini".

(** [configparser.DEFAULTSECT] *)
Definition DEFAULTSECT : string := "DEFAULT".

(** ** [_ConfigABC] *)

(** The attributes of a config object.  [read_cache] is the attribute that
    [_CacheConfigMixin] adds; [None] is Python's [None]. *)
Record Config (D : Type) : Type := mkConfig {
  path : Path;
  name : string;
  path_order : list Path;
  read_cache : option D
}.
Arguments mkConfig {D} path name path_order read_cache.
Arguments path {D} c.
Arguments name {D} c.
Arguments path_order {D} c.
Arguments read_cache {D} c.

Definition set_path_order {D} (po : list Path) (o : Config D) : Config D :=
  mkConfig (path o) (name o) po (read_cache o).
Definition set_read_cache {D} (c : option D) (o : Config D) : Config D :=
  mkConfig (path o) (name o) (path_order o) c.

Section ConfigABC.
Context (fs : Node).
Context {D : Type}.

(** [__init__(self, path, name=None)], with [_CacheConfigMixin.__init__]
    where the class has it: the cache starts as [None]. *)
Definition Config_init {O} (p : Path) (nm : option string) : M O (Config D) :=
  e ← path_exists fs p;
  if negb e then raise (FileNotFoundError p)
  else mret (mkConfig p
               (match nm with
                | Some n => if Str.nonempty n then n else path_name p
                | None => path_name p
                end)
               [p] None).

Definition _check_path_add (p : Path) : M (Config D) bool :=
  o ← get_self;
  if bool_decide (p ∈ path_order o) then mret false
  else
    e ← path_exists fs p;
    if negb e then raise (FileNotFoundError p)
    else mret true.

Definition update_first_path (p : Path) : M (Config D) bool :=
  ok ← _check_path_add p;
  if (ok : bool) then
    o ← get_self;
    put_self (set_path_order (p :: path_order o) o);;
    mret true
  else mret false.

Definition update_last_path (p : Path) : M (Config D) bool :=
  ok ← _check_path_add p;
  if (ok : bool) then
    o ← get_self;
    put_self (set_path_order (path_order o ++ [p]) o);;
    mret true
  else mret false.

(** [_ConfigABC._config_data], over the [_parse_data] of the class; the
    parser's [None] is Python's. *)
Definition ConfigABC_config_data {R : Type} (_parse_data : M (Config D) (option R))
  : M (Config D) R :=
  parsed_data ← _parse_data;
  match parsed_data with
  | None => raise (TypeError "Got None from parser")
  | Some d => mret d
  end.

(** The last two statements of [_CacheConfigMixin._config_data]: the
    cache takes what [super()._config_data], [_ConfigABC]'s, returns. *)
Definition cache_fill (_parse_data : M (Config D) (option D)) : M (Config D) D :=
  d ← ConfigABC_config_data _parse_data;
  o ← get_self;
  put_self (set_read_cache (Some d) o);;
  mret d.

(** [_CacheConfigMixin._config_data]: [truthy] is the truth value of a
    parse result; [None] is not true. *)
Definition CacheConfigMixin_config_data (truthy : D → bool)
    (_parse_data : M (Config D) (option D)) : M (Config D) D :=
  o ← get_self;
  match read_cache o with
  | Some d => if truthy d then mret d else cache_fill _parse_data
  | None => cache_fill _parse_data
  end.
End ConfigABC.

(** ** [ListConfigFile], [MappingConfigFile], [IniConfigFile] *)

(** Unpacking [key, value = parts]. *)
Definition unpack2 {O} (parts : list string) : M O (string * string) :=
  match parts with
  | [k; v] => mret (k, v)
  | _ :: _ :: _ :: _ => raise (ValueError "too many values to unpack (expected 2)")
  | _ => raise (ValueError "not enough values to unpack (expected 2, got 1)")
  end.

(** Reading layer after layer into one parser, [read_file] after
    [read_file]: an option read later replaces the one read earlier. *)
Definition ini_merge (parsed new : Ini) : Ini :=
  mkIni (ini_defaults new ∪ ini_defaults parsed)
        (union_with (λ old nw, Some (nw ∪ old)) (ini_sections parsed) (ini_sections new)).

Definition ini_empty : Ini := mkIni ∅ ∅.

(** [parser[key]], the options seen through the section proxy, as
    written: those of the section, then those of [DEFAULT].  [None] is a
    [KeyError]. *)
Definition ini_getitem (i : Ini) (key : string) : option (gmap string string) :=
  if String.eqb key DEFAULTSECT then Some (ini_defaults i)
  else (λ own, own ∪ ini_defaults i) <$> ini_sections i !! key.

(** *** Interpolation

    The parser is a [ConfigParser()], whose interpolation is
    [BasicInterpolation]: a value is interpolated each time it is read
    through the parser or a section proxy.  [%%] stands for a percent
    sign and [%(name)s] for the value of the option [name], lower-cased,
    of the same section or of [DEFAULT], interpolated in turn when it
    holds a percent sign; any other use of a percent sign, a name without
    an option, and a nesting deeper than [MAX_INTERPOLATION_DEPTH] are
    errors. *)

(** Where the scan of a value stands: in plain text, after a percent sign,
    in the name of a reference, after the parenthesis that closes it. *)
Inductive InterpState : Type :=
  | InPlain
  | InPercent
  | InName (name : string)
  | InClosed (name : string).

(** The loop of [_interpolate_some]; [again] interpolates the value of a
    reference, one level deeper.  [None] is an [InterpolationError]. *)
Fixpoint interpolate_scan (again : string → option string)
    (map : gmap string string) (state : InterpState) (rest : string)
  : option string :=
  match rest with
  | EmptyString => match state with InPlain => Some EmptyString | _ => None end
  | String c rest' =>
      match state with
      | InPlain =>
          if Ascii.eqb c "%" then interpolate_scan again map InPercent rest'
          else String c <$> interpolate_scan again map InPlain rest'
      | InPercent =>
          if Ascii.eqb c "%" then
            String "%" <$> interpolate_scan again map InPlain rest'
          else if Ascii.eqb c "(" then
            interpolate_scan again map (InName EmptyString) rest'
          else None
      | InName name =>
          if Ascii.eqb c ")" then
            if Str.nonempty name then
              interpolate_scan again map (InClosed name) rest'
            else None
          else interpolate_scan again map (InName (name +:+ String c EmptyString)) rest'
      | InClosed name =>
          if Ascii.eqb c "s" then
            match map !! Str.lower name with
            | Some v =>
                v' ← (if Str.has_char "%" v then again v else Some v);
                more ← interpolate_scan again map InPlain rest';
                Some (v' +:+ more)
            | None => None
            end
          else None
      end
  end.

Definition MAX_INTERPOLATION_DEPTH : nat := 10.

(** [_interpolate_some] at the levels that are left. *)
Fixpoint interpolate_depth (levels : nat) (map : gmap string string)
    (value : string) : option string :=
  match levels with
  | O => None
  | S levels' =>
      interpolate_scan (interpolate_depth levels' map) map InPlain value
  end.

(** [BasicInterpolation.before_get]: the value [value] of an option of a
    section whose options, with those of [DEFAULT], are [map]. *)
Definition interpolate (map : gmap string string) (value : string)
  : option string :=
  interpolate_depth MAX_INTERPOLATION_DEPTH map value.

(** [dict(section)]: every option of the section with its interpolated
    value, [None] when the interpolation of one of them fails. *)
Definition section_view (sec : gmap string string) : option (gmap string string) :=
  if bool_decide (map_Forall (λ _ v, is_Some (interpolate sec v)) sec)
  then Some (omap (interpolate sec) sec)
  else None.

(** [section[key]] on a section proxy. *)
Definition section_getitem {O} (sec : gmap string string) (key : string)
  : M O string :=
  match sec !! Str.lower key with
  | Some v =>
      match interpolate sec v with
      | Some v' => mret v'
      | None => raise InterpolationError
      end
  | None => raise (KeyError key)
  end.

(** [section.get(key, fallback=None)] on a section proxy. *)
Definition section_get {O} (sec : gmap string string) (key : string)
  : M O (option string) :=
  match sec !! Str.lower key with
  | Some v =>
      match interpolate sec v with
      | Some v' => mret (Some v')
      | None => raise InterpolationError
      end
  | None => mret None
  end.

Section ConfigFiles.
Context (fs : Node).

(** [ListConfigFile._line_generator], run to its end. *)
Fixpoint _line_generator {O} (paths : list Path) : M O (list string) :=
  match paths with
  | [] => mret []
  | list_path :: rest =>
      text ← read_text fs list_path;
      more ← _line_generator rest;
      mret (filter (λ l, Str.nonempty l = true) (Str.splitlines text) ++ more)
  end.

(** [ListConfigFile.__iter__] consumed to the end, as [list(self)] does:
    [_config_data] is [_ConfigABC]'s, and [_parse_data] returns a new
    generator, which reads as it is consumed. *)
Definition ListConfigFile_items : M (Config Empty_set) (list string) :=
  o ← get_self;
  _line_generator (path_order o).

(** The inner loop of [MappingConfigFile._parse_data]. *)
Fixpoint mapping_lines {O} (new_dict : gmap string string) (lines : list string)
  : M O (gmap string string) :=
  match lines with
  | [] => mret new_dict
  | line :: rest =>
      '(key, value) ← unpack2 (Str.split "=" line);
      mapping_lines (<[key := value]> new_dict) rest
  end.

(** The outer loop of [MappingConfigFile._parse_data]. *)
Fixpoint mapping_paths {O} (new_dict : gmap string string) (paths : list Path)
  : M O (gmap string string) :=
  match paths with
  | [] => mret new_dict
  | mapping_path :: rest =>
      text ← read_text fs mapping_path;
      d ← mapping_lines new_dict
            (filter (λ l, Str.nonempty l = true) (Str.splitlines text));
      mapping_paths d rest
  end.

Definition MappingConfigFile_parse_data
  : M (Config (gmap string string)) (option (gmap string string)) :=
  o ← get_self;
  new_dict ← mapping_paths ∅ (path_order o);
  mret (Some new_dict).

(** The truth value of a [dict]. *)
Definition dict_truthy {V} (d : gmap string V) : bool :=
  negb (bool_decide (d = ∅)).

Definition MappingConfigFile_config_data
  : M (Config (gmap string string)) (gmap string string) :=
  CacheConfigMixin_config_data dict_truthy MappingConfigFile_parse_data.

(** [MappingConfigFile.__getitem__] *)
Definition MappingConfigFile_getitem (key : string)
  : M (Config (gmap string string)) string :=
  d ← MappingConfigFile_config_data;
  match d !! key with
  | Some v => mret v
  | None => raise (KeyError key)
  end.

(** The loop of [IniConfigFile._parse_data]. *)
Fixpoint ini_read_paths {O} (parsed_ini : Ini) (paths : list Path) : M O Ini :=
  match paths with
  | [] => mret parsed_ini
  | ini_path :: rest =>
      i ← read_ini fs ini_path;
      ini_read_paths (ini_merge parsed_ini i) rest
  end.

(** [IniConfigFile._parse_data]; [schema i] tells whether
    [self._schema.validate] accepts [i]. *)
Definition IniConfigFile_parse_data (schema : Ini → bool)
  : M (Config Ini) (option Ini) :=
  o ← get_self;
  parsed_ini ← ini_read_paths ini_empty (path_order o);
  if schema parsed_ini then mret (Some parsed_ini)
  else raise SchemaError.

(** The truth value of a [ConfigParser]: it has a [__len__], the number of
    sections and one more for [DEFAULT]. *)
Definition ini_truthy (i : Ini) : bool :=
  negb (Nat.eqb (size (ini_sections i) + 1) 0).

Definition IniConfigFile_config_data (schema : Ini → bool) : M (Config Ini) Ini :=
  CacheConfigMixin_config_data ini_truthy (IniConfigFile_parse_data schema).

(** [IniConfigFile.__getitem__] *)
Definition IniConfigFile_getitem (schema : Ini → bool) (key : string)
  : M (Config Ini) (gmap string string) :=
  i ← IniConfigFile_config_data schema;
  match ini_getitem i key with
  | Some sec => mret sec
  | None => raise (KeyError key)
  end.
End ConfigFiles.

(** ** Schemas

    [third_party.schema] is a library outside this module.  The checks
    below are the schemas that the classes declare, read with the meaning
    that library gives them: a key that is not [Optional] has to be
    matched by a key of the data, every key of the data has to match a key
    of the schema, and [And(str, len)] wants a string that is not empty.
    [_DictCast] turns a section into a [dict] first, which reads every
    option of it: an interpolation that fails there fails the
    validation. *)

Definition has_key (d : gmap string string) (k : string) : bool :=
  match d !! k with Some _ => true | None => false end.

(** [_DictCast(data)] on a section: [check] on the [dict] of it. *)
Definition dict_cast (check : gmap string string → bool)
    (sec : gmap string string) : bool :=
  match section_view sec with
  | Some d => check d
  | None => false
  end.

(** A section against [{k: And(str, len) for k in required,
    Optional(k): And(str, len) for k in optional,
    Or(alternatives...): And(str, len)}]; no [Or] key when [alternatives]
    is empty. *)
Definition section_schema (required optional alternatives : list string)
    (d : gmap string string) : bool :=
  forallb (has_key d) required &&
  (match alternatives with [] => true | _ => existsb (has_key d) alternatives end) &&
  bool_decide (map_Forall (λ k v,
    k ∈ required ++ optional ++ alternatives ∧ Str.nonempty v = true) d).

(** ** [BaseBundleMetaIni] *)

Definition BaseBundleMetaIni_schema (i : Ini) : bool :=
  bool_decide (map_Forall (λ s _, s = "basebundle") (ini_sections i)) &&
  match ini_getitem i "basebundle" with
  | Some sec => dict_cast (section_schema ["display_name"] ["depends"] []) sec
  | None => false
  end.

Section BaseBundleMeta.
Context (fs : Node).

(** [BaseBundleMetaIni.depends] *)
Definition BaseBundleMetaIni_depends : M (Config Ini) (list string) :=
  sec ← IniConfigFile_getitem fs BaseBundleMetaIni_schema "basebundle";
  if has_key sec "depends" then
    sec' ← IniConfigFile_getitem fs BaseBundleMetaIni_schema "basebundle";
    v ← section_getitem sec' "depends";
    mret (Str.strip <$> Str.split "," v)
  else mret [].
End BaseBundleMeta.

(** ** [ExtraDepsIni] *)

Definition _hashes : list string := ["md5"; "sha1"; "sha256"; "sha512"].
Definition _required_keys : list string := ["version"; "url"; "download_name"].
(** [('strip_leading_dirs')]: parentheses around one string, a [str]. *)
Definition _optional_keys : string := "strip_leading_dirs".
(** The tuple that unpacks [_required_keys] and then [_optional_keys]:
    unpacking a [str] gives its characters. *)
Definition _passthrough_properties : list string :=
  _required_keys ++ Str.chars _optional_keys.

(** [{schema.Optional(x): ... for x in _optional_keys}] iterates over the
    same [str]. *)
Definition ExtraDepsIni_schema (i : Ini) : bool :=
  negb (Nat.eqb (size (ini_sections i)) 0) &&
  bool_decide (map_Forall (λ s own,
    Str.nonempty s = true ∧
    dict_cast (section_schema _required_keys (Str.chars _optional_keys) _hashes)
      (own ∪ ini_defaults i) = true) (ini_sections i)).

(** What an attribute access returns. *)
Inductive AttrValue : Type :=
  | AttrNone
  | AttrStr (s : string)
  | AttrDict (d : gmap string string).

(** [_ExtraDepsSection.__getattr__]; falling off the end of the method
    returns [None].  [_section_dict] holds the options that the method
    asks the section for, with the values that [get] returns for them. *)
Definition ExtraDepsSection_getattr (_section_dict : gmap string string)
    (passthrough_properties hashes : list string) (name : string) : AttrValue :=
  if bool_decide (name ∈ passthrough_properties) then
    match _section_dict !! name with
    | Some v => AttrStr v
    | None => AttrNone
    end
  else if String.eqb name "hashes" then
    AttrDict (foldl (λ hashes_dict hash_name,
                 match _section_dict !! hash_name with
                 | Some value =>
                     if Str.nonempty value then <[hash_name := value]> hashes_dict
                     else hashes_dict
                 | None => hashes_dict
                 end) ∅ hashes)
  else AttrNone.

(** The options that the access to the attribute [name] reads. *)
Definition attr_options (passthrough_properties hashes : list string)
    (name : string) : list string :=
  if bool_decide (name ∈ passthrough_properties) then [name]
  else if String.eqb name "hashes" then hashes
  else [].

(** The options [keys] of a section with their interpolated values, as
    [section.get] gives them one by one; [None] when the interpolation of
    one of them fails. *)
Definition section_view_on (keys : list string) (sec : gmap string string)
  : option (gmap string string) :=
  let asked := filter (λ kv, kv.1 ∈ keys) sec in
  if bool_decide (map_Forall (λ _ v, is_Some (interpolate sec v)) asked)
  then Some (omap (interpolate sec) asked)
  else None.

Section ExtraDeps.
Context (fs : Node).

(** [ExtraDepsIni.__getitem__(section)] followed by the access to the
    attribute [name] of the object it returns, which reads the options
    that [name] asks for through the section proxy. *)
Definition ExtraDepsIni_getitem_attr (section name : string)
  : M (Config Ini) AttrValue :=
  sec ← IniConfigFile_getitem fs ExtraDepsIni_schema section;
  match section_view_on (attr_options _passthrough_properties _hashes name) sec with
  | Some d => mret (ExtraDepsSection_getattr d _passthrough_properties _hashes name)
  | None => raise InterpolationError
  end.
End ExtraDeps.

(** ** [VersionIni] *)

Definition VersionIni_schema (i : Ini) : bool :=
  bool_decide (map_Forall (λ s _, s = "version") (ini_sections i)) &&
  match ini_getitem i "version" with
  | Some sec => dict_cast (section_schema ["chromium_version"; "release_revision"]
                             ["release_extra"] []) sec
  | None => false
  end.

Section Version.
Context (fs : Node).

Definition VersionIni_chromium_version : M (Config Ini) string :=
  sec ← IniConfigFile_getitem fs VersionIni_schema "version";
  section_getitem sec "chromium_version".

Definition VersionIni_release_revision : M (Config Ini) string :=
  sec ← IniConfigFile_getitem fs VersionIni_schema "version";
  section_getitem sec "release_revision".

(** The property is read with [fallback=None]. *)
Definition VersionIni_release_extra : M (Config Ini) (option string) :=
  sec ← IniConfigFile_getitem fs VersionIni_schema "version";
  section_get sec "release_extra".

(** The truth value of an optional string. *)
Definition opt_str_truthy (v : option string) : bool :=
  match v with Some s => Str.nonempty s | None => false end.

(** [str.format] of an optional string. *)
Definition opt_str_format (v : option string) : string :=
  match v with Some s => s | None => "None" end.

Definition VersionIni_version_string : M (Config Ini) string :=
  cv ← VersionIni_chromium_version;
  rr ← VersionIni_release_revision;
  let result := cv +:+ "-" +:+ rr in
  extra ← VersionIni_release_extra;
  if opt_str_truthy extra then
    extra' ← VersionIni_release_extra;
    mret (result +:+ "~" +:+ opt_str_format extra')
  else mret result.
End Version.

(** ** [ConfigBundle] *)

Inductive FileClass : Type :=
  | ClsListConfigFile
  | ClsDomainRegexList
  | ClsExtraDepsIni
  | ClsMappingConfigFile
  | ClsPatchesConfig
  | ClsVersionIni.

(** [_FILE_DEF]; the value [None] marks a name that is known and ignored. *)
Definition _FILE_DEF : list (string * option FileClass) :=
  [ (BASEBUNDLEMETA_INI, None);
    (PRUNING_LIST, Some ClsListConfigFile);
    (DOMAIN_REGEX_LIST, Some ClsDomainRegexList);
    (DOMAIN_SUBSTITUTION_LIST, Some ClsListConfigFile);
    (EXTRA_DEPS_INI, Some ClsExtraDepsIni);
    (GN_FLAGS_MAP, Some ClsMappingConfigFile);
    (PATCH_ORDER_LIST, Some ClsPatchesConfig);
    (PATCHES_DIR, None);
    (VERSION_INI, Some ClsVersionIni) ].

(** What a config file of a bundle may hold in its cache. *)
Inductive Parsed : Type :=
  | ParsedMapping (d : gmap string string)
  | ParsedIni (i : Ini).

(** A config file held by a bundle: its class, the attributes of
    [_ConfigABC], and [_patches_dir], which only [PatchesConfig] uses. *)
Record Child : Type := mkChild {
  cls : FileClass;
  file : Config Parsed;
  patches_dir : option Path
}.

Definition set_file (f : Config Parsed) (c : Child) : Child :=
  mkChild (cls c) f (patches_dir c).
Definition set_patches (p : option Path) (c : Child) : Child :=
  mkChild (cls c) (file c) p.

(** [deque.pop()]: the rightmost element and the rest. *)
Definition deque_pop {A} (q : list A) : option (A * list A) :=
  match reverse q with
  | [] => None
  | x :: r => Some (x, reverse r)
  end.

(** [str(path)] *)
Definition path_str (p : Path) : string :=
  foldr (λ c acc, "/" +:+ c +:+ acc) EmptyString p.

Definition dquote : string := String "034" EmptyString.

Definition duplicate_msg (n : string) : string :=
  "Duplicate base config bundle dependency " +:+ dquote +:+ n +:+ dquote.

Section Bundle.
Context (fs : Node).
(** The path that [get_resources_dir()] returns and the constant
    [CONFIG_BUNDLES_DIR], both of [buildkit.common].  The function is not
    part of this module: it finds the resources directory and raises
    [NotADirectoryError] without one, and [from_base_name] is modelled for
    the calls in which it returns. *)
Context (resources_dir : Path) (CONFIG_BUNDLES_DIR : string).

Definition config_bundles_dir : Path := resources_dir // CONFIG_BUNDLES_DIR.

(** The inner loop of [ConfigBundle._parse_data], over the entries of
    one directory. *)
Fixpoint bundle_scan {O} (directory : Path) (file_dict : gmap string Child)
    (names : list string) : M O (gmap string Child) :=
  match names with
  | [] => mret file_dict
  | n :: rest =>
      let config_path := directory // n in
      match file_dict !! n with
      | Some child =>
          '(_, f) ← call (file child) (update_last_path fs config_path);
          bundle_scan directory (<[n := set_file f child]> file_dict) rest
      | None =>
          match assoc n _FILE_DEF with
          | None =>
              raise (ValueError
                ("Unknown files in config bundle: " +:+ path_str directory))
          | Some None => bundle_scan directory file_dict rest
          | Some (Some config_class) =>
              f ← Config_init fs config_path None;
              bundle_scan directory
                (<[n := mkChild config_class f None]> file_dict) rest
          end
      end
  end.

(** The outer loop of [ConfigBundle._parse_data]. *)
Fixpoint bundle_dirs {O} (file_dict : gmap string Child) (dirs : list Path)
  : M O (gmap string Child) :=
  match dirs with
  | [] => mret file_dict
  | directory :: rest =>
      names ← iterdir fs directory;
      d ← bundle_scan directory file_dict names;
      bundle_dirs d rest
  end.

Definition ConfigBundle_parse_data
  : M (Config (gmap string Child)) (option (gmap string Child)) :=
  o ← get_self;
  file_dict ← bundle_dirs ∅ (path_order o);
  mret (Some file_dict).

(** The truth value of a [dict] is that of its length. *)
Definition len_truthy {V} (d : gmap string V) : bool :=
  negb (Nat.eqb (size d) 0).

Definition ConfigBundle_config_data
  : M (Config (gmap string Child)) (gmap string Child) :=
  CacheConfigMixin_config_data len_truthy ConfigBundle_parse_data.

(** [ConfigBundle.patches] *)
Definition ConfigBundle_patches : M (Config (gmap string Child)) Child :=
  d ← ConfigBundle_config_data;
  match d !! PATCH_ORDER_LIST with
  | Some c => mret c
  | None => raise (KeyError PATCH_ORDER_LIST)
  end.

(** [PatchesConfig.set_patches_dir] *)
Definition set_patches_dir (p : Path) : M Child unit :=
  d ← path_is_dir fs p;
  if negb d then raise (NotADirectoryError p)
  else
    c ← get_self;
    put_self (set_patches (Some p) c).

(** [ConfigBundle.get_dependencies] *)
Definition get_dependencies (o : Config (gmap string Child)) : list string :=
  path_name <$> removelast (path_order o).

(** The [for] loop over the dependencies of one bundle. *)
Fixpoint for_depends (depends : list string)
    (new_bundle : Config (gmap string Child)) (pending_explore : list string)
  : M unit (Config (gmap string Child) * list string) :=
  match depends with
  | [] => mret (new_bundle, pending_explore)
  | dependency_name :: rest =>
      '(added, new_bundle') ←
        call new_bundle (update_first_path fs (config_bundles_dir // dependency_name));
      if (added : bool) then for_depends rest new_bundle' (dependency_name :: pending_explore)
      else for_depends rest new_bundle' pending_explore
  end.

(** The [while] loop of [from_base_name].  [fuel] bounds the number of
    iterations. *)
Fixpoint explore (fuel : nat) (new_bundle : Config (gmap string Child))
    (pending_explore : list string) (known_names : gset string)
  : M unit (Config (gmap string Child)) :=
  match deque_pop pending_explore with
  | None => mret new_bundle
  | Some (base_bundle_name, pending_explore') =>
      match fuel with
      | O => raise OutOfFuel
      | S fuel' =>
          if bool_decide (base_bundle_name ∈ known_names) then
            raise (ValueError (duplicate_msg base_bundle_name))
          else
            let known_names' := known_names ∪ {[ base_bundle_name ]} in
            basebundlemeta ← Config_init fs
              (config_bundles_dir // base_bundle_name // BASEBUNDLEMETA_INI) None;
            '(depends, _) ← call basebundlemeta (BaseBundleMetaIni_depends fs);
            '(new_bundle', pending_explore'') ←
              for_depends depends new_bundle pending_explore';
            explore fuel' new_bundle' pending_explore'' known_names'
      end
  end.

(** The number of entries of the bundles directory, which bounds the
    number of bundles that can be explored. *)
Definition num_bundles : nat :=
  match fs_lookup fs config_bundles_dir with
  | Some (Dir es) => length es
  | _ => 0%nat
  end.

(** The [try] statement that ends [from_base_name]. *)
Definition bind_patches_dir (new_bundle : Config (gmap string Child))
  : M unit (Config (gmap string Child)) :=
  '(r, new_bundle') ← call_obj new_bundle ConfigBundle_patches;
  match r with
  | Ok patches =>
      '(_, patches') ← call patches (set_patches_dir (resources_dir // PATCHES_DIR));
      (* the object is the one that the cached dictionary holds *)
      mret (set_read_cache
              ((λ d, <[PATCH_ORDER_LIST := patches']> d) <$> read_cache new_bundle')
              new_bundle')
  | Raise (KeyError _) => mret new_bundle'
  | Raise e => raise e
  end.

(** [ConfigBundle.from_base_name] *)
Definition from_base_name (name : string) : M unit (Config (gmap string Child)) :=
  new_bundle ← Config_init fs (config_bundles_dir // name) None;
  new_bundle' ← explore (S num_bundles) new_bundle [name] ∅;
  bind_patches_dir new_bundle'.
End Bundle.

(** ** Definitions used by the statements *)

(** A line as [splitlines] yields it: no line boundary inside. *)
Fixpoint no_linebreak (s : string) : bool :=
  match s with
  | EmptyString => true
  | String c s' => negb (Str.is_linebreak c) && no_linebreak s'
  end.

Definition newline : string := String "010" EmptyString.

(** The text that [ListConfigFile.write] writes for the lines it is given:
    each of them followed by a newline. *)
Definition ListConfigFile_write_text (lines : list string) : string :=
  foldr (λ x acc, x +:+ newline +:+ acc) EmptyString lines.

(** A file with this text, whatever [configparser] makes of it. *)
Definition is_file (fs : Node) (p : Path) (text : string) : Prop :=
  ∃ i, fs_lookup fs p = Some (File text i).

(** What one layer of a mapping file defines, read on its own. *)
Definition layer_dict (fs : Node) (p : Path) : Result (gmap string string) :=
  fst (mapping_paths fs ∅ [p] (mkSt tt [])).

(** The truth value of [self._read_cache], the test of
    [_CacheConfigMixin._config_data]. *)
Definition cache_truthy {D} (truthy : D → bool) (c : option D) : bool :=
  match c with Some d => truthy d | None => false end.

(** The [depends] that the metadata of a bundle declares, as [depends]
    reads it, empty where the metadata cannot be read. *)
Definition declared_depends (fs : Node) (bundles_dir : Path) (n : string)
  : list string :=
  match fs_lookup fs (bundles_dir // n // BASEBUNDLEMETA_INI) with
  | Some (File _ (Some i)) =>
      match ini_getitem i "basebundle" with
      | Some sec =>
          match sec !! "depends" ≫= interpolate sec with
          | Some v => Str.strip <$> Str.split "," v
          | None => []
          end
      | None => []
      end
  | _ => []
  end.

(** A name that is one component of a path, for which [p / n] appends
    [n] to the components of [p]: not empty, without a slash or a null
    character, and neither [.] nor [..]. *)
Definition simple_name (n : string) : bool :=
  Str.nonempty n && negb (Str.has_char "/" n) && negb (Str.has_char "000" n) &&
  negb (String.eqb n ".") && negb (String.eqb n "..").

Section Linearizations.
Context (deps : string → list string).

(** The names of [cands] that are not in [seen], each once, in the order
    of their first occurrence. *)
Fixpoint discover (seen cands : list string) : list string :=
  match cands with
  | [] => []
  | c :: cs =>
      if bool_decide (c ∈ seen) then discover seen cs
      else c :: discover (seen ++ [c]) cs
  end.

(** Breadth first, level by level: the bundles that the bundles of
    [level] declare, in the order of the level and of each declaration,
    then the same from that next level.  [fuel] bounds the number of
    levels. *)
Fixpoint bfs_levels (fuel : nat) (seen level : list string) : list string :=
  match level, fuel with
  | [], _ => []
  | _, O => []
  | _, S fuel' =>
      let next := discover seen (level ≫= deps) in
      next ++ bfs_levels fuel' (seen ++ next) next
  end.

(** The breadth-first, declaration-order linearization from [root]. *)
Definition bfs_order (fuel : nat) (root : string) : list string :=
  root :: bfs_levels fuel [root] [root].

(** The traversal with a first-in first-out queue of pending names:
    [seen] lists the bundles in the order in which they were added as
    layers.  [None] when [fuel] runs out. *)
Fixpoint queue_traversal (fuel : nat) (queue seen : list string)
  : option (list string) :=
  match queue, fuel with
  | [], _ => Some seen
  | _, O => None
  | x :: queue', S fuel' =>
      let new := discover seen (deps x) in
      queue_traversal fuel' (queue' ++ new) (seen ++ new)
  end.

(** The traversal as the specification words it: a pending-exploration
    stack, the name pushed last is explored first.  [seen] lists the
    bundles in the order in which they were added as layers. *)
Fixpoint stack_traversal (fuel : nat) (stack seen : list string) : list string :=
  match stack, fuel with
  | [], _ => seen
  | _, O => seen
  | x :: stack', S fuel' =>
      let new := discover seen (deps x) in
      stack_traversal fuel' (reverse new ++ stack') (seen ++ new)
  end.

(** The stack-based, depth-first linearization from [root]. *)
Definition stack_order (fuel : nat) (root : string) : list string :=
  stack_traversal fuel [root] [root].
End Linearizations.

(** The names of the entries of the bundles directory. *)
Definition bundle_names (fs : Node) (bundles_dir : Path) : list string :=
  match fs_lookup fs bundles_dir with
  | Some (Dir es) => es.*1
  | _ => []
  end.

(** The name asked for and every name that the metadata of a bundle of
    the bundles directory declares in [depends] is one component of a
    path. *)
Definition names_simple (fs : Node) (bundles_dir : Path) (name : string) : bool :=
  simple_name name &&
  forallb (λ n, forallb simple_name (declared_depends fs bundles_dir n))
    (bundle_names fs bundles_dir).

(** An exception of the code: neither the end of the fuel of the model nor
    the error for a bundle name met twice. *)
Definition ordinary (e : Exn) : Prop :=
  e ≠ OutOfFuel ∧ ∀ n, e ≠ ValueError (duplicate_msg n).

(** A computation that raises nothing but exceptions in [P]. *)
Definition raises_only {O A} (P : Exn → Prop) (m : M O A) : Prop :=
  ∀ st e st', m st = (Raise e, st') → P e.

(** A computation that leaves the receiver as it found it. *)
Definition keeps_self {O A} (m : M O A) : Prop :=
  ∀ st r st', m st = (r, st') → self st' = self st.

(** The names of the layers of the bundle that a run returned, front to
    back. *)
Definition layers_of {S} (run : Result (Config (gmap string Child)) * S)
  : option (list string) :=
  match fst run with
  | Ok b => Some (path_name <$> path_order b)
  | Raise _ => None
  end.

(** ** Filesystems of the examples *)

Module Examples.

Definition res : Path := ["resources"].
Definition bundles : string := "config_bundles".

(** A [basebundlemeta.ini] with the given [depends], if any. *)
Definition meta (depends : option string) : Node :=
  File EmptyString (Some (mkIni ∅ {[ "basebundle" :=
    match depends with
    | Some d => {[ "display_name" := "Bundle"; "depends" := d ]}
    | None => {[ "display_name" := "Bundle" ]}
    end ]})).

Definition bundle (depends : option string) : Node :=
  Dir [(BASEBUNDLEMETA_INI, meta depends)].

Definition tree (bs : list (string * Node)) : Node :=
  Dir [("resources", Dir [(bundles, Dir bs)])].

(** a -> b, c;  b -> d;  c -> e;  d -> f *)
Definition fs_tree : Node :=
  tree [ ("a", bundle (Some "b, c")); ("b", bundle (Some "d"));
         ("c", bundle (Some "e")); ("d", bundle (Some "f"));
         ("e", bundle None); ("f", bundle None) ].

(** a -> a *)
Definition fs_self : Node := tree [ ("a", bundle (Some "a")) ].

(** a -> b;  b -> a *)
Definition fs_cycle : Node :=
  tree [ ("a", bundle (Some "b")); ("b", bundle (Some "a")) ].

(** a -> b, c;  b -> d;  c -> d *)
Definition fs_diamond : Node :=
  tree [ ("a", bundle (Some "b,c")); ("b", bundle (Some "d"));
         ("c", bundle (Some "d")); ("d", bundle None) ].

Definition bundle_path (n : string) : Path := ["resources"; bundles; n].

(** Text files: two list layers, and mapping layers. *)
Definition fs_files : Node :=
  Dir [ ("l1", File ("a" +:+ newline +:+ "b" +:+ newline) None);
        ("l2", File ("c" +:+ newline) None);
        ("l3", File ("a" +:+ newline +:+ newline +:+ "c") None);
        ("m1", File ("K=one" +:+ newline +:+ "J=x" +:+ newline) None);
        ("m2", File ("K=two" +:+ newline) None);
        ("m3", File ("J=y" +:+ newline) None);
        ("m4", File ("k=a=b" +:+ newline) None);
        ("m5", File newline None) ].

Definition list_file (ps : list Path) : Config Empty_set :=
  mkConfig [] "pruning.list" ps None.
Definition mapping_file (ps : list Path) : Config (gmap string string) :=
  mkConfig [] "gn_flags.map" ps None.

Definition version_ini (extra : option string) : Ini :=
  mkIni ∅ {[ "version" :=
    match extra with
    | Some e => {[ "chromium_version" := "90.0"; "release_revision" := "1";
                   "release_extra" := e ]}
    | None => {[ "chromium_version" := "90.0"; "release_revision" := "1" ]}
    end ]}.

Definition fs_version (extra : option string) : Node :=
  Dir [ ("version.ini", File EmptyString (Some (version_ini extra))) ].

(** A release revision that refers to the Chromium version, and one that
    holds a percent sign on its own. *)
Definition fs_version_ref : Node :=
  Dir [ ("version.ini",
         File EmptyString
           (Some (mkIni ∅ {[ "version" :=
              {[ "chromium_version" := "90.0";
                 "release_revision" := "%(chromium_version)s" ]} ]}))) ].

Definition fs_version_percent : Node :=
  Dir [ ("version.ini",
         File EmptyString
           (Some (mkIni ∅ {[ "version" :=
              {[ "chromium_version" := "90.0"; "release_revision" := "1%" ]} ]}))) ].

Definition version_file : Config Ini :=
  mkConfig ["version.ini"] "version.ini" [["version.ini"]] None.

(** An extra-deps section with one checksum and all the other keys. *)
Definition deps_section : gmap string string :=
  {[ "version" := "1.0"; "url" := "https://example.org/d.tar";
     "download_name" := "d.tar"; "sha256" := "abc";
     "strip_leading_dirs" := "d-1.0" ]}.

Definition fs_extra_deps : Node :=
  Dir [ ("extra_deps.ini",
         File EmptyString (Some (mkIni ∅ {[ "dep" := deps_section ]}))) ].

Definition extra_deps_file : Config Ini :=
  mkConfig ["extra_deps.ini"] "extra_deps.ini" [["extra_deps.ini"]] None.

End Examples.

(** ** Further methods of the classes *)

Section FurtherMethods.
Context (fs : Node).

(** [ListConfigFile.__contains__]: [item in self._config_data] consumes
    the generator up to the first line that equals [item]; a layer is read
    when the lines of the layers before it are exhausted. *)
Fixpoint contains_from {O} (paths : list Path) (item : string) : M O bool :=
  match paths with
  | [] => mret false
  | list_path :: rest =>
      text ← read_text fs list_path;
      if bool_decide
           (item ∈ filter (λ l, Str.nonempty l = true) (Str.splitlines text))
      then mret true
      else contains_from rest item
  end.

Definition ListConfigFile_contains (item : string) : M (Config Empty_set) bool :=
  o ← get_self;
  contains_from (path_order o) item.

(** [MappingConfigFile.__contains__] *)
Definition MappingConfigFile_contains (item : string)
  : M (Config (gmap string string)) bool :=
  d ← MappingConfigFile_config_data fs;
  mret (has_key d item).

(** [IniConfigFile.__contains__]: [has_section], which does not count
    [DEFAULT]. *)
Definition IniConfigFile_contains (schema : Ini → bool) (item : string)
  : M (Config Ini) bool :=
  i ← IniConfigFile_config_data fs schema;
  mret (match ini_sections i !! item with Some _ => true | None => false end).

(** [BaseBundleMetaIni.display_name] *)
Definition BaseBundleMetaIni_display_name : M (Config Ini) string :=
  sec ← IniConfigFile_getitem fs BaseBundleMetaIni_schema "basebundle";
  section_getitem sec "display_name".

(** [PatchesConfig._get_patches_dir] *)
Definition _get_patches_dir : M Child Path :=
  c ← get_self;
  match patches_dir c with
  | Some p => mret p
  | None =>
      let patches_dir := path_parent (path (file c)) // "patches" in
      d ← path_is_dir fs patches_dir;
      if negb d then raise (NotADirectoryError patches_dir)
      else
        put_self (set_patches (Some patches_dir) c);;
        mret patches_dir
  end.

(** [ConfigBundle.__getitem__] *)
Definition ConfigBundle_getitem (key : string)
  : M (Config (gmap string Child)) Child :=
  d ← ConfigBundle_config_data fs;
  match d !! key with
  | Some c => mret c
  | None => raise (KeyError key)
  end.

(** [ConfigBundle.__contains__] *)
Definition ConfigBundle_contains (item : string)
  : M (Config (gmap string Child)) bool :=
  d ← ConfigBundle_config_data fs;
  mret (match d !! item with Some _ => true | None => false end).
End FurtherMethods.

(** The line that [MappingConfigFile.write] writes for one item. *)
Definition mapping_item_line (item : string * string) : string :=
  item.1 +:+ "=" +:+ item.2.

(** [MappingConfigFile.write]: the text that goes to the output file for
    the items of the dictionary, in the order in which it yields them. *)
Definition MappingConfigFile_write_text (items : list (string * string)) : string :=
  foldr (λ item acc, mapping_item_line item +:+ newline +:+ acc) EmptyString items.

(** The names of the entries of a directory, none where there is no
    directory. *)
Definition entries_of (fs : Node) (d : Path) : list string :=
  match fs_lookup fs d with
  | Some (Dir es) => es.*1
  | _ => []
  end.

(** The class that [_FILE_DEF] gives a name, if it gives one. *)
Definition file_class (n : string) : option FileClass :=
  match assoc n _FILE_DEF with
  | Some (Some c) => Some c
  | _ => None
  end.

(** A directory, its entries under distinct names that are all names of
    [_FILE_DEF]. *)
Definition known_entries (fs : Node) (d : Path) : Prop :=
  (∃ es, fs_lookup fs d = Some (Dir es)) ∧
  NoDup (entries_of fs d) ∧
  ∀ n, n ∈ entries_of fs d → is_Some (assoc n _FILE_DEF).

(** The config file that a bundle holds under the name [n] when the
    directories [ds], in this order, are the ones that have an entry [n]:
    none when [_FILE_DEF] gives the name no class or no directory has it. *)
Definition merged_file (n : string) (ds : list Path) : option Child :=
  match file_class n, ds with
  | Some c, d0 :: _ =>
      Some (mkChild c (mkConfig (d0 // n) n ((λ d, d // n) <$> ds) None) None)
  | _, _ => None
  end.

(** The directories among [dirs] that have an entry [n]. *)
Definition dirs_with (fs : Node) (n : string) (dirs : list Path) : list Path :=
  filter (λ d, n ∈ entries_of fs d) dirs.

(** The directories known to hold [n] while the entries [done] of [d]
    have been scanned, after the directories [ds]. *)
Definition scanned (fs : Node) (ds : list Path) (d : Path) (done : list string)
    (n : string) : list Path :=
  dirs_with fs n ds ++ (if bool_decide (n ∈ done) then [d] else []).

(** What the resolution loop keeps of the bundle [nb0] in [nb]: its
    attributes other than the layers, and layers that exist. *)
Definition kept (fs : Node) (nb0 nb : Config (gmap string Child)) : Prop :=
  path nb = path nb0 ∧ name nb = name nb0 ∧ read_cache nb = read_cache nb0 ∧
  ∀ p, p ∈ path_order nb → p ∈ path_order nb0 ∨ is_Some (fs_lookup fs p).

(** The bundle directory [d] holds a metadata file that parses and that
    the schema of [BaseBundleMetaIni] accepts. *)
Definition valid_meta (fs : Node) (d : Path) : Prop :=
  ∃ t i, fs_lookup fs (d // BASEBUNDLEMETA_INI) = Some (File t (Some i)) ∧
         BaseBundleMetaIni_schema i = true.

(** What reading the metadata of the bundle directory [d] raises, if
    anything: the file is missing, is a directory, does not parse or fails
    the schema. *)
Definition meta_failure (fs : Node) (d : Path) : option Exn :=
  let p := d // BASEBUNDLEMETA_INI in
  match fs_lookup fs p with
  | None => Some (FileNotFoundError p)
  | Some (Dir _) => Some (IsADirectoryError p)
  | Some (File _ None) => Some (ParsingError p)
  | Some (File _ (Some i)) =>
      if BaseBundleMetaIni_schema i then None else Some SchemaError
  end.

(** What stops the resolution at the bundle asked for: its directory is
    missing, or its metadata cannot be read. *)
Definition root_failure (fs : Node) (bundles_dir : Path) (n : string)
  : option Exn :=
  match fs_lookup fs (bundles_dir // n) with
  | None => Some (FileNotFoundError (bundles_dir // n))
  | Some _ => meta_failure fs (bundles_dir // n)
  end.

(** Neither a [KeyError] nor a [TypeError]. *)
Definition no_lookup_error (e : Exn) : Prop :=
  (∀ key, e ≠ KeyError key) ∧ (∀ msg, e ≠ TypeError msg).

(** The character [c] does not occur in [s]. *)
Definition lacks (c : ascii) (s : string) : Prop := Str.count c s = 0.

(** An item as a parse of a mapping file can produce it: no [=] and no
    line boundary in the key or in the value. *)
Definition clean_item (item : string * string) : Prop :=
  lacks "=" item.1 ∧ lacks "=" item.2 ∧
  no_linebreak item.1 = true ∧ no_linebreak item.2 = true.

Module MoreExamples.

(** A bundles directory whose bundle [a] depends on [b]; both hold a
    patch order and a flag map, [b] also a pruning list. *)
Definition fs_bundle (with_patches : bool) : Node :=
  Dir [("resources", Dir (
    (Examples.bundles, Dir [
       ("a", Dir [ (BASEBUNDLEMETA_INI, Examples.meta (Some "b"));
                   (PATCH_ORDER_LIST, File ("a.patch" +:+ newline) None);
                   (GN_FLAGS_MAP, File ("x=1" +:+ newline) None) ]);
       ("b", Dir [ (BASEBUNDLEMETA_INI, Examples.meta None);
                   (PRUNING_LIST, File ("f" +:+ newline) None);
                   (PATCH_ORDER_LIST, File ("b.patch" +:+ newline) None);
                   (GN_FLAGS_MAP, File ("x=0" +:+ newline) None) ]);
       ("c", Dir [ (BASEBUNDLEMETA_INI, Examples.meta None);
                   ("README", File EmptyString None) ]) ])
    :: (if with_patches then [(PATCHES_DIR, Dir [])] else [])))].

Definition bundle_obj (ps : list Path) : Config (gmap string Child) :=
  mkConfig (Examples.bundle_path "a") "a" ps None.

Definition patches_child (p : Path) (d : option Path) : Child :=
  mkChild ClsPatchesConfig (mkConfig p PATCH_ORDER_LIST [p] None) d.

(** An extra-deps file that the schema accepts. *)
Definition good_section : gmap string string :=
  {[ "version" := "1.0"; "url" := "https://example.org/d.tar";
     "download_name" := "d.tar"; "sha256" := "abc"; "md5" := "def" ]}.

Definition fs_good_deps : Node :=
  Dir [ ("extra_deps.ini",
         File EmptyString (Some (mkIni ∅ {[ "dep" := good_section ]}))) ].

(** A version file without [release_revision]. *)
Definition fs_bad_version : Node :=
  Dir [ ("version.ini",
         File EmptyString
           (Some (mkIni ∅ {[ "version" := {[ "chromium_version" := "90.0" ]} ]}))) ].

End MoreExamples.

(** * Properties *)

(** ** The monad *)

Lemma bind_Ok_inv {O A B} (m : M O A) (f : A → M O B) st b st' :
  (m ≫= f) st = (Ok b, st') →
  ∃ a st1, m st = (Ok a, st1) ∧ f a st1 = (Ok b, st').
Proof.
  unfold mbind, M_bind. destruct (m st) as [[a|e] st1]; intros H.
  - eauto.
  - discriminate.
Qed.

Lemma bind_Raise_inv {O A B} (m : M O A) (f : A → M O B) st e st' :
  (m ≫= f) st = (Raise e, st') →
  m st = (Raise e, st') ∨ ∃ a st1, m st = (Ok a, st1) ∧ f a st1 = (Raise e, st').
Proof.
  unfold mbind, M_bind. destruct (m st) as [[a|e0] st1]; intros H.
  - right. eauto.
  - left. congruence.
Qed.

Lemma bind_Ok_step {O A B} (m : M O A) (f : A → M O B) st a st1 :
  m st = (Ok a, st1) → (m ≫= f) st = f a st1.
Proof. unfold mbind, M_bind. by intros ->. Qed.

Lemma bind_Raise_step {O A B} (m : M O A) (f : A → M O B) st e st1 :
  m st = (Raise e, st1) → (m ≫= f) st = (Raise e, st1).
Proof. unfold mbind, M_bind. by intros ->. Qed.

Lemma St_eta {O} (st : St O) : mkSt (self st) (trace st) = st.
Proof. by destruct st. Qed.

(** What a successful read leaves in the log and returns. *)
Lemma read_text_Ok fs {O} p (st st' : St O) t :
  read_text fs p st = (Ok t, st') →
  st' = mkSt (self st) (trace st ++ [OpRead p]) ∧ is_file fs p t.
Proof.
  unfold read_text, is_file, mbind, M_bind, log, mret, M_ret, raise. simpl.
  destruct (fs_lookup fs p) as [[?|? ?]|]; intros H; simplify_eq. eauto.
Qed.

Lemma read_text_file fs {O} p (st : St O) t :
  is_file fs p t →
  read_text fs p st = (Ok t, mkSt (self st) (trace st ++ [OpRead p])).
Proof.
  intros [i Hi]. unfold read_text, mbind, M_bind, log, mret, M_ret. simpl.
  by rewrite Hi.
Qed.

Lemma read_ini_Ok fs {O} p (st st' : St O) i :
  read_ini fs p st = (Ok i, st') →
  st' = mkSt (self st) (trace st ++ [OpRead p]) ∧
  ∃ t, fs_lookup fs p = Some (File t (Some i)).
Proof.
  unfold read_ini, mbind, M_bind, log, mret, M_ret, raise. simpl.
  destruct (fs_lookup fs p) as [[?|? [?|]]|]; intros H; simplify_eq. eauto.
Qed.

(** ** Layered path list *)

Section PathList.
Context (fs : Node) {D : Type}.
Implicit Types (o : Config D) (p : Path) (tr : list FsOp).

Lemma check_path_add_member o p tr :
  p ∈ path_order o → _check_path_add fs p (mkSt o tr) = (Ok false, mkSt o tr).
Proof.
  intros Hin. unfold _check_path_add, mbind, M_bind, get_self. simpl.
  by rewrite bool_decide_eq_true_2.
Qed.

Lemma check_path_add_missing o p tr :
  p ∉ path_order o → fs_lookup fs p = None →
  _check_path_add fs p (mkSt o tr)
  = (Raise (FileNotFoundError p), mkSt o (tr ++ [OpExists p])).
Proof.
  intros Hin Hfs. unfold _check_path_add, mbind, M_bind, get_self. simpl.
  rewrite bool_decide_eq_false_2 by done.
  unfold path_exists, mbind, M_bind, log, mret, M_ret. simpl.
  by rewrite Hfs.
Qed.

Lemma check_path_add_new o p tr :
  p ∉ path_order o → is_Some (fs_lookup fs p) →
  _check_path_add fs p (mkSt o tr) = (Ok true, mkSt o (tr ++ [OpExists p])).
Proof.
  intros Hin [n Hfs]. unfold _check_path_add, mbind, M_bind, get_self. simpl.
  rewrite bool_decide_eq_false_2 by done.
  unfold path_exists, mbind, M_bind, log, mret, M_ret. simpl.
  by rewrite Hfs.
Qed.

(** C7: a path that is already a member is refused with [False], the
    order and the filesystem untouched; a new path that does not exist
    raises [FileNotFoundError], the order unchanged; a new path that
    exists is added at the front by [update_first_path] and at the back
    by [update_last_path], which return [True]. *)
Theorem update_path_contract o p tr :
  (p ∈ path_order o →
     update_first_path fs p (mkSt o tr) = (Ok false, mkSt o tr) ∧
     update_last_path fs p (mkSt o tr) = (Ok false, mkSt o tr)) ∧
  (p ∉ path_order o → fs_lookup fs p = None →
     update_first_path fs p (mkSt o tr)
     = (Raise (FileNotFoundError p), mkSt o (tr ++ [OpExists p])) ∧
     update_last_path fs p (mkSt o tr)
     = (Raise (FileNotFoundError p), mkSt o (tr ++ [OpExists p]))) ∧
  (p ∉ path_order o → is_Some (fs_lookup fs p) →
     update_first_path fs p (mkSt o tr)
     = (Ok true, mkSt (set_path_order (p :: path_order o) o) (tr ++ [OpExists p])) ∧
     update_last_path fs p (mkSt o tr)
     = (Ok true, mkSt (set_path_order (path_order o ++ [p]) o) (tr ++ [OpExists p]))).
Proof.
  unfold update_first_path, update_last_path. repeat split.
  - erewrite bind_Ok_step by by apply check_path_add_member. done.
  - erewrite bind_Ok_step by by apply check_path_add_member. done.
  - erewrite bind_Raise_step by by apply check_path_add_missing. done.
  - erewrite bind_Raise_step by by apply check_path_add_missing. done.
  - erewrite bind_Ok_step by by apply check_path_add_new. done.
  - erewrite bind_Ok_step by by apply check_path_add_new. done.
Qed.
End PathList.

Lemma update_path_contract_witness :
  let o := Examples.list_file [["l1"]] in
  (update_first_path Examples.fs_files ["l1"] (mkSt o []) = (Ok false, mkSt o []) ∧
   update_last_path Examples.fs_files ["l1"] (mkSt o []) = (Ok false, mkSt o [])) ∧
  (update_first_path Examples.fs_files ["nowhere"] (mkSt o [])
   = (Raise (FileNotFoundError ["nowhere"]), mkSt o [OpExists ["nowhere"]]) ∧
   update_last_path Examples.fs_files ["nowhere"] (mkSt o [])
   = (Raise (FileNotFoundError ["nowhere"]), mkSt o [OpExists ["nowhere"]])) ∧
  (update_first_path Examples.fs_files ["l2"] (mkSt o [])
   = (Ok true, mkSt (Examples.list_file [["l2"]; ["l1"]]) [OpExists ["l2"]]) ∧
   update_last_path Examples.fs_files ["l2"] (mkSt o [])
   = (Ok true, mkSt (Examples.list_file [["l1"]; ["l2"]]) [OpExists ["l2"]])).
Proof.
  intros o. split; [|split].
  - apply (update_path_contract Examples.fs_files o ["l1"] []).
    compute_done.
  - apply (update_path_contract Examples.fs_files o ["nowhere"] []).
    + compute_done.
    + reflexivity.
  - apply (update_path_contract Examples.fs_files o ["l2"] []).
    + compute_done.
    + eexists. reflexivity.
Defined.

(** ** Key-value mapping files *)

Lemma split_before_after c s :
  Str.split c s
  = Str.before c s ::
    match Str.count c s with
    | O => []
    | S _ => Str.split c (Str.after c s)
    end.
Proof.
  induction s as [|a s IH]; [done|]. simpl.
  destruct (Ascii.eqb a c); [done|].
  by rewrite IH.
Qed.

Lemma count_after c s : Str.count c (Str.after c s) = pred (Str.count c s).
Proof.
  induction s as [|a s IH]; [done|]. simpl.
  destruct (Ascii.eqb a c); [done|]. done.
Qed.

Lemma split_one c s :
  Str.count c s = 1 → Str.split c s = [Str.before c s; Str.after c s].
Proof.
  intros H. rewrite split_before_after, H.
  rewrite split_before_after, count_after, H. simpl.
  f_equal. f_equal.
  assert (Hz : Str.count c (Str.after c s) = 0) by (rewrite count_after, H; done).
  clear H. induction (Str.after c s) as [|a t IH]; [done|].
  simpl in *. destruct (Ascii.eqb a c); [done|]. by rewrite IH.
Qed.

Lemma split_length c s : length (Str.split c s) = S (Str.count c s).
Proof.
  induction s as [|a s IH]; [done|]. simpl.
  destruct (Ascii.eqb a c); simpl; [by rewrite IH|].
  destruct (Str.split c s); simpl in *; congruence.
Qed.

Lemma unpack2_Ok {O} parts (st st' : St O) k v :
  unpack2 parts st = (Ok (k, v), st') → parts = [k; v] ∧ st' = st.
Proof.
  destruct parts as [|a [|b [|c l]]]; unfold unpack2, raise, mret, M_ret;
    intros H; by simplify_eq.
Qed.

(** C4, as the code has it: a line with exactly one [=] gives the key
    before it and the value after it; any other line, one whose value
    holds a further [=] among them, raises [ValueError]. *)
Theorem mapping_line_single_separator {O} (d : gmap string string)
    (line : string) (rest : list string) (st : St O) :
  (Str.count "=" line = 1 →
     mapping_lines d (line :: rest) st
     = mapping_lines (<[Str.before "=" line := Str.after "=" line]> d) rest st) ∧
  (Str.count "=" line ≠ 1 →
     ∃ msg, mapping_lines d (line :: rest) st = (Raise (ValueError msg), st)).
Proof.
  split; intros H; simpl.
  - by rewrite (split_one _ _ H).
  - pose proof (split_length "=" line) as Hlen.
    destruct (Str.split "=" line) as [|a [|b [|c l]]]; simpl in Hlen.
    + lia.
    + eexists. reflexivity.
    + lia.
    + eexists. reflexivity.
Qed.

Lemma mapping_line_single_separator_witness :
  mapping_lines (O := unit) ∅ ["key=value"] (mkSt tt [])
  = (Ok {[ "key" := "value" ]}, mkSt tt []) ∧
  ∃ msg, mapping_lines (O := unit) ∅ ["k=a=b"] (mkSt tt [])
         = (Raise (ValueError msg), mkSt tt []).
Proof.
  split.
  - rewrite (proj1 (mapping_line_single_separator ∅ "key=value" [] (mkSt tt [])));
      [reflexivity | reflexivity].
  - apply (proj2 (mapping_line_single_separator ∅ "k=a=b" [] (mkSt tt []))).
    simpl. lia.
Defined.

(** C4 as claimed fails: a value that holds [=] does not parse. *)
Lemma mapping_value_with_separator_raises :
  MappingConfigFile_parse_data Examples.fs_files
    (mkSt (Examples.mapping_file [["m4"]]) [])
  = (Raise (ValueError "too many values to unpack (expected 2)"),
     mkSt (Examples.mapping_file [["m4"]]) [OpRead ["m4"]]) ∧
  ¬ ∃ d st, MappingConfigFile_parse_data Examples.fs_files
              (mkSt (Examples.mapping_file [["m4"]]) []) = (Ok (Some d), st)
            ∧ d !! "k" = Some "a=b".
Proof.
  assert (H : MappingConfigFile_parse_data Examples.fs_files
    (mkSt (Examples.mapping_file [["m4"]]) [])
  = (Raise (ValueError "too many values to unpack (expected 2)"),
     mkSt (Examples.mapping_file [["m4"]]) [OpRead ["m4"]])) by reflexivity.
  split; [exact H|]. intros (d & st & Hd & _). rewrite H in Hd. discriminate.
Qed.

(** A run of the inner loop adds the dictionary of its lines on top of the
    one it started from, whatever that one was. *)
Lemma mapping_lines_union {O} lines (d0 d : gmap string string) (st st' : St O) :
  mapping_lines d0 lines st = (Ok d, st') →
  st' = st ∧
  ∃ dl, d = dl ∪ d0 ∧
    ∀ O' (d1 : gmap string string) (st1 : St O'),
      mapping_lines d1 lines st1 = (Ok (dl ∪ d1), st1).
Proof.
  revert d0. induction lines as [|line rest IH]; intros d0; simpl.
  - unfold mret, M_ret. intros H. simplify_eq. split; [done|].
    exists ∅. split; [by rewrite (left_id_L ∅ (∪))|].
    intros O' d1 st1. by rewrite (left_id_L ∅ (∪)).
  - intros H. apply bind_Ok_inv in H as ([k v] & st1 & Hu & Hrest).
    apply unpack2_Ok in Hu as [Hparts ->].
    apply IH in Hrest as (-> & dl & -> & Hall). split; [done|].
    exists (dl ∪ {[ k := v ]}). split.
    + by rewrite insert_union_singleton_l, (assoc_L (∪)).
    + intros O' d1 st1. simpl. rewrite Hparts.
      unfold mbind, M_bind. simpl.
      rewrite Hall. by rewrite insert_union_singleton_l, (assoc_L (∪)).
Qed.

Lemma mapping_paths_union fs {O} paths (d0 d : gmap string string) (st st' : St O) :
  mapping_paths fs d0 paths st = (Ok d, st') →
  st' = mkSt (self st) (trace st ++ (OpRead <$> paths)) ∧
  ∃ dl, d = dl ∪ d0 ∧
    ∀ O' (d1 : gmap string string) (st1 : St O'),
      mapping_paths fs d1 paths st1
      = (Ok (dl ∪ d1), mkSt (self st1) (trace st1 ++ (OpRead <$> paths))).
Proof.
  revert d0 st. induction paths as [|p rest IH]; intros d0 st; simpl.
  - unfold mret, M_ret. intros H. simplify_eq. rewrite app_nil_r, St_eta.
    split; [done|]. exists ∅. split; [by rewrite (left_id_L ∅ (∪))|].
    intros O' d1 st1. by rewrite (left_id_L ∅ (∪)), app_nil_r, St_eta.
  - intros H. apply bind_Ok_inv in H as (t & st1 & Hread & H).
    apply bind_Ok_inv in H as (dm & st2 & Hlines & H).
    apply read_text_Ok in Hread as [-> Hfile].
    apply mapping_lines_union in Hlines as (-> & dl1 & -> & Hall1).
    apply IH in H as (-> & dl2 & -> & Hall2). simpl. split.
    + by rewrite <- app_assoc.
    + exists (dl2 ∪ dl1). split; [by rewrite (assoc_L (∪))|].
      intros O' d1 st1.
      rewrite (bind_Ok_step _ _ _ _ _ (read_text_file fs p st1 t Hfile)).
      rewrite (bind_Ok_step _ _ _ _ _ (Hall1 _ _ _)).
      rewrite Hall2. simpl. by rewrite <- app_assoc, (assoc_L (∪)).
Qed.

Lemma mapping_paths_app fs {O} ps1 ps2 (d0 : gmap string string) (st : St O) :
  mapping_paths fs d0 (ps1 ++ ps2) st
  = (mapping_paths fs d0 ps1 ≫= λ d, mapping_paths fs d ps2) st.
Proof.
  revert d0 st. induction ps1 as [|p ps1 IH]; intros d0 st; simpl; [done|].
  unfold mbind, M_bind.
  destruct (read_text fs p st) as [[t|e] st1]; [|done].
  destruct (mapping_lines d0 _ st1) as [[d|e] st2]; [|done].
  apply IH.
Qed.

Lemma layer_dict_Ok fs p {O} (d0 d : gmap string string) (st st' : St O) :
  mapping_paths fs d0 [p] st = (Ok d, st') →
  ∃ dl, layer_dict fs p = Ok dl ∧ d = dl ∪ d0.
Proof.
  intros H. apply mapping_paths_union in H as (_ & dl & -> & Hall).
  exists dl. split; [|done]. unfold layer_dict.
  by rewrite Hall, (right_id_L ∅ (∪)).
Qed.

(** Layers that do not define a key leave its value alone. *)
Lemma mapping_paths_keep fs {O} post K (d0 d : gmap string string) (st st' : St O) :
  (∀ p dp, p ∈ post → layer_dict fs p = Ok dp → dp !! K = None) →
  mapping_paths fs d0 post st = (Ok d, st') →
  d !! K = d0 !! K.
Proof.
  revert d0 st. induction post as [|p post IH]; intros d0 st Hpost; simpl.
  - unfold mret, M_ret. by intros [= <- _].
  - intros H. change (p :: post) with ([p] ++ post) in H.
    change (mapping_paths fs d0 ([p] ++ post) st = (Ok d, st')) in H.
    rewrite mapping_paths_app in H.
    apply bind_Ok_inv in H as (dm & st1 & Hp & H).
    apply layer_dict_Ok in Hp as (dl & Hdl & ->).
    erewrite IH; [| |exact H].
    + apply lookup_union_r. eapply Hpost; [|exact Hdl]. by left.
    + intros q dq Hq. apply Hpost. by right.
Qed.

(** C5: in a merge that succeeds, a key has the value of the last layer
    that defines it, whatever the layers before it hold. *)
Theorem mapping_merge_last_wins fs (o : Config (gmap string string))
    (pre post : list Path) (p2 : Path) (K v : string)
    (d d2 : gmap string string) tr st' :
  path_order o = pre ++ p2 :: post →
  MappingConfigFile_parse_data fs (mkSt o tr) = (Ok (Some d), st') →
  layer_dict fs p2 = Ok d2 →
  d2 !! K = Some v →
  (∀ p dp, p ∈ post → layer_dict fs p = Ok dp → dp !! K = None) →
  d !! K = Some v.
Proof.
  intros Hpo H Hd2 HK Hpost.
  unfold MappingConfigFile_parse_data in H.
  apply bind_Ok_inv in H as (o' & st1 & Hget & H).
  unfold get_self in Hget. simplify_eq. simpl in H.
  apply bind_Ok_inv in H as (d' & st2 & H & Hret).
  unfold mret, M_ret in Hret. simplify_eq.
  rewrite Hpo in H. rewrite mapping_paths_app in H.
  apply bind_Ok_inv in H as (dpre & st1 & _ & H).
  change (p2 :: post) with ([p2] ++ post) in H.
  rewrite mapping_paths_app in H.
  apply bind_Ok_inv in H as (dmid & st3 & Hp2 & H).
  apply layer_dict_Ok in Hp2 as (dl & Hdl & ->).
  rewrite Hd2 in Hdl. simplify_eq.
  erewrite mapping_paths_keep; [| exact Hpost | exact H].
  by apply lookup_union_Some_l.
Qed.

Lemma mapping_merge_last_wins_witness :
  ∃ d st', MappingConfigFile_parse_data Examples.fs_files
             (mkSt (Examples.mapping_file [["m1"]; ["m1"]; ["m2"]; ["m3"]]) [])
           = (Ok (Some d), st') ∧ d !! "K" = Some "two".
Proof.
  eexists _, _. split; [reflexivity|].
  eapply (mapping_merge_last_wins Examples.fs_files
           (Examples.mapping_file [["m1"]; ["m1"]; ["m2"]; ["m3"]])
           [["m1"]; ["m1"]] [["m3"]] ["m2"] "K" "two" _ {[ "K" := "two" ]} [] _).
  - reflexivity.
  - reflexivity.
  - reflexivity.
  - reflexivity.
  - intros p dp Hp Hdp. apply list_elem_of_singleton in Hp as ->.
    vm_compute in Hdp. injection Hdp as <-. reflexivity.
Defined.

(** ** Ordered-list files *)

#[local] Arguments String.append : simpl nomatch.

Lemma append_empty_r s : s +:+ EmptyString = s.
Proof. induction s as [|a s IH]; simpl; [done|]. f_equal. exact IH. Qed.

Lemma append_snoc cur a l : (cur +:+ String a EmptyString) +:+ l = cur +:+ String a l.
Proof. induction cur as [|b cur IH]; simpl; [done|]. f_equal. exact IH. Qed.

Lemma no_linebreak_snoc cur a :
  no_linebreak (cur +:+ String a EmptyString)
  = no_linebreak cur && negb (Str.is_linebreak a).
Proof.
  induction cur as [|b cur IH]; simpl.
  - by rewrite andb_true_r.
  - by rewrite IH, andb_assoc.
Qed.

(** Every line that [splitlines] yields is free of line boundaries. *)
Lemma splitlines_from_clean n s cur :
  String.length s ≤ n → no_linebreak cur = true →
  Forall (λ l, no_linebreak l = true) (Str.splitlines_from cur s).
Proof.
  revert s cur. induction n as [|n IH]; intros s cur Hlen Hcur.
  - destruct s; simpl in *; [|lia]. destruct (Str.nonempty cur); auto.
  - destruct s as [|c s']; simpl in *.
    { destruct (Str.nonempty cur); auto. }
    destruct (Str.is_linebreak c) eqn:Hc.
    + destruct s' as [|c' s'']; [auto|]. simpl in Hlen.
      destruct (Str.is_cr c && Str.is_lf c'); constructor; try done;
        apply IH; simpl; try done; lia.
    + apply IH; [lia|]. by rewrite no_linebreak_snoc, Hcur, Hc.
Qed.

Lemma splitlines_clean t : Forall (λ l, no_linebreak l = true) (Str.splitlines t).
Proof. by apply (splitlines_from_clean (String.length t)). Qed.

(** Reading back a line that was written with its newline. *)
Lemma splitlines_from_line cur l rest :
  no_linebreak l = true →
  Str.splitlines_from cur (l +:+ newline +:+ rest)
  = (cur +:+ l) :: Str.splitlines_from EmptyString rest.
Proof.
  revert cur. induction l as [|a l IH]; intros cur Hl; simpl in *.
  - rewrite append_empty_r. by destruct rest.
  - apply andb_prop in Hl as [Ha Hl]. apply negb_true_iff in Ha.
    rewrite Ha, IH by done. by rewrite append_snoc.
Qed.

Lemma splitlines_write_text lines :
  Forall (λ l, no_linebreak l = true) lines →
  Str.splitlines (ListConfigFile_write_text lines) = lines.
Proof.
  unfold Str.splitlines. induction 1 as [|l lines Hl _ IH]; [done|].
  change (ListConfigFile_write_text (l :: lines))
    with (l +:+ newline +:+ ListConfigFile_write_text lines).
  by rewrite splitlines_from_line, IH.
Qed.


Lemma line_generator_files fs {O} paths texts (st : St O) :
  Forall2 (is_file fs) paths texts →
  _line_generator fs paths st
  = (Ok (concat ((λ t, filter (λ l, Str.nonempty l = true) (Str.splitlines t)) <$> texts)),
     mkSt (self st) (trace st ++ (OpRead <$> paths))).
Proof.
  intros H. revert st. induction H as [|p t paths texts Hp _ IH]; intros st; simpl.
  - unfold mret, M_ret. by rewrite app_nil_r, St_eta.
  - rewrite (bind_Ok_step _ _ _ _ _ (read_text_file fs p st t Hp)).
    rewrite (bind_Ok_step _ _ _ _ _ (IH _)). unfold mret, M_ret. simpl.
    by rewrite <- app_assoc.
Qed.

Lemma ListConfigFile_items_eq fs o tr :
  ListConfigFile_items fs (mkSt o tr) = _line_generator fs (path_order o) (mkSt o tr).
Proof. reflexivity. Qed.



(** No deduplication, and blank lines dropped. *)
Example list_merge_keeps_duplicates :
  fst (ListConfigFile_items Examples.fs_files
         (mkSt (Examples.list_file [["l1"]; ["l3"]; ["l1"]]) []))
  = Ok ["a"; "b"; "a"; "c"; "a"; "b"].
Proof. reflexivity. Qed.

(** ** Caching *)

Section Cache.
Context {D : Type} (truthy : D → bool) (parse : M (Config D) (option D)).

Lemma cache_hit (o : Config D) tr d :
  read_cache o = Some d → truthy d = true →
  CacheConfigMixin_config_data truthy parse (mkSt o tr) = (Ok d, mkSt o tr).
Proof.
  intros Hc Ht. unfold CacheConfigMixin_config_data, mbind, M_bind, get_self.
  simpl. by rewrite Hc, Ht.
Qed.

Lemma cache_miss (st : St (Config D)) :
  cache_truthy truthy (read_cache (self st)) = false →
  CacheConfigMixin_config_data truthy parse st = cache_fill parse st.
Proof.
  intros Hc. unfold CacheConfigMixin_config_data, mbind at 1, M_bind at 1, get_self.
  simpl. destruct (read_cache (self st)) as [d|]; simpl in Hc; [|done].
  by rewrite Hc.
Qed.

Lemma cache_fill_Ok (st st1 : St (Config D)) d :
  cache_fill parse st = (Ok d, st1) →
  ∃ st', parse st = (Ok (Some d), st') ∧
         st1 = mkSt (set_read_cache (Some d) (self st')) (trace st').
Proof.
  unfold cache_fill, ConfigABC_config_data. intros H.
  apply bind_Ok_inv in H as (d' & st2 & H & Hput).
  apply bind_Ok_inv in H as (r & st' & Hp & Hr).
  destruct r as [d''|]; [|discriminate].
  unfold mret, M_ret in Hr. simplify_eq.
  unfold mbind, M_bind, get_self, put_self, mret, M_ret in Hput. simpl in Hput.
  simplify_eq. by exists st2.
Qed.

Lemma cache_fill_step (st st' : St (Config D)) d :
  parse st = (Ok (Some d), st') →
  cache_fill parse st
  = (Ok d, mkSt (set_read_cache (Some d) (self st')) (trace st')).
Proof.
  intros Hp. unfold cache_fill, ConfigABC_config_data.
  unfold mbind, M_bind. rewrite Hp. reflexivity.
Qed.

(** An access that returns a value which is not true has run the parser
    and leaves a cache that the next access does not take. *)
Lemma falsy_access (st st1 : St (Config D)) d :
  CacheConfigMixin_config_data truthy parse st = (Ok d, st1) →
  truthy d = false →
  cache_fill parse st = (Ok d, st1) ∧ read_cache (self st1) = Some d.
Proof.
  intros H Hd.
  destruct (cache_truthy truthy (read_cache (self st))) eqn:Hc.
  - destruct st as [o tr]. simpl in Hc.
    destruct (read_cache o) as [d0|] eqn:Ho; [|done]. simpl in Hc.
    rewrite (cache_hit o tr d0 Ho Hc) in H. simplify_eq. congruence.
  - rewrite cache_miss in H by done. split; [done|].
    apply cache_fill_Ok in H as (st' & _ & ->). done.
Qed.
End Cache.

Lemma mapping_parse_Ok fs (o : Config (gmap string string)) tr r st1 :
  MappingConfigFile_parse_data fs (mkSt o tr) = (Ok r, st1) →
  ∃ d, r = Some d ∧ st1 = mkSt o (tr ++ (OpRead <$> path_order o)) ∧
    ∀ o2 tr2, path_order o2 = path_order o →
      MappingConfigFile_parse_data fs (mkSt o2 tr2)
      = (Ok (Some d), mkSt o2 (tr2 ++ (OpRead <$> path_order o))).
Proof.
  unfold MappingConfigFile_parse_data. intros H.
  apply bind_Ok_inv in H as (o' & st' & Hget & H).
  unfold get_self in Hget. simplify_eq. simpl in H.
  apply bind_Ok_inv in H as (d & st2 & H & Hret).
  unfold mret, M_ret in Hret. simplify_eq.
  apply mapping_paths_union in H as (-> & dl & -> & Hall).
  exists (dl ∪ ∅). split; [done|]. split; [done|].
  intros o2 tr2 Hpo. unfold mbind, M_bind, get_self. simpl.
  rewrite Hpo, Hall. done.
Qed.

Lemma ini_read_paths_Ok fs {O} paths i0 i (st st' : St O) :
  ini_read_paths fs i0 paths st = (Ok i, st') →
  st' = mkSt (self st) (trace st ++ (OpRead <$> paths)) ∧
  ∀ O' (st1 : St O'),
    ini_read_paths fs i0 paths st1
    = (Ok i, mkSt (self st1) (trace st1 ++ (OpRead <$> paths))).
Proof.
  revert i0 st. induction paths as [|p rest IH]; intros i0 st; simpl.
  - unfold mret, M_ret. intros H. simplify_eq. rewrite app_nil_r, St_eta.
    split; [done|]. intros O' st1. by rewrite app_nil_r, St_eta.
  - intros H. apply bind_Ok_inv in H as (f & st1 & Hread & H).
    pose proof Hread as Hread'.
    apply read_ini_Ok in Hread as [-> (t & Hfile)].
    apply IH in H as (-> & Hall). simpl. split.
    + by rewrite <- app_assoc.
    + intros O' st1.
      assert (Hr : read_ini fs p st1
                   = (Ok f, mkSt (self st1) (trace st1 ++ [OpRead p]))).
      { unfold read_ini, mbind, M_bind, log, mret, M_ret. simpl. by rewrite Hfile. }
      rewrite (bind_Ok_step _ _ _ _ _ Hr), Hall. simpl.
      by rewrite <- app_assoc.
Qed.

Lemma ini_parse_Ok fs schema (o : Config Ini) tr r st1 :
  IniConfigFile_parse_data fs schema (mkSt o tr) = (Ok r, st1) →
  ∃ i, r = Some i ∧ schema i = true ∧
    st1 = mkSt o (tr ++ (OpRead <$> path_order o)) ∧
    ini_read_paths fs ini_empty (path_order o) (mkSt tt [])
    = (Ok i, mkSt tt (OpRead <$> path_order o)).
Proof.
  unfold IniConfigFile_parse_data. intros H.
  apply bind_Ok_inv in H as (o' & st' & Hget & H).
  unfold get_self in Hget. simplify_eq. simpl in H.
  apply bind_Ok_inv in H as (i & st2 & H & Hret).
  destruct (schema i) eqn:Hs; [|discriminate].
  unfold mret, M_ret in Hret. simplify_eq.
  apply ini_read_paths_Ok in H as (-> & Hall).
  exists i. split; [done|]. split; [done|]. split; [done|]. by rewrite Hall.
Qed.

Lemma ini_truthy_true i : ini_truthy i = true.
Proof.
  unfold ini_truthy. apply negb_true_iff, Nat.eqb_neq. lia.
Qed.

Lemma dict_truthy_true (d : gmap string string) : d ≠ ∅ → dict_truthy d = true.
Proof.
  intros H. unfold dict_truthy. by rewrite bool_decide_eq_false_2.
Qed.

(** Once it has returned, an access to an INI file returns the same table
    from its cache and leaves the state as it is. *)
Lemma ini_config_data_stable fs schema (st st1 : St (Config Ini)) i :
  IniConfigFile_config_data fs schema st = (Ok i, st1) →
  read_cache (self st1) = Some i ∧
  ∀ tr2, IniConfigFile_config_data fs schema (mkSt (self st1) tr2)
         = (Ok i, mkSt (self st1) tr2).
Proof.
  unfold IniConfigFile_config_data. intros H.
  assert (Hc : read_cache (self st1) = Some i).
  { destruct (cache_truthy ini_truthy (read_cache (self st))) eqn:Hc.
    - destruct st as [o tr]. simpl in Hc.
      destruct (read_cache o) as [d0|] eqn:Ho; [|done].
      rewrite (cache_hit _ _ o tr d0 Ho Hc) in H. by simplify_eq.
    - rewrite cache_miss in H by done.
      by apply cache_fill_Ok in H as (st' & _ & ->). }
  split; [done|]. intros tr2.
  apply cache_hit; [done|apply ini_truthy_true].
Qed.

(** C3, as the code has it: the first access to a mapping file or to an
    INI file reads every path of the layered path list in order and stores
    the result; later accesses return the stored result and read nothing
    (for a mapping, when the result is not empty).  [ListConfigFile] has
    no such cache: every iteration over a list file reads every path
    again, in order. *)
Theorem cache_mixin_reads_once fs :
  (∀ (o : Config (gmap string string)) tr d st1,
     read_cache o = None →
     MappingConfigFile_config_data fs (mkSt o tr) = (Ok d, st1) →
     trace st1 = tr ++ (OpRead <$> path_order o) ∧
     path_order (self st1) = path_order o ∧
     read_cache (self st1) = Some d ∧
     (d ≠ ∅ → ∀ tr2, MappingConfigFile_config_data fs (mkSt (self st1) tr2)
                     = (Ok d, mkSt (self st1) tr2))) ∧
  (∀ schema (o : Config Ini) tr i st1,
     read_cache o = None →
     IniConfigFile_config_data fs schema (mkSt o tr) = (Ok i, st1) →
     trace st1 = tr ++ (OpRead <$> path_order o) ∧
     path_order (self st1) = path_order o ∧
     read_cache (self st1) = Some i ∧
     ∀ tr2, IniConfigFile_config_data fs schema (mkSt (self st1) tr2)
            = (Ok i, mkSt (self st1) tr2)) ∧
  (∀ (o : Config Empty_set) tr ls st1,
     ListConfigFile_items fs (mkSt o tr) = (Ok ls, st1) →
     st1 = mkSt o (tr ++ (OpRead <$> path_order o)) ∧
     ∀ tr2, ListConfigFile_items fs (mkSt o tr2)
            = (Ok ls, mkSt o (tr2 ++ (OpRead <$> path_order o)))).
Proof.
  split; [|split].
  - intros o tr d st1 Hnone H. unfold MappingConfigFile_config_data in *.
    rewrite cache_miss in H by (simpl; by rewrite Hnone).
    apply cache_fill_Ok in H as (st' & Hp & ->).
    apply mapping_parse_Ok in Hp as (d' & Hd' & -> & _). simplify_eq. simpl.
    repeat split; try done.
    intros Hne tr2. apply cache_hit; [done|by apply dict_truthy_true].
  - intros schema o tr i st1 Hnone H.
    pose proof (ini_config_data_stable _ _ _ _ _ H) as [Hc Hstable].
    unfold IniConfigFile_config_data in H.
    rewrite cache_miss in H by (simpl; by rewrite Hnone).
    apply cache_fill_Ok in H as (st' & Hp & ->).
    apply ini_parse_Ok in Hp as (i' & Hi' & _ & -> & _). simplify_eq. simpl.
    repeat split; try done.
  - intros o tr ls st1 H. rewrite ListConfigFile_items_eq in H.
    assert (Hall : ∀ tr2, _line_generator fs (path_order o) (mkSt o tr2)
                          = (Ok ls, mkSt o (tr2 ++ (OpRead <$> path_order o)))).
    { revert ls tr st1 H.
      generalize (path_order o) as paths.
      induction paths as [|p rest IH]; intros ls tr st1 H tr2; simpl in *.
      - unfold mret, M_ret in *. simplify_eq. by rewrite app_nil_r.
      - apply bind_Ok_inv in H as (t & st2 & Hread & H).
        apply read_text_Ok in Hread as [-> Hfile].
        apply bind_Ok_inv in H as (more & st3 & H & Hret).
        unfold mret, M_ret in Hret. simplify_eq.
        rewrite (bind_Ok_step _ _ _ _ _ (read_text_file fs p _ t Hfile)).
        simpl in *.
        rewrite (bind_Ok_step _ _ _ _ _ (IH _ _ _ H _)).
        unfold mret, M_ret. by rewrite <- app_assoc. }
    split.
    + rewrite Hall in H. by simplify_eq.
    + intros tr2. rewrite ListConfigFile_items_eq. apply Hall.
Qed.

Lemma cache_mixin_reads_once_witness :
  let fs := Examples.fs_files in
  (let o := Examples.mapping_file [["m1"]; ["m2"]] in
   let d : gmap string string := {[ "K" := "two"; "J" := "x" ]} in
   let o1 := set_read_cache (Some d) o in
   MappingConfigFile_config_data fs (mkSt o [])
     = (Ok d, mkSt o1 [OpRead ["m1"]; OpRead ["m2"]]) ∧
   ∀ tr2, MappingConfigFile_config_data fs (mkSt o1 tr2) = (Ok d, mkSt o1 tr2)) ∧
  (let o := Examples.version_file in
   let i := Examples.version_ini None in
   let o1 := set_read_cache (Some i) o in
   IniConfigFile_config_data (Examples.fs_version None) VersionIni_schema (mkSt o [])
     = (Ok i, mkSt o1 [OpRead ["version.ini"]]) ∧
   ∀ tr2, IniConfigFile_config_data (Examples.fs_version None) VersionIni_schema
            (mkSt o1 tr2) = (Ok i, mkSt o1 tr2)) ∧
  (let o := Examples.list_file [["l1"]; ["l2"]] in
   ∀ tr2, ListConfigFile_items fs (mkSt o tr2)
          = (Ok ["a"; "b"; "c"], mkSt o (tr2 ++ [OpRead ["l1"]; OpRead ["l2"]]))).
Proof.
  intros fs. split; [|split].
  - intros o d o1.
    assert (H : MappingConfigFile_config_data fs (mkSt o [])
                = (Ok d, mkSt o1 [OpRead ["m1"]; OpRead ["m2"]])) by reflexivity.
    split; [exact H|].
    destruct (proj1 (cache_mixin_reads_once fs) o [] d _ eq_refl H)
      as (_ & _ & _ & Hagain).
    apply Hagain. intros He. apply (f_equal (lookup "K")) in He.
    vm_compute in He. discriminate.
  - intros o i o1.
    assert (H : IniConfigFile_config_data (Examples.fs_version None) VersionIni_schema
                  (mkSt o []) = (Ok i, mkSt o1 [OpRead ["version.ini"]]))
      by reflexivity.
    split; [exact H|].
    destruct (proj1 (proj2 (cache_mixin_reads_once (Examples.fs_version None)))
                VersionIni_schema o [] i _ eq_refl H) as (_ & _ & _ & Hagain).
    exact Hagain.
  - intros o.
    destruct (proj2 (proj2 (cache_mixin_reads_once fs)) o [] ["a"; "b"; "c"] _ eq_refl)
      as [_ Hagain].
    exact Hagain.
Defined.

(** C3 as claimed fails on an ordered-list file: the second iteration
    reads the layer files again, and there is no cache to return. *)
Lemma list_file_reads_again :
  let o := Examples.list_file [["l1"]; ["l2"]] in
  let st1 := snd (ListConfigFile_items Examples.fs_files (mkSt o [])) in
  let st2 := snd (ListConfigFile_items Examples.fs_files st1) in
  trace st1 = [OpRead ["l1"]; OpRead ["l2"]] ∧
  trace st2 = [OpRead ["l1"]; OpRead ["l2"]; OpRead ["l1"]; OpRead ["l2"]] ∧
  read_cache (self st1) = None ∧
  trace st2 ≠ trace st1.
Proof. repeat split; try reflexivity. discriminate. Qed.

(** C10, as the code has it: when an access returns a value that is not
    true, an empty dictionary for instance, that value is stored in the
    cache, but the test of the next access does not accept it, and that
    access runs the whole parse again, every layer path read once more. *)
Theorem falsy_result_parsed_again :
  (∀ D (truthy : D → bool) (parse : M (Config D) (option D))
     (st st1 : St (Config D)) (d : D),
     CacheConfigMixin_config_data truthy parse st = (Ok d, st1) →
     truthy d = false →
     read_cache (self st1) = Some d ∧
     cache_truthy truthy (read_cache (self st1)) = false ∧
     CacheConfigMixin_config_data truthy parse st1 = cache_fill parse st1) ∧
  (∀ fs (o : Config (gmap string string)) tr st1,
     MappingConfigFile_config_data fs (mkSt o tr) = (Ok ∅, st1) →
     trace st1 = tr ++ (OpRead <$> path_order o) ∧
     read_cache (self st1) = Some ∅ ∧
     ∀ tr2, MappingConfigFile_config_data fs (mkSt (self st1) tr2)
            = (Ok ∅, mkSt (self st1) (tr2 ++ (OpRead <$> path_order o)))).
Proof.
  split.
  - intros D truthy parse st st1 d H Hd.
    apply falsy_access in H as [_ Hc]; [|done].
    assert (Hf : cache_truthy truthy (read_cache (self st1)) = false)
      by (by rewrite Hc).
    split; [done|]. split; [done|]. by apply cache_miss.
  - intros fs o tr st1 H. unfold MappingConfigFile_config_data in *.
    apply falsy_access in H as [H Hc]; [|done].
    apply cache_fill_Ok in H as (st' & Hp & ->).
    apply mapping_parse_Ok in Hp as (d' & Hd' & -> & Hagain). simplify_eq.
    simpl. split; [done|]. split; [done|]. intros tr2.
    rewrite cache_miss by done.
    erewrite cache_fill_step; [|by apply Hagain]. done.
Qed.

Lemma falsy_result_parsed_again_witness :
  let o := Examples.mapping_file [["m5"]] in
  let o1 := set_read_cache (Some ∅) o in
  MappingConfigFile_config_data Examples.fs_files (mkSt o [])
    = (Ok ∅, mkSt o1 [OpRead ["m5"]]) ∧
  (read_cache o1 = Some ∅ ∧
   cache_truthy dict_truthy (read_cache o1) = false ∧
   CacheConfigMixin_config_data dict_truthy
     (MappingConfigFile_parse_data Examples.fs_files) (mkSt o1 [OpRead ["m5"]])
   = cache_fill (MappingConfigFile_parse_data Examples.fs_files)
       (mkSt o1 [OpRead ["m5"]])) ∧
  (trace (mkSt o1 [OpRead ["m5"]]) = [] ++ (OpRead <$> path_order o) ∧
   read_cache (self (mkSt o1 [OpRead ["m5"]])) = Some ∅ ∧
   ∀ tr2, MappingConfigFile_config_data Examples.fs_files
            (mkSt (self (mkSt o1 [OpRead ["m5"]])) tr2)
          = (Ok ∅, mkSt (self (mkSt o1 [OpRead ["m5"]]))
                     (tr2 ++ (OpRead <$> path_order o)))).
Proof.
  intros o o1.
  assert (H : MappingConfigFile_config_data Examples.fs_files (mkSt o [])
              = (Ok ∅, mkSt o1 [OpRead ["m5"]])) by reflexivity.
  split; [exact H|]. split.
  - apply (proj1 falsy_result_parsed_again _ dict_truthy
             (MappingConfigFile_parse_data Examples.fs_files) (mkSt o []) _ ∅ H).
    reflexivity.
  - apply (proj2 falsy_result_parsed_again Examples.fs_files o [] _ H).
Defined.

(** C10 as claimed fails: after an access to a mapping file without
    entries the cache is populated, with the empty dictionary. *)
Lemma falsy_result_is_stored :
  let o := Examples.mapping_file [["m5"]] in
  let run := MappingConfigFile_config_data Examples.fs_files (mkSt o []) in
  read_cache o = None ∧
  fst run = Ok ∅ ∧
  read_cache (self (snd run)) = Some ∅ ∧
  read_cache (self (snd run)) ≠ None.
Proof. repeat split; try reflexivity. discriminate. Qed.

(** ** The version string *)

Lemma has_key_Some (d : gmap string string) k :
  has_key d k = true → ∃ v, d !! k = Some v.
Proof. unfold has_key. destruct (d !! k); [eauto|done]. Qed.

Lemma section_schema_nonempty required optional alternatives
    (d : gmap string string) k v :
  section_schema required optional alternatives d = true →
  d !! k = Some v → Str.nonempty v = true.
Proof.
  unfold section_schema. intros H Hk.
  apply andb_prop in H as [_ H]. apply bool_decide_eq_true in H.
  by destruct (H k v Hk).
Qed.

(** *** Sections read through their proxy *)

Lemma section_view_lookup (sec d : gmap string string) k :
  section_view sec = Some d → d !! k = sec !! k ≫= interpolate sec.
Proof.
  unfold section_view. case_bool_decide; [|done].
  intros [= <-]. apply lookup_omap.
Qed.

Lemma section_view_on_lookup keys (sec d : gmap string string) k :
  section_view_on keys sec = Some d → k ∈ keys →
  d !! k = sec !! k ≫= interpolate sec.
Proof.
  unfold section_view_on. case_bool_decide; [|done].
  intros [= <-] Hk. rewrite lookup_omap.
  destruct (sec !! k) as [v|] eqn:Hv.
  - by rewrite (map_lookup_filter_Some_2 _ _ k v Hv Hk).
  - by rewrite map_lookup_filter_None_2 by (by left).
Qed.

(** What a section that passed validation is read as is the [dict] that
    was validated. *)
Lemma dict_cast_view check (sec : gmap string string) :
  dict_cast check sec = true →
  ∃ d, section_view sec = Some d ∧ check d = true.
Proof.
  unfold dict_cast. destruct (section_view sec) as [d|]; [|done]. eauto.
Qed.

Lemma section_view_on_view keys (sec d : gmap string string) :
  section_view sec = Some d → is_Some (section_view_on keys sec).
Proof.
  unfold section_view, section_view_on. case_bool_decide as Hall; [|done].
  intros _. rewrite bool_decide_eq_true_2; [done|].
  intros k v [Hv _]%map_lookup_filter_Some. by apply (Hall k v).
Qed.

Lemma section_getitem_view {O} (sec d : gmap string string) key v (st : St O) :
  section_view sec = Some d → d !! Str.lower key = Some v →
  section_getitem sec key st = (Ok v, st).
Proof.
  intros Hd Hv. rewrite (section_view_lookup _ _ _ Hd) in Hv.
  unfold section_getitem. destruct (sec !! Str.lower key) as [w|]; [|done].
  simpl in Hv. by rewrite Hv.
Qed.

Lemma section_get_view {O} (sec d : gmap string string) key (st : St O) :
  section_view sec = Some d →
  section_get sec key st = (Ok (d !! Str.lower key), st).
Proof.
  intros Hd. rewrite (section_view_lookup _ _ _ Hd).
  unfold section_get. destruct (sec !! Str.lower key) as [w|] eqn:Hw; [|done].
  simpl. unfold section_view in Hd. case_bool_decide as Hall; [|done].
  destruct (Hall _ _ Hw) as [w' Hw']. by rewrite Hw'.
Qed.

Lemma VersionIni_schema_fields i :
  VersionIni_schema i = true →
  ∃ sec d cv rr,
    ini_getitem i "version" = Some sec ∧
    section_view sec = Some d ∧
    d !! "chromium_version" = Some cv ∧
    d !! "release_revision" = Some rr ∧
    ∀ e, d !! "release_extra" = Some e → Str.nonempty e = true.
Proof.
  unfold VersionIni_schema. intros H. apply andb_prop in H as [_ H].
  destruct (ini_getitem i "version") as [sec|]; [|done].
  apply dict_cast_view in H as (d & Hd & H).
  pose proof (λ e, section_schema_nonempty _ _ _ d "release_extra" e H) as Hne.
  unfold section_schema in H.
  apply andb_prop in H as [H _]. apply andb_prop in H as [H _]. simpl in H.
  apply andb_prop in H as [Hcv H]. apply andb_prop in H as [Hrr _].
  apply has_key_Some in Hcv as [cv Hcv]. apply has_key_Some in Hrr as [rr Hrr].
  by exists sec, d, cv, rr.
Qed.

Lemma IniConfigFile_getitem_step fs schema key (st st1 : St (Config Ini)) i sec :
  IniConfigFile_config_data fs schema st = (Ok i, st1) →
  ini_getitem i key = Some sec →
  IniConfigFile_getitem fs schema key st = (Ok sec, st1).
Proof.
  intros H Hsec. unfold IniConfigFile_getitem.
  rewrite (bind_Ok_step _ _ _ _ _ H). by rewrite Hsec.
Qed.

(** C9: for a [version.ini] that passes its schema, the properties
    [chromium_version] and [release_revision] return the values of these
    options as the section proxy presents them, and the version string is
    the Chromium version, a hyphen and the release revision, followed by a
    tilde and the release extra when the [version] section defines one. *)
Theorem version_string_format fs (o : Config Ini) tr i st1 :
  read_cache o = None →
  IniConfigFile_config_data fs VersionIni_schema (mkSt o tr) = (Ok i, st1) →
  ∃ sec d cv rr,
    ini_getitem i "version" = Some sec ∧
    section_view sec = Some d ∧
    VersionIni_chromium_version fs (mkSt o tr) = (Ok cv, st1) ∧
    VersionIni_release_revision fs (mkSt o tr) = (Ok rr, st1) ∧
    VersionIni_release_extra fs (mkSt o tr) = (Ok (d !! "release_extra"), st1) ∧
    d !! "chromium_version" = Some cv ∧
    d !! "release_revision" = Some rr ∧
    VersionIni_version_string fs (mkSt o tr)
    = (Ok (match d !! "release_extra" with
           | Some e => (cv +:+ "-" +:+ rr) +:+ "~" +:+ e
           | None => cv +:+ "-" +:+ rr
           end), st1).
Proof.
  intros Hnone H.
  pose proof (ini_config_data_stable _ _ _ _ _ H) as [_ Hstable].
  specialize (Hstable (trace st1)). rewrite St_eta in Hstable.
  assert (Hschema : VersionIni_schema i = true).
  { unfold IniConfigFile_config_data in H.
    rewrite cache_miss in H by (simpl; by rewrite Hnone).
    apply cache_fill_Ok in H as (st' & Hp & _).
    by apply ini_parse_Ok in Hp as (i' & [= <-] & Hs & _). }
  destruct (VersionIni_schema_fields i Hschema)
    as (sec & d & cv & rr & Hsec & Hd & Hcv & Hrr & Hne).
  exists sec, d, cv, rr. split; [done|]. split; [done|].
  pose proof (IniConfigFile_getitem_step _ _ "version" _ _ _ _ H Hsec) as Hfirst.
  pose proof (IniConfigFile_getitem_step _ _ "version" _ _ _ _ Hstable Hsec) as Hnext.
  assert (Hgcv : ∀ st : St (Config Ini),
            section_getitem sec "chromium_version" st = (Ok cv, st))
    by (intros st; by apply (section_getitem_view sec d)).
  assert (Hgrr : ∀ st : St (Config Ini),
            section_getitem sec "release_revision" st = (Ok rr, st))
    by (intros st; by apply (section_getitem_view sec d)).
  assert (Hgex : ∀ st : St (Config Ini),
            section_get sec "release_extra" st = (Ok (d !! "release_extra"), st))
    by (intros st; by rewrite (section_get_view sec d)).
  assert (Hacv : ∀ st, IniConfigFile_getitem fs VersionIni_schema "version" st
                       = (Ok sec, st1) →
                       VersionIni_chromium_version fs st = (Ok cv, st1)).
  { intros st Hst. unfold VersionIni_chromium_version.
    by rewrite (bind_Ok_step _ _ _ _ _ Hst). }
  assert (Harr : ∀ st, IniConfigFile_getitem fs VersionIni_schema "version" st
                       = (Ok sec, st1) →
                       VersionIni_release_revision fs st = (Ok rr, st1)).
  { intros st Hst. unfold VersionIni_release_revision.
    by rewrite (bind_Ok_step _ _ _ _ _ Hst). }
  assert (Haex : ∀ st, IniConfigFile_getitem fs VersionIni_schema "version" st
                       = (Ok sec, st1) →
                       VersionIni_release_extra fs st
                       = (Ok (d !! "release_extra"), st1)).
  { intros st Hst. unfold VersionIni_release_extra.
    by rewrite (bind_Ok_step _ _ _ _ _ Hst). }
  split; [by apply Hacv|]. split; [by apply Harr|]. split; [by apply Haex|].
  split; [done|]. split; [done|].
  unfold VersionIni_version_string.
  rewrite (bind_Ok_step _ _ _ _ _ (Hacv _ Hfirst)).
  rewrite (bind_Ok_step _ _ _ _ _ (Harr _ Hnext)).
  rewrite (bind_Ok_step _ _ _ _ _ (Haex _ Hnext)).
  destruct (d !! "release_extra") as [e|] eqn:He; simpl.
  - rewrite (Hne e eq_refl).
    by rewrite (bind_Ok_step _ _ _ _ _ (Haex _ Hnext)).
  - done.
Qed.

Lemma version_string_format_witness :
  let fs := Examples.fs_version (Some "extra") in
  let i := Examples.version_ini (Some "extra") in
  let o := Examples.version_file in
  let st1 := mkSt (set_read_cache (Some i) o) [OpRead ["version.ini"]] in
  ∃ sec d cv rr,
    ini_getitem i "version" = Some sec ∧
    section_view sec = Some d ∧
    VersionIni_chromium_version fs (mkSt o []) = (Ok cv, st1) ∧
    VersionIni_release_revision fs (mkSt o []) = (Ok rr, st1) ∧
    VersionIni_release_extra fs (mkSt o []) = (Ok (d !! "release_extra"), st1) ∧
    d !! "chromium_version" = Some cv ∧
    d !! "release_revision" = Some rr ∧
    VersionIni_version_string fs (mkSt o [])
    = (Ok (match d !! "release_extra" with
           | Some e => (cv +:+ "-" +:+ rr) +:+ "~" +:+ e
           | None => cv +:+ "-" +:+ rr
           end), st1).
Proof.
  intros fs i o st1.
  apply (version_string_format fs o [] i st1).
  - reflexivity.
  - vm_compute. reflexivity.
Defined.

(** The two version strings of the specification. *)
Example version_string_plain :
  fst (VersionIni_version_string (Examples.fs_version None)
         (mkSt Examples.version_file [])) = Ok "90.0-1".
Proof. vm_compute. reflexivity. Qed.

Example version_string_extra :
  fst (VersionIni_version_string (Examples.fs_version (Some "extra"))
         (mkSt Examples.version_file [])) = Ok "90.0-1~extra".
Proof. vm_compute. reflexivity. Qed.

(** The fields are read interpolated: a release revision written as a
    reference to the Chromium version gives that version twice, and a
    percent sign on its own fails the validation. *)
Example version_string_interpolated :
  fst (VersionIni_version_string Examples.fs_version_ref
         (mkSt Examples.version_file [])) = Ok "90.0-90.0" ∧
  fst (VersionIni_version_string Examples.fs_version_percent
         (mkSt Examples.version_file [])) = Raise SchemaError.
Proof. split; vm_compute; reflexivity. Qed.

(** ** Extra-deps sections *)

(** A section whose only checksum is [sha256] has that one entry in
    [hashes]. *)
Lemma hashes_only_sha256 (sec : gmap string string) v :
  sec !! "md5" = None → sec !! "sha1" = None → sec !! "sha512" = None →
  sec !! "sha256" = Some v → Str.nonempty v = true →
  ExtraDepsSection_getattr sec _passthrough_properties _hashes "hashes"
  = AttrDict {[ "sha256" := v ]}.
Proof.
  intros H1 H2 H3 H4 Hv. unfold ExtraDepsSection_getattr.
  rewrite bool_decide_eq_false_2 by compute_done.
  simpl. rewrite H1, H2, H3, H4, Hv. done.
Qed.

(** A name in [_required_keys] is passed through to the section. *)
Lemma required_key_exposed (sec : gmap string string) name :
  name ∈ _required_keys →
  ExtraDepsSection_getattr sec _passthrough_properties _hashes name
  = match sec !! name with Some v => AttrStr v | None => AttrNone end.
Proof.
  intros H. unfold ExtraDepsSection_getattr.
  rewrite bool_decide_eq_true_2; [done|].
  unfold _passthrough_properties. apply elem_of_app. by left.
Qed.

(** C8, where the code departs from it: [strip_leading_dirs] is not among
    the names passed through, so the accessor gives [None] for it also
    when the section defines it, and the schema built from the same
    constant refuses a section that defines it.  The checksum mapping of a
    section with only [sha256] has that one entry. *)
Theorem strip_leading_dirs_not_exposed :
  (∀ sec : gmap string string,
     ExtraDepsSection_getattr sec _passthrough_properties _hashes
       "strip_leading_dirs" = AttrNone) ∧
  Examples.deps_section !! "strip_leading_dirs" = Some "d-1.0" ∧
  ExtraDepsSection_getattr Examples.deps_section _passthrough_properties _hashes
    "strip_leading_dirs" = AttrNone ∧
  ExtraDepsSection_getattr Examples.deps_section _passthrough_properties _hashes
    "hashes" = AttrDict {[ "sha256" := "abc" ]} ∧
  fst (ExtraDepsIni_getitem_attr Examples.fs_extra_deps "dep" "strip_leading_dirs"
         (mkSt Examples.extra_deps_file [])) = Raise SchemaError.
Proof.
  assert (H : ∀ sec : gmap string string,
     ExtraDepsSection_getattr sec _passthrough_properties _hashes
       "strip_leading_dirs" = AttrNone).
  { intros sec. unfold ExtraDepsSection_getattr.
    rewrite bool_decide_eq_false_2 by compute_done. reflexivity. }
  split; [exact H|]. split; [reflexivity|]. split; [apply H|].
  split; [by apply hashes_only_sha256|]. reflexivity.
Qed.

(** ** Linearizations of the dependency graph *)

Section LinearizationFacts.
Context (deps : string → list string).

Lemma discover_app seen a b :
  discover seen (a ++ b)
  = discover seen a ++ discover (seen ++ discover seen a) b.
Proof.
  revert seen. induction a as [|c cs IH]; intros seen; simpl.
  - by rewrite app_nil_r.
  - case_bool_decide.
    + apply IH.
    + rewrite IH. simpl. by rewrite <- (assoc_L (++) seen [c]).
Qed.

Lemma discover_elem seen cands n :
  n ∈ discover seen cands → n ∈ cands ∧ n ∉ seen.
Proof.
  revert seen. induction cands as [|c cs IH]; intros seen; simpl.
  - by intros ?%elem_of_nil.
  - case_bool_decide as Hc.
    + intros [? ?]%IH. split; [by right|done].
    + intros [->|Hn]%elem_of_cons.
      * split; [by left|done].
      * apply IH in Hn as [? Hn]. split; [by right|].
        intros ?. apply Hn, elem_of_app. by left.
Qed.

Lemma discover_NoDup seen cands : NoDup (discover seen cands).
Proof.
  revert seen. induction cands as [|c cs IH]; intros seen; simpl.
  - constructor.
  - case_bool_decide; [apply IH|]. constructor; [|apply IH].
    intros [_ Hn]%discover_elem. apply Hn, elem_of_app. right. by left.
Qed.

(** A whole level leaves the queue, what it declares enters behind. *)
Lemma queue_traversal_level lvl acc seen f :
  queue_traversal deps (length lvl + f) (lvl ++ acc) seen
  = queue_traversal deps f (acc ++ discover seen (lvl ≫= deps))
      (seen ++ discover seen (lvl ≫= deps)).
Proof.
  revert acc seen. induction lvl as [|x l IH]; intros acc seen.
  - simpl. by rewrite !app_nil_r.
  - change (queue_traversal deps (length (x :: l) + f) ((x :: l) ++ acc) seen)
      with (queue_traversal deps (length l + f)
              ((l ++ acc) ++ discover seen (deps x))
              (seen ++ discover seen (deps x))).
    rewrite <- (assoc_L (++) l), IH.
    change ((x :: l) ≫= deps) with (deps x ++ l ≫= deps).
    rewrite discover_app. by rewrite !(assoc_L (++)).
Qed.

Lemma queue_traversal_fuel F queue seen r :
  queue_traversal deps F queue seen = Some r → length queue ≤ F.
Proof.
  revert queue seen. induction F as [|F IH]; intros [|x q] seen H; simpl in *;
    try done; try lia.
  apply IH in H. rewrite length_app in H. lia.
Qed.

(** The queue produces the level-by-level order. *)
Lemma queue_traversal_bfs F lvl seen r :
  queue_traversal deps F lvl seen = Some r →
  ∀ Fl, F ≤ Fl → seen ++ bfs_levels deps Fl seen lvl = r.
Proof.
  revert lvl seen r. induction F as [F IH] using lt_wf_ind.
  intros lvl seen r H Fl HFl.
  destruct lvl as [|x l].
  { destruct F, Fl; simpl in *; simplify_eq; by rewrite app_nil_r. }
  pose proof (queue_traversal_fuel _ _ _ _ H) as Hlen.
  set (lvl := x :: l) in *.
  assert (Hlvl : 1 ≤ length lvl) by (simpl; lia).
  assert (H' : queue_traversal deps (length lvl + (F - length lvl)) (lvl ++ []) seen
               = Some r).
  { rewrite app_nil_r. by replace (length lvl + (F - length lvl)) with F by lia. }
  clear H. rename H' into H.
  rewrite queue_traversal_level in H. simpl in H.
  destruct Fl as [|Fl']; [lia|].
  change (bfs_levels deps (S Fl') seen lvl)
    with (discover seen (lvl ≫= deps)
          ++ bfs_levels deps Fl' (seen ++ discover seen (lvl ≫= deps))
               (discover seen (lvl ≫= deps))).
  rewrite (assoc_L (++)).
  eapply (IH (F - length lvl)); [lia|exact H|lia].
Qed.
End LinearizationFacts.

(** ** The filesystem tree *)

Lemma fs_lookup_app root p q :
  fs_lookup root (p ++ q) = fs_lookup root p ≫= λ nd, fs_lookup nd q.
Proof.
  revert root. induction p as [|c p IH]; intros root; simpl; [done|].
  destruct root as [es|]; [|done]. destruct (assoc c es); [apply IH|done].
Qed.

Lemma assoc_Some_elem {A} k (l : list (string * A)) a :
  assoc k l = Some a → k ∈ l.*1.
Proof.
  induction l as [|[k' a'] l IH]; simpl; [done|].
  destruct (String.eqb k' k) eqn:Hk.
  - apply String.eqb_eq in Hk as ->. intros _. by left.
  - intros H. right. by apply IH.
Qed.

Lemma path_div_inj p n1 n2 : p // n1 = p // n2 → n1 = n2.
Proof. unfold path_div. intros H. by apply app_inv_head in H as [= ->]. Qed.

(** ** Exceptions raised and receivers kept *)

Section Closure.
Context {O : Type} (P : Exn → Prop).

Lemma raises_only_ret {A} (a : A) : raises_only (O := O) P (mret a).
Proof. intros st e st' H. discriminate. Qed.

Lemma raises_only_raise {A} e : P e → raises_only (O := O) (A := A) P (raise e).
Proof. intros HP st e' st' H. unfold raise in H. by simplify_eq. Qed.

Lemma raises_only_bind {A B} (m : M O A) (f : A → M O B) :
  raises_only P m → (∀ a, raises_only P (f a)) → raises_only P (m ≫= f).
Proof.
  intros Hm Hf st e st' H. apply bind_Raise_inv in H as [H|(a & st1 & _ & H)].
  - by eapply Hm.
  - by eapply Hf.
Qed.

Lemma raises_only_log op : raises_only (O := O) P (log op).
Proof. intros st e st' H. discriminate. Qed.

Lemma raises_only_get_self : raises_only (O := O) P get_self.
Proof. intros st e st' H. discriminate. Qed.

Lemma raises_only_put_self o : raises_only (O := O) P (put_self o).
Proof. intros st e st' H. discriminate. Qed.

Lemma raises_only_call {O' A} (o : O') (m : M O' A) :
  raises_only P m → raises_only (O := O) P (call o m).
Proof.
  intros Hm st e st' H. unfold call, call_obj, mbind, M_bind in H.
  destruct (m (mkSt o (trace st))) as [[a|e0] st1] eqn:Hrun; simpl in H.
  - discriminate.
  - unfold raise in H. simplify_eq. by eapply Hm.
Qed.

Lemma keeps_self_ret {A} (a : A) : keeps_self (O := O) (mret a).
Proof. intros st r st' H. unfold mret, M_ret in H. by simplify_eq. Qed.

Lemma keeps_self_raise {A} e : keeps_self (O := O) (A := A) (raise e).
Proof. intros st r st' H. unfold raise in H. by simplify_eq. Qed.

Lemma keeps_self_bind {A B} (m : M O A) (f : A → M O B) :
  keeps_self m → (∀ a, keeps_self (f a)) → keeps_self (m ≫= f).
Proof.
  intros Hm Hf st r st' H. unfold mbind, M_bind in H.
  destruct (m st) as [[a|e] st1] eqn:Hrun.
  - rewrite (Hf _ _ _ _ H). by eapply Hm.
  - simplify_eq. by eapply Hm.
Qed.

Lemma keeps_self_log op : keeps_self (O := O) (log op).
Proof. intros st r st' H. unfold log in H. by simplify_eq. Qed.

Lemma keeps_self_get_self : keeps_self (O := O) get_self.
Proof. intros st r st' H. unfold get_self in H. by simplify_eq. Qed.

Lemma keeps_self_call_obj {O' A} (o : O') (m : M O' A) :
  keeps_self (O := O) (call_obj o m).
Proof.
  intros st r st' H. unfold call_obj in H.
  destruct (m (mkSt o (trace st))) as [r0 st1]. by simplify_eq.
Qed.

Lemma keeps_self_call {O' A} (o : O') (m : M O' A) :
  keeps_self (O := O) (call o m).
Proof.
  unfold call. apply keeps_self_bind; [apply keeps_self_call_obj|].
  intros [[a|e] o']; [apply keeps_self_ret|apply keeps_self_raise].
Qed.
End Closure.

Lemma ordinary_missing_error fs p : ordinary (missing_error fs p).
Proof.
  unfold missing_error. destruct (below_file fs p);
    (split; [discriminate | intros ? ?; simplify_eq]).
Qed.

Ltac solve_ordinary :=
  first [ apply ordinary_missing_error
        | split; [discriminate | intros ? ?; simplify_eq] ].

Lemma ordinary_unknown_files s : ordinary (ValueError ("Unknown files in config bundle: " +:+ s)).
Proof. split; [discriminate|]. intros n H. unfold duplicate_msg in H. simpl in H. discriminate. Qed.

Section PrimitiveFacts.
Context (fs : Node) {O : Type}.

Lemma raises_only_path_exists p : raises_only (O := O) ordinary (path_exists fs p).
Proof.
  unfold path_exists. apply raises_only_bind; [apply raises_only_log|].
  intros _. apply raises_only_ret.
Qed.

Lemma keeps_self_path_exists p : keeps_self (O := O) (path_exists fs p).
Proof.
  unfold path_exists. apply keeps_self_bind; [apply keeps_self_log|].
  intros _. apply keeps_self_ret.
Qed.

Lemma raises_only_path_is_dir p : raises_only (O := O) ordinary (path_is_dir fs p).
Proof.
  unfold path_is_dir. apply raises_only_bind; [apply raises_only_log|].
  intros _. apply raises_only_ret.
Qed.

Lemma raises_only_read_ini p : raises_only (O := O) ordinary (read_ini fs p).
Proof.
  unfold read_ini. apply raises_only_bind; [apply raises_only_log|].
  intros _. destruct (fs_lookup fs p) as [[?|? [?|]]|];
    first [apply raises_only_ret | apply raises_only_raise; solve_ordinary].
Qed.

Lemma raises_only_iterdir p : raises_only (O := O) ordinary (iterdir fs p).
Proof.
  unfold iterdir. apply raises_only_bind; [apply raises_only_log|].
  intros _. destruct (fs_lookup fs p) as [[?|? ?]|];
    first [apply raises_only_ret | apply raises_only_raise; solve_ordinary].
Qed.

Lemma keeps_self_iterdir p : keeps_self (O := O) (iterdir fs p).
Proof.
  unfold iterdir. apply keeps_self_bind; [apply keeps_self_log|].
  intros _. destruct (fs_lookup fs p) as [[?|? ?]|];
    first [apply keeps_self_ret | apply keeps_self_raise].
Qed.

Lemma raises_only_Config_init {D} p nm :
  raises_only (O := O) ordinary (Config_init (D := D) fs p nm).
Proof.
  unfold Config_init. apply raises_only_bind; [apply raises_only_path_exists|].
  intros e. destruct (negb e);
    first [apply raises_only_ret | apply raises_only_raise; solve_ordinary].
Qed.

Lemma keeps_self_Config_init {D} p nm :
  keeps_self (O := O) (Config_init (D := D) fs p nm).
Proof.
  unfold Config_init. apply keeps_self_bind; [apply keeps_self_path_exists|].
  intros e. destruct (negb e);
    first [apply keeps_self_ret | apply keeps_self_raise].
Qed.

Lemma Config_init_Ok {D} p nm (st st' : St O) (c : Config D) :
  Config_init fs p nm st = (Ok c, st') →
  is_Some (fs_lookup fs p) ∧ path_order c = [p] ∧ read_cache c = None.
Proof.
  unfold Config_init, path_exists, mbind, M_bind, log, mret, M_ret, raise. simpl.
  destruct (fs_lookup fs p); simpl; intros H; simplify_eq. eauto.
Qed.

Lemma raises_only_ini_read_paths i0 paths :
  raises_only (O := O) ordinary (ini_read_paths fs i0 paths).
Proof.
  revert i0. induction paths as [|p rest IH]; intros i0; simpl.
  - apply raises_only_ret.
  - apply raises_only_bind; [apply raises_only_read_ini|]. intros i. apply IH.
Qed.
End PrimitiveFacts.

Section IniFacts.
Context (fs : Node) (schema : Ini → bool).

Lemma raises_only_ini_parse :
  raises_only ordinary (IniConfigFile_parse_data fs schema).
Proof.
  unfold IniConfigFile_parse_data.
  apply raises_only_bind; [apply raises_only_get_self|]. intros o.
  apply raises_only_bind; [apply raises_only_ini_read_paths|]. intros i.
  destruct (schema i);
    first [apply raises_only_ret | apply raises_only_raise; solve_ordinary].
Qed.

Lemma raises_only_cache_mixin {D} (truthy : D → bool) parse :
  raises_only ordinary parse →
  raises_only ordinary (CacheConfigMixin_config_data truthy parse).
Proof.
  intros Hp.
  assert (Hfill : raises_only ordinary (cache_fill parse)).
  { unfold cache_fill, ConfigABC_config_data.
    apply raises_only_bind.
    - apply raises_only_bind; [done|].
      intros [d|]; first [apply raises_only_ret | apply raises_only_raise; solve_ordinary].
    - intros d. apply raises_only_bind; [apply raises_only_get_self|]. intros o.
      apply raises_only_bind; [apply raises_only_put_self|]. intros _.
      apply raises_only_ret. }
  unfold CacheConfigMixin_config_data.
  apply raises_only_bind; [apply raises_only_get_self|]. intros o.
  destruct (read_cache o) as [d|]; [|done].
  destruct (truthy d); [apply raises_only_ret|done].
Qed.

Lemma raises_only_ini_getitem key :
  raises_only ordinary (IniConfigFile_getitem fs schema key).
Proof.
  unfold IniConfigFile_getitem, IniConfigFile_config_data.
  apply raises_only_bind.
  - apply raises_only_cache_mixin, raises_only_ini_parse.
  - intros i. destruct (ini_getitem i key);
      first [apply raises_only_ret | apply raises_only_raise; solve_ordinary].
Qed.
End IniFacts.

Lemma ini_merge_empty i : ini_merge ini_empty i = i.
Proof.
  destruct i as [d s]. unfold ini_merge, ini_empty. simpl. f_equal.
  - by rewrite (right_id_L ∅ (∪)).
  - by rewrite (left_id_L ∅ (union_with _)).
Qed.

Lemma raises_only_section_getitem {O} sec key :
  raises_only (O := O) ordinary (section_getitem sec key).
Proof.
  unfold section_getitem. destruct (sec !! Str.lower key) as [v|];
    [destruct (interpolate sec v)|];
    first [apply raises_only_ret | apply raises_only_raise; solve_ordinary].
Qed.

(** ** The metadata of a bundle *)

Section MetaFacts.
Context (fs : Node).

Lemma raises_only_depends : raises_only ordinary (BaseBundleMetaIni_depends fs).
Proof.
  unfold BaseBundleMetaIni_depends.
  apply raises_only_bind; [apply raises_only_ini_getitem|]. intros sec.
  destruct (has_key sec "depends"); [|apply raises_only_ret].
  apply raises_only_bind; [apply raises_only_ini_getitem|]. intros sec'.
  apply raises_only_bind; [apply raises_only_section_getitem|]. intros v.
  apply raises_only_ret.
Qed.

(** What [depends] returns on a fresh object is what the file declares. *)
Lemma depends_declared dir x (m : Config Ini) tr deps st' :
  path_order m = [dir // x // BASEBUNDLEMETA_INI] →
  read_cache m = None →
  BaseBundleMetaIni_depends fs (mkSt m tr) = (Ok deps, st') →
  deps = declared_depends fs dir x.
Proof.
  intros Hpo Hnone H. unfold BaseBundleMetaIni_depends in H.
  apply bind_Ok_inv in H as (sec & st1 & Hget & H).
  unfold IniConfigFile_getitem in Hget.
  apply bind_Ok_inv in Hget as (i & st1' & Hcd & Hsec).
  destruct (ini_getitem i "basebundle") as [sec0|] eqn:Hitem; [|discriminate].
  unfold mret, M_ret in Hsec. simplify_eq.
  pose proof (ini_config_data_stable _ _ _ _ _ Hcd) as [_ Hstable].
  specialize (Hstable (trace st1)). rewrite St_eta in Hstable.
  unfold IniConfigFile_config_data in Hcd.
  rewrite cache_miss in Hcd by (simpl; by rewrite Hnone).
  apply cache_fill_Ok in Hcd as (st2 & Hp & _).
  apply ini_parse_Ok in Hp as (i' & [= <-] & _ & _ & Hread).
  simpl in Hread. rewrite Hpo in Hread. simpl in Hread.
  apply bind_Ok_inv in Hread as (f & st3 & Hf & Hret).
  unfold mret, M_ret in Hret. simplify_eq.
  apply read_ini_Ok in Hf as [_ (t & Hfile)].
  unfold declared_depends. rewrite Hfile.
  rewrite ini_merge_empty in Hitem. rewrite Hitem.
  destruct (has_key sec "depends") eqn:Hk.
  - apply bind_Ok_inv in H as (sec' & st4 & Hget2 & H).
    rewrite (IniConfigFile_getitem_step _ _ _ _ _ _ sec Hstable) in Hget2
      by (by rewrite ini_merge_empty).
    simplify_eq.
    apply bind_Ok_inv in H as (v & st5 & Hv & H).
    unfold mret, M_ret in H. simplify_eq.
    unfold section_getitem in Hv.
    change (Str.lower "depends") with "depends" in Hv.
    destruct (sec' !! "depends") as [w|]; [|discriminate]. simpl.
    destruct (interpolate sec' w); [|discriminate].
    unfold mret, M_ret in Hv. by simplify_eq.
  - unfold mret, M_ret in H. simplify_eq.
    unfold has_key in Hk. by destruct (sec !! "depends").
Qed.
End MetaFacts.

(** ** The resolution loop *)

Lemma bind_inv {O A B} (m : M O A) (f : A → M O B) st r st' :
  (m ≫= f) st = (r, st') →
  (∃ a st1, m st = (Ok a, st1) ∧ f a st1 = (r, st')) ∨
  (∃ e, m st = (Raise e, st') ∧ r = Raise e).
Proof.
  unfold mbind, M_bind. destruct (m st) as [[a|e] st1]; intros H.
  - left. eauto.
  - right. exists e. by simplify_eq.
Qed.

Section ResolutionFacts.
Context (fs : Node) (res : Path) (CBD : string).

Local Abbreviation dir := (config_bundles_dir res CBD).
Local Abbreviation bp := (path_div (config_bundles_dir res CBD)).
Local Abbreviation deps_of := (declared_depends fs (config_bundles_dir res CBD)).
Local Abbreviation names := (bundle_names fs (config_bundles_dir res CBD)).

Local Instance bp_inj : Inj (=) (=) bp.
Proof. intros n1 n2. apply path_div_inj. Qed.

Lemma bundle_exists_name n : is_Some (fs_lookup fs (bp n)) → n ∈ names.
Proof.
  unfold path_div, bundle_names. rewrite fs_lookup_app. intros [nd H].
  destruct (fs_lookup fs dir) as [[es|? ?]|]; simpl in H; try done.
  destruct (assoc n es) eqn:Ha; [|done]. by eapply assoc_Some_elem.
Qed.

Lemma num_bundles_names : num_bundles fs res CBD = length names.
Proof.
  unfold num_bundles, bundle_names.
  destruct (fs_lookup fs dir) as [[es|? ?]|]; try done. by rewrite length_fmap.
Qed.

Lemma raises_only_update_first {D} p :
  raises_only ordinary (update_first_path (D := D) fs p).
Proof.
  unfold update_first_path, _check_path_add.
  apply raises_only_bind.
  - apply raises_only_bind; [apply raises_only_get_self|]. intros o.
    case_bool_decide; [apply raises_only_ret|].
    apply raises_only_bind; [apply raises_only_path_exists|]. intros e.
    destruct (negb e);
      first [apply raises_only_ret | apply raises_only_raise; solve_ordinary].
  - intros [|]; [|apply raises_only_ret].
    apply raises_only_bind; [apply raises_only_get_self|]. intros o.
    apply raises_only_bind; [apply raises_only_put_self|]. intros _.
    apply raises_only_ret.
Qed.

Lemma raises_only_for_depends deps nb pending :
  raises_only ordinary (for_depends fs res CBD deps nb pending).
Proof.
  revert nb pending. induction deps as [|d ds IH]; intros nb pending; simpl.
  - apply raises_only_ret.
  - apply raises_only_bind.
    + apply raises_only_call, raises_only_update_first.
    + intros [[|] nb']; apply IH.
Qed.

(** The layers and the pending names after the dependencies of one
    bundle, when all of them could be added. *)
Lemma for_depends_Ok deps nb pending (st st' : St unit) seen nb' pending' :
  path_order nb = bp <$> reverse seen →
  for_depends fs res CBD deps nb pending st = (Ok (nb', pending'), st') →
  path_order nb' = bp <$> reverse (seen ++ discover seen deps) ∧
  pending' = reverse (discover seen deps) ++ pending ∧
  ∀ n, n ∈ discover seen deps → n ∈ names.
Proof.
  revert nb pending st seen.
  induction deps as [|d ds IH]; intros nb pending st seen Hpo H; simpl in H.
  - unfold mret, M_ret in H. simplify_eq. simpl. rewrite app_nil_r.
    split; [done|]. split; [done|]. by intros n ?%elem_of_nil.
  - apply bind_Ok_inv in H as ([added nb1] & st1 & Hcall & H).
    unfold call, call_obj, mbind, M_bind in Hcall.
    destruct (update_first_path fs (bp d) (mkSt nb (trace st)))
      as [[b|e] [o1 tr1]] eqn:Hup; simpl in Hcall; [|discriminate].
    unfold mret, M_ret in Hcall. simplify_eq.
    assert (Hmem : bp d ∈ path_order nb ↔ d ∈ seen).
    { rewrite Hpo, list_elem_of_fmap_inj by apply _. apply elem_of_reverse. }
    simpl. case_bool_decide as Hd.
    + (* already a layer *)
      unfold update_first_path in Hup.
      rewrite (bind_Ok_step _ _ _ _ _
                 (check_path_add_member fs nb (bp d) (trace st) (proj2 Hmem Hd)))
        in Hup.
      unfold mret, M_ret in Hup. simplify_eq.
      by eapply IH.
    + (* a new layer *)
      assert (Hnot : bp d ∉ path_order nb) by (by rewrite Hmem).
      destruct (fs_lookup fs (bp d)) as [nd|] eqn:Hfs.
      * unfold update_first_path in Hup.
        rewrite (bind_Ok_step _ _ _ _ _
                   (check_path_add_new fs nb (bp d) (trace st) Hnot
                      ltac:(by rewrite Hfs))) in Hup.
        unfold mbind, M_bind, get_self, put_self, mret, M_ret in Hup.
        simpl in Hup. simplify_eq.
        eapply (IH _ _ _ (seen ++ [d])) in H as (Hpo' & Hpend & Hnames).
        2:{ simpl. by rewrite reverse_snoc, fmap_cons, Hpo. }
        rewrite <- (assoc_L (++)) in Hpo'. simpl in Hpo'.
        split; [done|]. split.
        -- rewrite Hpend, reverse_cons, <- (assoc_L (++)). done.
        -- intros n [->|Hn]%elem_of_cons; [|by apply Hnames].
           apply bundle_exists_name. by rewrite Hfs.
      * unfold update_first_path in Hup.
        rewrite (bind_Raise_step _ _ _ _ _
                   (check_path_add_missing fs nb (bp d) (trace st) Hnot Hfs))
          in Hup.
        discriminate.
Qed.

Lemma deque_pop_reverse {A} (x : A) q :
  deque_pop (reverse (x :: q)) = Some (x, reverse q).
Proof. unfold deque_pop. by rewrite reverse_involutive. Qed.

(** The loop, from a state in which the layers are the bundles seen so
    far, the pending names are layers that are not yet explored, and the
    fuel covers the bundles that are not yet explored: it raises neither
    the end of the fuel nor the error for a name met twice, and when it
    returns, the layers are in the reverse of the order in which the
    queue traversal meets the bundles. *)
Lemma explore_spec fuel nb queue known seen (st st' : St unit) r :
  path_order nb = bp <$> reverse seen →
  NoDup seen → (∀ n, n ∈ seen → n ∈ names) →
  (∀ n, n ∈ queue → n ∈ seen) → (∀ n : string, n ∈ known → n ∈ seen) →
  NoDup queue → (∀ n, n ∈ queue → n ∉ known) →
  length names + length queue < fuel + length seen →
  explore fs res CBD fuel nb (reverse queue) known st = (r, st') →
  match r with
  | Ok nb' =>
      ∃ final, queue_traversal deps_of fuel queue seen = Some final ∧
               path_order nb' = bp <$> reverse final
  | Raise e => ordinary e
  end.
Proof.
  revert nb queue known seen st.
  induction fuel as [|fuel IH];
    intros nb queue known seen st Hpo Hnd Hnames Hq Hk Hndq Hqk Hfuel H.
  - (* no fuel: the queue is empty *)
    assert (Hlen : length seen ≤ length names).
    { apply submseteq_length, NoDup_submseteq; done. }
    destruct queue as [|x q]; [|simpl in Hfuel; lia].
    simpl in H. unfold mret, M_ret in H. simplify_eq. by exists seen.
  - destruct queue as [|x q].
    { simpl in H. unfold mret, M_ret in H. simplify_eq. by exists seen. }
    unfold explore in H; fold (explore fs res CBD) in H.
    rewrite deque_pop_reverse in H.
    apply NoDup_cons in Hndq as [Hxq Hndq].
    rewrite bool_decide_eq_false_2 in H by (apply Hqk; by left).
    apply bind_inv in H as [(meta & st1 & Hinit & H)|(e & Hraise & ->)];
      [|by eapply raises_only_Config_init].
    apply bind_inv in H as [([deps meta'] & st2 & Hcall & H)|(e & Hraise & ->)];
      [|by eapply raises_only_call, Hraise; apply raises_only_depends].
    apply bind_inv in H as [([nb1 pending1] & st3 & Hfor & H)|(e & Hraise & ->)];
      [|by eapply raises_only_for_depends].
    apply Config_init_Ok in Hinit as (_ & Hmpo & Hmc).
    assert (deps = deps_of x) as ->.
    { unfold call, call_obj, mbind, M_bind in Hcall.
      destruct (BaseBundleMetaIni_depends fs (mkSt meta (trace st1)))
        as [[ds|e] st4] eqn:Hdep; simpl in Hcall; [|discriminate].
      unfold mret, M_ret in Hcall. simplify_eq.
      by eapply depends_declared. }
    eapply for_depends_Ok in Hfor as (Hpo1 & Hpend & Hnew); [|exact Hpo].
    rewrite Hpend, <- reverse_app in H.
    eapply IH in H; [exact H|exact Hpo1|..].
    + apply NoDup_app. split; [done|]. split; [|apply discover_NoDup].
      intros n Hn [_ Hn']%discover_elem. done.
    + intros n [?|?]%elem_of_app; auto.
    + intros n [Hn|Hn]%elem_of_app; apply elem_of_app; [left|by right].
      apply Hq. by right.
    + intros n [Hn|Hn%elem_of_singleton]%elem_of_union; apply elem_of_app; left.
      * by apply Hk.
      * subst n. apply Hq. by left.
    + apply NoDup_app. split; [done|]. split; [|apply discover_NoDup].
      intros n Hn [_ Hn']%discover_elem. apply Hn', Hq. by right.
    + intros n [Hn|Hn]%elem_of_app [Hn'|Hn'%elem_of_singleton]%elem_of_union.
      * eapply Hqk; [|done]. by right.
      * by subst n.
      * apply discover_elem in Hn as [_ Hn]. by apply Hn, Hk.
      * subst n. apply discover_elem in Hn as [_ Hn]. apply Hn, Hq. by left.
    + rewrite !length_app. simpl in Hfuel. lia.
Qed.
End ResolutionFacts.

(** ** The end of [from_base_name] *)

Section PatchesFacts.
Context (fs : Node) (res : Path) (CBD : string).

Lemma raises_only_update_last {D} p :
  raises_only ordinary (update_last_path (D := D) fs p).
Proof.
  unfold update_last_path, _check_path_add.
  apply raises_only_bind.
  - apply raises_only_bind; [apply raises_only_get_self|]. intros o.
    case_bool_decide; [apply raises_only_ret|].
    apply raises_only_bind; [apply raises_only_path_exists|]. intros e.
    destruct (negb e);
      first [apply raises_only_ret | apply raises_only_raise; solve_ordinary].
  - intros [|]; [|apply raises_only_ret].
    apply raises_only_bind; [apply raises_only_get_self|]. intros o.
    apply raises_only_bind; [apply raises_only_put_self|]. intros _.
    apply raises_only_ret.
Qed.

Lemma bundle_scan_cons {O} directory file_dict n rest :
  bundle_scan (O := O) fs directory file_dict (n :: rest)
  = match file_dict !! n with
    | Some child =>
        '(_, f) ← call (file child) (update_last_path fs (directory // n));
        bundle_scan fs directory (<[n := set_file f child]> file_dict) rest
    | None =>
        match assoc n _FILE_DEF with
        | None =>
            raise (ValueError
              ("Unknown files in config bundle: " +:+ path_str directory))
        | Some None => bundle_scan fs directory file_dict rest
        | Some (Some config_class) =>
            f ← Config_init fs (directory // n) None;
            bundle_scan fs directory
              (<[n := mkChild config_class f None]> file_dict) rest
        end
    end.
Proof. reflexivity. Qed.

Lemma bundle_scan_facts {O} directory file_dict entries :
  raises_only (O := O) ordinary (bundle_scan fs directory file_dict entries) ∧
  keeps_self (O := O) (bundle_scan fs directory file_dict entries).
Proof.
  revert file_dict. induction entries as [|n rest IH]; intros file_dict.
  - split; [apply raises_only_ret|apply keeps_self_ret].
  - rewrite bundle_scan_cons. destruct (file_dict !! n) as [child|].
    + split.
      * apply raises_only_bind; [apply raises_only_call, raises_only_update_last|].
        intros [? f]. apply IH.
      * apply keeps_self_bind; [apply keeps_self_call|].
        intros [? f]. apply IH.
    + destruct (assoc n _FILE_DEF) as [[config_class|]|].
      * split.
        -- apply raises_only_bind; [apply raises_only_Config_init|].
           intros f. apply IH.
        -- apply keeps_self_bind; [apply keeps_self_Config_init|].
           intros f. apply IH.
      * apply IH.
      * split; [|apply keeps_self_raise].
        apply raises_only_raise, ordinary_unknown_files.
Qed.

Lemma bundle_dirs_facts {O} file_dict dirs :
  raises_only (O := O) ordinary (bundle_dirs fs file_dict dirs) ∧
  keeps_self (O := O) (bundle_dirs fs file_dict dirs).
Proof.
  revert file_dict. induction dirs as [|d rest IH]; intros file_dict; simpl.
  - split; [apply raises_only_ret|apply keeps_self_ret].
  - split.
    + apply raises_only_bind; [apply raises_only_iterdir|]. intros entries.
      apply raises_only_bind; [apply bundle_scan_facts|]. intros fd. apply IH.
    + apply keeps_self_bind; [apply keeps_self_iterdir|]. intros entries.
      apply keeps_self_bind; [apply bundle_scan_facts|]. intros fd. apply IH.
Qed.

Lemma bundle_parse_facts :
  raises_only ordinary (ConfigBundle_parse_data fs) ∧
  keeps_self (ConfigBundle_parse_data fs).
Proof.
  unfold ConfigBundle_parse_data. split.
  - apply raises_only_bind; [apply raises_only_get_self|]. intros o.
    apply raises_only_bind; [apply bundle_dirs_facts|]. intros fd.
    apply raises_only_ret.
  - apply keeps_self_bind; [apply keeps_self_get_self|]. intros o.
    apply keeps_self_bind; [apply bundle_dirs_facts|]. intros fd.
    apply keeps_self_ret.
Qed.

(** An access through the cache changes no attribute but the cache. *)
Lemma cache_mixin_path_order {D} (truthy : D → bool) parse
    (st st' : St (Config D)) r :
  keeps_self parse →
  CacheConfigMixin_config_data truthy parse st = (r, st') →
  path_order (self st') = path_order (self st).
Proof.
  intros Hp H.
  assert (Hfill : ∀ r st', cache_fill parse st = (r, st') →
                           path_order (self st') = path_order (self st)).
  { clear H r st'. intros r st' H. unfold cache_fill, ConfigABC_config_data in H.
    apply bind_inv in H as [(d & st1 & Hd & H)|(e & Hraise & ->)].
    - unfold mbind, M_bind, get_self, put_self, mret, M_ret in H. simpl in H.
      simplify_eq. simpl.
      apply bind_inv in Hd as [(pd & st2 & Hpd & Hd)|(e & Hraise & ?)]; [|done].
      destruct pd; unfold mret, M_ret, raise in Hd; simplify_eq.
      by rewrite (Hp _ _ _ Hpd).
    - apply bind_inv in Hraise as [(pd & st2 & Hpd & Hd)|(e' & Hraise & ?)].
      + destruct pd; unfold mret, M_ret, raise in Hd; simplify_eq.
        by rewrite (Hp _ _ _ Hpd).
      + by rewrite (Hp _ _ _ Hraise). }
  unfold CacheConfigMixin_config_data, mbind at 1, M_bind at 1, get_self in H.
  simpl in H. destruct (read_cache (self st)) as [d|]; [|by eapply Hfill].
  destruct (truthy d); [|by eapply Hfill].
  unfold mret, M_ret in H. by simplify_eq.
Qed.

Lemma patches_facts :
  raises_only ordinary (ConfigBundle_patches fs) ∧
  ∀ st r st', ConfigBundle_patches fs st = (r, st') →
              path_order (self st') = path_order (self st).
Proof.
  unfold ConfigBundle_patches, ConfigBundle_config_data. split.
  - apply raises_only_bind.
    + apply raises_only_cache_mixin, bundle_parse_facts.
    + intros d. destruct (d !! PATCH_ORDER_LIST);
        first [apply raises_only_ret | apply raises_only_raise; solve_ordinary].
  - intros st r st' H.
    apply bind_inv in H as [(d & st1 & Hd & H)|(e & Hraise & ->)].
    + destruct (d !! PATCH_ORDER_LIST); unfold mret, M_ret, raise in H;
        simplify_eq; eapply cache_mixin_path_order; try exact Hd;
        apply bundle_parse_facts.
    + eapply cache_mixin_path_order; [|exact Hraise]. apply bundle_parse_facts.
Qed.

Lemma raises_only_set_patches_dir p :
  raises_only ordinary (set_patches_dir fs p).
Proof.
  unfold set_patches_dir.
  apply raises_only_bind; [apply raises_only_path_is_dir|]. intros d.
  destruct (negb d); [apply raises_only_raise; solve_ordinary|].
  apply raises_only_bind; [apply raises_only_get_self|]. intros c.
  apply raises_only_put_self.
Qed.

(** The [try] statement raises only ordinary exceptions and leaves the
    layers as the loop made them. *)
Lemma bind_patches_dir_facts nb (st st' : St unit) r :
  bind_patches_dir fs res nb st = (r, st') →
  match r with
  | Ok b => path_order b = path_order nb
  | Raise e => ordinary e
  end.
Proof.
  unfold bind_patches_dir. intros H.
  apply bind_inv in H as [([r0 nb'] & st1 & Hcall & H)|(e & Hraise & ->)].
  2:{ unfold call_obj in Hraise.
      by destruct (ConfigBundle_patches fs (mkSt nb (trace st))). }
  unfold call_obj in Hcall.
  destruct (ConfigBundle_patches fs (mkSt nb (trace st))) as [r1 st2] eqn:Hrun.
  simplify_eq.
  pose proof (proj2 patches_facts _ _ _ Hrun) as Hpo. simpl in Hpo.
  destruct r0 as [patches|e].
  - apply bind_inv in H as [([u patches'] & st3 & Hset & H)|(e & Hraise & ->)].
    + unfold mret, M_ret in H. by simplify_eq.
    + eapply raises_only_call; [|exact Hraise]. apply raises_only_set_patches_dir.
  - assert (He : ordinary e) by (eapply (proj1 patches_facts); exact Hrun).
    destruct e; unfold mret, M_ret, raise in H; by simplify_eq.
Qed.

(** [from_base_name] as a whole. *)
Lemma from_base_name_spec name (st st' : St unit) r :
  from_base_name fs res CBD name st = (r, st') →
  match r with
  | Ok b =>
      path_order b
      = path_div (config_bundles_dir res CBD)
          <$> reverse (bfs_order (declared_depends fs (config_bundles_dir res CBD))
                         (S (num_bundles fs res CBD)) name)
  | Raise e => ordinary e
  end.
Proof.
  unfold from_base_name. intros H.
  apply bind_inv in H as [(nb & st1 & Hinit & H)|(e & Hraise & ->)];
    [|by eapply raises_only_Config_init].
  apply Config_init_Ok in Hinit as (Hex & Hpo & _).
  apply bind_inv in H as [(nb' & st2 & Hloop & H)|(e & Hraise & ->)].
  - change [name] with (reverse [name]) in Hloop.
    eapply (explore_spec _ _ _ _ _ _ _ [name]) in Hloop; [|done|..].
    + destruct Hloop as (final & Hq & Hfinal).
      apply bind_patches_dir_facts in H. destruct r as [b|e]; [|done].
      rewrite H, Hfinal. f_equal. f_equal. symmetry.
      by eapply (queue_traversal_bfs _ _ _ _ _ Hq).
    + apply NoDup_singleton.
    + intros n ->%list_elem_of_singleton. by apply bundle_exists_name.
    + done.
    + intros n ?%elem_of_empty. done.
    + apply NoDup_singleton.
    + intros n _ ?%elem_of_empty. done.
    + rewrite num_bundles_names. simpl. lia.
  - change [name] with (reverse [name]) in Hraise.
    eapply (explore_spec _ _ _ _ _ _ _ [name]) in Hraise; [exact Hraise|done|..].
    + apply NoDup_singleton.
    + intros n ->%list_elem_of_singleton. by apply bundle_exists_name.
    + done.
    + intros n ?%elem_of_empty. done.
    + apply NoDup_singleton.
    + intros n _ ?%elem_of_empty. done.
    + rewrite num_bundles_names. simpl. lia.
Qed.
End PatchesFacts.

(** ** Resolution of the dependency graph *)

(** C1, as the code has it: the pending names form a first-in first-out
    queue, so the traversal is breadth first.  The loop always ends, and
    when the name asked for and the names that the metadata declare are
    plain names of directories, one component of a path each, then
    whenever [from_base_name] returns a bundle, from whatever state it was
    called, the layers of the bundle, front to back, are the reverse of the
    breadth-first, declaration-order linearization of the declared
    dependencies, the bundle itself last. *)
Theorem from_base_name_breadth_first fs res CBD name (st : St unit) :
  fst (from_base_name fs res CBD name st) ≠ Raise OutOfFuel ∧
  (names_simple fs (config_bundles_dir res CBD) name = true →
   ∀ b st', from_base_name fs res CBD name st = (Ok b, st') →
     path_order b
     = path_div (config_bundles_dir res CBD)
         <$> reverse (bfs_order (declared_depends fs (config_bundles_dir res CBD))
                        (S (num_bundles fs res CBD)) name)).
Proof.
  split.
  - destruct (from_base_name fs res CBD name st) as [r st'] eqn:H.
    apply from_base_name_spec in H. simpl. intros ->. by destruct H.
  - intros _ b st' H. by apply from_base_name_spec in H.
Qed.

Lemma from_base_name_breadth_first_witness :
  names_simple Examples.fs_tree (Examples.res // Examples.bundles) "a" = true ∧
  ∃ b st',
    from_base_name Examples.fs_tree Examples.res Examples.bundles "a" (mkSt tt [])
      = (Ok b, st') ∧
    path_order b = Examples.bundle_path <$> ["f"; "e"; "d"; "c"; "b"; "a"].
Proof.
  assert (Hnames : names_simple Examples.fs_tree (Examples.res // Examples.bundles)
                     "a" = true) by (vm_compute; reflexivity).
  split; [exact Hnames|].
  destruct (from_base_name Examples.fs_tree Examples.res Examples.bundles "a"
              (mkSt tt [])) as [[b|e] st'] eqn:H.
  - exists b, st'. split; [reflexivity|].
    rewrite (proj2 (from_base_name_breadth_first Examples.fs_tree Examples.res
                      Examples.bundles "a" (mkSt tt [])) Hnames b st' H).
    vm_compute. reflexivity.
  - vm_compute in H. discriminate.
Defined.

(** C1 as claimed fails: on a -> b, c; b -> d; c -> e; d -> f the layers
    are not those of the stack-based, depth-first traversal. *)
Lemma resolution_not_depth_first :
  let deps := declared_depends Examples.fs_tree (Examples.res // Examples.bundles) in
  let run := from_base_name Examples.fs_tree Examples.res Examples.bundles "a"
               (mkSt tt []) in
  layers_of run = Some ["f"; "e"; "d"; "c"; "b"; "a"] ∧
  reverse (stack_order deps 7 "a") = ["f"; "d"; "e"; "c"; "b"; "a"] ∧
  layers_of run ≠ Some (reverse (stack_order deps 7 "a")).
Proof.
  intros deps run.
  assert (H1 : layers_of run = Some ["f"; "e"; "d"; "c"; "b"; "a"])
    by (vm_compute; reflexivity).
  assert (H2 : reverse (stack_order deps 7 "a") = ["f"; "d"; "e"; "c"; "b"; "a"])
    by (vm_compute; reflexivity).
  split; [exact H1|]. split; [exact H2|].
  rewrite H1, H2. discriminate.
Qed.

(** C2, where the code departs from it: the error for a bundle name met
    twice is never raised.  A dependency whose directory is already a layer
    is skipped, so a bundle that depends on itself, a cycle and a diamond
    all resolve without an error. *)
Theorem revisit_is_absorbed :
  (∀ fs res CBD name (st : St unit) n,
     fst (from_base_name fs res CBD name st) ≠ Raise (ValueError (duplicate_msg n))) ∧
  layers_of (from_base_name Examples.fs_self Examples.res Examples.bundles "a"
               (mkSt tt [])) = Some ["a"] ∧
  layers_of (from_base_name Examples.fs_cycle Examples.res Examples.bundles "a"
               (mkSt tt [])) = Some ["b"; "a"] ∧
  layers_of (from_base_name Examples.fs_diamond Examples.res Examples.bundles "a"
               (mkSt tt [])) = Some ["d"; "c"; "b"; "a"].
Proof.
  split; [|repeat split; vm_compute; reflexivity].
  intros fs res CBD name st n.
  destruct (from_base_name fs res CBD name st) as [r st'] eqn:H.
  apply from_base_name_spec in H. simpl. intros ->. destruct H as [_ H].
  by apply (H n).
Qed.

(** * Further properties *)

(** ** The layered path list as an invariant *)

Section PathListInvariant.
Context (fs : Node) {D : Type}.
Implicit Types (o : Config D) (p : Path) (tr : list FsOp).

Lemma update_first_path_cases o p tr :
  update_first_path fs p (mkSt o tr)
  = if bool_decide (p ∈ path_order o) then (Ok false, mkSt o tr)
    else match fs_lookup fs p with
         | Some _ => (Ok true, mkSt (set_path_order (p :: path_order o) o)
                                 (tr ++ [OpExists p]))
         | None => (Raise (FileNotFoundError p), mkSt o (tr ++ [OpExists p]))
         end.
Proof.
  unfold update_first_path. case_bool_decide as Hin.
  - by erewrite bind_Ok_step by by apply check_path_add_member.
  - destruct (fs_lookup fs p) eqn:Hfs.
    + by erewrite bind_Ok_step by (apply check_path_add_new; [done|by rewrite Hfs]).
    + by erewrite bind_Raise_step by by apply check_path_add_missing.
Qed.

Lemma update_last_path_cases o p tr :
  update_last_path fs p (mkSt o tr)
  = if bool_decide (p ∈ path_order o) then (Ok false, mkSt o tr)
    else match fs_lookup fs p with
         | Some _ => (Ok true, mkSt (set_path_order (path_order o ++ [p]) o)
                                 (tr ++ [OpExists p]))
         | None => (Raise (FileNotFoundError p), mkSt o (tr ++ [OpExists p]))
         end.
Proof.
  unfold update_last_path. case_bool_decide as Hin.
  - by erewrite bind_Ok_step by by apply check_path_add_member.
  - destruct (fs_lookup fs p) eqn:Hfs.
    + by erewrite bind_Ok_step by (apply check_path_add_new; [done|by rewrite Hfs]).
    + by erewrite bind_Raise_step by by apply check_path_add_missing.
Qed.

(** X1: whatever their outcome, [update_first_path] and [update_last_path]
    keep the path list free of duplicates, remove no path from it, add at
    most the path they were given, and that only when it exists; the other
    attributes of the object stay as they were. *)
Theorem path_order_invariant (front : bool) o p tr r st' :
  (if front then update_first_path fs p else update_last_path fs p) (mkSt o tr)
    = (r, st') →
  NoDup (path_order o) →
  NoDup (path_order (self st')) ∧
  (∀ q, q ∈ path_order (self st') ↔ q ∈ path_order o ∨ (q = p ∧ r = Ok true)) ∧
  (r = Ok true → is_Some (fs_lookup fs p)) ∧
  path (self st') = path o ∧ name (self st') = name o ∧
  read_cache (self st') = read_cache o.
Proof.
  intros H Hnd.
  assert (Hcases :
    (r = Ok false ∧ self st' = o ∧ p ∈ path_order o) ∨
    (∃ e, r = Raise e ∧ self st' = o) ∨
    (r = Ok true ∧ (p ∉ path_order o) ∧ is_Some (fs_lookup fs p) ∧
     path (self st') = path o ∧ name (self st') = name o ∧
     read_cache (self st') = read_cache o ∧
     (path_order (self st') = p :: path_order o ∨
      path_order (self st') = path_order o ++ [p]))).
  { destruct front;
      [rewrite update_first_path_cases in H|rewrite update_last_path_cases in H];
      case_bool_decide; simplify_eq; auto;
      destruct (fs_lookup fs p) eqn:Hfs; simplify_eq; simpl; eauto 10. }
  destruct Hcases as [(-> & -> & Hin)|[(e & -> & ->)|(-> & Hnin & Hex & ? & ? & ? & Hpo)]].
  - repeat split; try done; [by left|]. intros [?|[-> _]]; done.
  - repeat split; try done; [by left|]. intros [?|[_ ?]]; done.
  - split; [|split; [|done]].
    + destruct Hpo as [-> | ->]; [by apply NoDup_cons|].
      apply NoDup_app. split; [done|]. split; [|apply NoDup_singleton].
      intros q Hq ->%list_elem_of_singleton. done.
    + intros q. destruct Hpo as [-> | ->].
      * rewrite elem_of_cons. split.
        -- intros [-> | ?]; [by right|by left].
        -- intros [?|[-> _]]; [by right|by left].
      * rewrite elem_of_app, list_elem_of_singleton. split.
        -- intros [? | ->]; [by left|by right].
        -- intros [?|[-> _]]; [by left|by right].
Qed.

End PathListInvariant.

Lemma path_order_invariant_witness :
  let o := Examples.list_file [["l1"]] in
  let st' := mkSt (Examples.list_file [["l1"]; ["l2"]]) [OpExists ["l2"]] in
  NoDup (path_order (self st')) ∧
  (∀ q, q ∈ path_order (self st') ↔ q ∈ path_order o ∨ (q = ["l2"] ∧ Ok true = Ok true)) ∧
  (Ok true = Ok true → is_Some (fs_lookup Examples.fs_files ["l2"])) ∧
  path (self st') = path o ∧ name (self st') = name o ∧
  read_cache (self st') = read_cache o.
Proof.
  intros o st'.
  apply (path_order_invariant Examples.fs_files false o ["l2"] [] (Ok true) st').
  - reflexivity.
  - apply NoDup_singleton.
Defined.

(** ** Ordered-list files: membership, missing layers, round trip *)

Lemma line_generator_Ok fs {O} paths (st st' : St O) items :
  _line_generator fs paths st = (Ok items, st') →
  ∃ texts, Forall2 (is_file fs) paths texts ∧
    items = concat ((λ t, filter (λ l, Str.nonempty l = true) (Str.splitlines t))
                      <$> texts).
Proof.
  revert st items. induction paths as [|p rest IH]; intros st items H; simpl in H.
  - unfold mret, M_ret in H. simplify_eq. by exists [].
  - apply bind_Ok_inv in H as (t & st1 & Hread & H).
    apply read_text_Ok in Hread as [-> Hfile].
    apply bind_Ok_inv in H as (more & st2 & H & Hret).
    unfold mret, M_ret in Hret. simplify_eq.
    apply IH in H as (texts & Hall & ->).
    exists (t :: texts). split; [by constructor|done].
Qed.

Lemma lines_clean t :
  Forall (λ l, Str.nonempty l = true ∧ no_linebreak l = true)
    (filter (λ l, Str.nonempty l = true) (Str.splitlines t)).
Proof.
  apply Forall_forall. intros l [Hne Hl]%list_elem_of_filter. split; [done|].
  pose proof (splitlines_clean t) as Hc. by eapply Forall_forall in Hc.
Qed.

Lemma items_clean texts :
  Forall (λ l, Str.nonempty l = true ∧ no_linebreak l = true)
    (concat ((λ t, filter (λ l, Str.nonempty l = true) (Str.splitlines t)) <$> texts)).
Proof.
  apply Forall_concat, Forall_fmap, Forall_forall. intros t _. apply lines_clean.
Qed.

Lemma filter_all {A} (P : A → Prop) `{∀ x, Decision (P x)} (l : list A) :
  Forall P l → filter P l = l.
Proof.
  induction 1 as [|x l Hx _ IH]; [done|]. by rewrite filter_cons_True, IH.
Qed.

Lemma contains_from_files fs {O} paths texts item (st : St O) :
  Forall2 (is_file fs) paths texts →
  let items := concat ((λ t, filter (λ l, Str.nonempty l = true) (Str.splitlines t))
                         <$> texts) in
  ∃ k, contains_from fs paths item st
       = (Ok (bool_decide (item ∈ items)),
          mkSt (self st) (trace st ++ (OpRead <$> take k paths))) ∧
       (item ∉ items → k = length paths).
Proof.
  intros H. revert st. induction H as [|p t paths texts Hp _ IH]; intros st; simpl.
  - exists 0. unfold mret, M_ret. rewrite app_nil_r, St_eta. done.
  - rewrite (bind_Ok_step _ _ _ _ _ (read_text_file fs p st t Hp)).
    case_bool_decide as Hin.
    + exists 1. unfold mret, M_ret. simpl.
      rewrite bool_decide_eq_true_2 by (apply elem_of_app; by left).
      split; [done|]. intros Hn. exfalso. apply Hn, elem_of_app. by left.
    + destruct (IH (mkSt (self st) (trace st ++ [OpRead p]))) as (k & Hk & Hlen).
      exists (S k). rewrite Hk. simpl. rewrite <- (assoc_L (++)). simpl.
      split.
      * f_equal. f_equal. apply bool_decide_ext. rewrite elem_of_app.
        split; [by right|]. by intros [?|?].
      * intros Hn. f_equal. apply Hlen. intros ?. apply Hn, elem_of_app. by right.
Qed.

(** X2: when the layers can be read, [item in list_file] tells whether the
    item is among the lines that iterating the file yields; it reads the
    layers in order and stops at the first layer that holds the item (all
    of them when none does).  The empty string is never contained. *)
Theorem list_contains_agrees_with_items fs (o : Config Empty_set) tr items st1 item :
  ListConfigFile_items fs (mkSt o tr) = (Ok items, st1) →
  ∃ k, ListConfigFile_contains fs item (mkSt o tr)
       = (Ok (bool_decide (item ∈ items)),
          mkSt o (tr ++ (OpRead <$> take k (path_order o)))) ∧
       (item ∉ items → k = length (path_order o)) ∧
       (item = EmptyString → item ∉ items).
Proof.
  intros H. rewrite ListConfigFile_items_eq in H.
  apply line_generator_Ok in H as (texts & Hfiles & ->).
  destruct (contains_from_files fs _ _ item (mkSt o tr) Hfiles) as (k & Hk & Hlen).
  exists k. split; [exact Hk|]. split; [exact Hlen|].
  intros -> Hin. pose proof (items_clean texts) as Hc.
  eapply Forall_forall in Hc; [|exact Hin]. by destruct Hc.
Qed.

Lemma list_contains_agrees_with_items_witness :
  let o := Examples.list_file [["l1"]; ["l2"]] in
  ∃ k, ListConfigFile_contains Examples.fs_files "b" (mkSt o [])
       = (Ok (bool_decide ("b" ∈ ["a"; "b"; "c"])),
          mkSt o ([] ++ (OpRead <$> take k (path_order o)))) ∧
       ("b" ∉ ["a"; "b"; "c"] → k = length (path_order o)) ∧
       ("b" = EmptyString → "b" ∉ ["a"; "b"; "c"]).
Proof.
  intros o.
  apply (list_contains_agrees_with_items Examples.fs_files o [] ["a"; "b"; "c"]
           (mkSt o [OpRead ["l1"]; OpRead ["l2"]]) "b").
  reflexivity.
Defined.

(** X3: the items that a list file yields can be written and read back:
    each item followed by a newline, the text that [ListConfigFile.write]
    sends to a file that is none of the layers, read as the only layer of
    a list file, yields the same items.  Nothing is said of a write onto a
    layer, which empties the file before the layers are read. *)
Theorem list_write_read_round_trip fs (o : Config Empty_set) tr items st1 :
  ListConfigFile_items fs (mkSt o tr) = (Ok items, st1) →
  ∀ fs' p (o' : Config Empty_set) tr',
    path_order o' = [p] →
    is_file fs' p (ListConfigFile_write_text items) →
    ListConfigFile_items fs' (mkSt o' tr') = (Ok items, mkSt o' (tr' ++ [OpRead p])).
Proof.
  intros Hitems fs' p o' tr' Hpo Hfile.
  rewrite ListConfigFile_items_eq in Hitems.
  apply line_generator_Ok in Hitems as (texts & _ & ->).
  pose proof (items_clean texts) as Hc.
  rewrite ListConfigFile_items_eq, Hpo.
  rewrite (line_generator_files fs' [p] [_] (mkSt o' tr')) by (by repeat constructor).
  simpl. rewrite app_nil_r. f_equal. f_equal.
  rewrite splitlines_write_text
    by (eapply Forall_impl; [exact Hc|]; by intros l [_ ?]).
  apply filter_all. eapply Forall_impl; [exact Hc|]. by intros l [? _].
Qed.

Lemma list_write_read_round_trip_witness :
  let o := Examples.list_file [["l3"]; ["l2"]] in
  let items := ["a"; "c"; "c"] in
  let fs' := Dir [("w", File (ListConfigFile_write_text items) None)] in
  let o' := Examples.list_file [["w"]] in
  ListConfigFile_items fs' (mkSt o' []) = (Ok items, mkSt o' ([] ++ [OpRead ["w"]])).
Proof.
  intros o items fs' o'.
  refine (list_write_read_round_trip Examples.fs_files o [] items
            (mkSt o [OpRead ["l3"]; OpRead ["l2"]]) _ fs' ["w"] o' [] _ _).
  - reflexivity.
  - reflexivity.
  - exists None. reflexivity.
Defined.

(** ** A layer file that is missing *)






Lemma cache_fill_Raise {D} (parse : M (Config D) (option D)) st e st' :
  parse st = (Raise e, st') → cache_fill parse st = (Raise e, st').
Proof.
  intros H. unfold cache_fill, ConfigABC_config_data, mbind, M_bind. by rewrite H.
Qed.



(** ** Key-value mapping files: keys that are missing, round trip *)

(** X5: a key that no layer defines is not in the mapping:
    [__contains__] is [False] and [__getitem__] raises [KeyError]. *)
Theorem mapping_missing_key fs (o : Config (gmap string string)) tr d st1 K :
  read_cache o = None →
  MappingConfigFile_config_data fs (mkSt o tr) = (Ok d, st1) →
  (∀ p dp, p ∈ path_order o → layer_dict fs p = Ok dp → dp !! K = None) →
  MappingConfigFile_contains fs K (mkSt o tr) = (Ok false, st1) ∧
  MappingConfigFile_getitem fs K (mkSt o tr) = (Raise (KeyError K), st1).
Proof.
  intros Hnone H Hlayers.
  assert (HK : d !! K = None).
  { unfold MappingConfigFile_config_data in H.
    rewrite cache_miss in H by (simpl; by rewrite Hnone).
    apply cache_fill_Ok in H as (st' & Hp & _).
    unfold MappingConfigFile_parse_data in Hp.
    apply bind_Ok_inv in Hp as (o' & st2 & Hget & Hp).
    unfold get_self in Hget. simplify_eq. simpl in Hp.
    apply bind_Ok_inv in Hp as (d' & st3 & Hp & Hret).
    unfold mret, M_ret in Hret. simplify_eq.
    by rewrite (mapping_paths_keep _ _ _ _ _ _ _ Hlayers Hp). }
  unfold MappingConfigFile_contains, MappingConfigFile_getitem.
  rewrite !(bind_Ok_step _ _ _ _ _ H). unfold has_key. by rewrite HK.
Qed.

Lemma mapping_missing_key_witness :
  let o := Examples.mapping_file [["m2"]; ["m3"]] in
  let st1 := mkSt (set_read_cache (Some {[ "K" := "two"; "J" := "y" ]}) o)
               [OpRead ["m2"]; OpRead ["m3"]] in
  MappingConfigFile_contains Examples.fs_files "Z" (mkSt o []) = (Ok false, st1) ∧
  MappingConfigFile_getitem Examples.fs_files "Z" (mkSt o [])
  = (Raise (KeyError "Z"), st1).
Proof.
  intros o st1.
  apply (mapping_missing_key Examples.fs_files o []
           {[ "K" := "two"; "J" := "y" ]} st1 "Z").
  - reflexivity.
  - vm_compute. reflexivity.
  - intros p dp Hp Hdp.
    apply elem_of_cons in Hp as [-> |Hp];
      [|apply list_elem_of_singleton in Hp as ->];
      vm_compute in Hdp; injection Hdp as <-; reflexivity.
Defined.

Lemma count_before c s : Str.count c (Str.before c s) = 0.
Proof.
  induction s as [|a s IH]; simpl; [done|].
  destruct (Ascii.eqb a c) eqn:Ha; simpl; [done|]. by rewrite Ha.
Qed.

Lemma no_linebreak_before c s :
  no_linebreak s = true → no_linebreak (Str.before c s) = true.
Proof.
  induction s as [|a s IH]; simpl; [done|]. intros [Ha Hs]%andb_prop.
  destruct (Ascii.eqb a c); simpl; [done|]. by rewrite Ha, IH.
Qed.

Lemma no_linebreak_after c s :
  no_linebreak s = true → no_linebreak (Str.after c s) = true.
Proof.
  induction s as [|a s IH]; simpl; [done|]. intros [Ha Hs]%andb_prop.
  destruct (Ascii.eqb a c); auto.
Qed.

Lemma no_linebreak_app s t :
  no_linebreak (s +:+ t) = no_linebreak s && no_linebreak t.
Proof.
  induction s as [|a s IH]; simpl; [done|]. by rewrite IH, andb_assoc.
Qed.

(** The key and the value of a line that unpacks. *)
Lemma unpacked_item_clean c line k v :
  Str.split c line = [k; v] → no_linebreak line = true →
  Str.count c k = 0 ∧ Str.count c v = 0 ∧
  no_linebreak k = true ∧ no_linebreak v = true.
Proof.
  intros Hs Hl.
  assert (Hc : Str.count c line = 1).
  { pose proof (split_length c line) as Hlen. rewrite Hs in Hlen. simpl in Hlen. lia. }
  rewrite (split_one _ _ Hc) in Hs. simplify_eq.
  split; [apply count_before|]. split; [by rewrite count_after, Hc|].
  split; [by apply no_linebreak_before|by apply no_linebreak_after].
Qed.

Lemma mapping_lines_clean {O} lines d0 d (st st' : St O) :
  mapping_lines d0 lines st = (Ok d, st') →
  Forall (λ l, no_linebreak l = true) lines →
  map_Forall (λ k v, clean_item (k, v)) d0 →
  map_Forall (λ k v, clean_item (k, v)) d.
Proof.
  revert d0. induction lines as [|line rest IH]; intros d0 H Hl Hd0; simpl in H.
  - unfold mret, M_ret in H. by simplify_eq.
  - apply Forall_cons in Hl as [Hline Hrest].
    apply bind_Ok_inv in H as ([k v] & st1 & Hu & H).
    apply unpack2_Ok in Hu as [Hparts ->].
    eapply IH; [exact H|done|].
    apply map_Forall_insert_2; [|done].
    by apply (unpacked_item_clean "=" line).
Qed.

Lemma mapping_paths_clean fs {O} paths d0 d (st st' : St O) :
  mapping_paths fs d0 paths st = (Ok d, st') →
  map_Forall (λ k v, clean_item (k, v)) d0 →
  map_Forall (λ k v, clean_item (k, v)) d.
Proof.
  revert d0 st. induction paths as [|p rest IH]; intros d0 st H Hd0; simpl in H.
  - unfold mret, M_ret in H. by simplify_eq.
  - apply bind_Ok_inv in H as (t & st1 & _ & H).
    apply bind_Ok_inv in H as (dm & st2 & Hlines & H).
    eapply IH; [exact H|]. eapply mapping_lines_clean; [exact Hlines| |done].
    eapply Forall_impl; [apply lines_clean|]. by intros l [_ ?].
Qed.

Lemma split_item_line k v :
  lacks "=" k → lacks "=" v → Str.split "=" (mapping_item_line (k, v)) = [k; v].
Proof.
  unfold lacks, mapping_item_line. simpl. intros Hk Hv.
  induction k as [|a k IH]; simpl in *.
  - f_equal. clear Hk. induction v as [|b v IHv]; simpl in *; [done|].
    destruct (Ascii.eqb b "="); [done|]. by rewrite IHv.
  - destruct (Ascii.eqb a "="); [done|]. by rewrite IH.
Qed.

Lemma mapping_lines_items {O} items d0 (st : St O) :
  Forall clean_item items →
  mapping_lines d0 (mapping_item_line <$> items) st
  = (Ok (foldl (λ d item, <[item.1 := item.2]> d) d0 items), st).
Proof.
  intros H. revert d0. induction H as [|[k v] items Hkv _ IH]; intros d0; simpl.
  - done.
  - destruct Hkv as (Hk & Hv & _). simpl in *.
    rewrite (split_item_line k v Hk Hv).
    unfold mbind, M_bind. simpl. by rewrite IH.
Qed.

Lemma foldl_insert_list_to_map (items : list (string * string)) :
  NoDup items.*1 →
  foldl (λ d item, <[item.1 := item.2]> d) (∅ : gmap string string) items
  = list_to_map items.
Proof.
  induction items as [|[k v] items IH] using rev_ind; intros Hnd; [done|].
  rewrite fmap_app in Hnd. apply NoDup_app in Hnd as (Hnd & Hk & _).
  rewrite foldl_app, list_to_map_app. simpl. rewrite IH by done.
  rewrite insert_empty. apply insert_union_singleton_r.
  apply not_elem_of_list_to_map_1. intros Hin. apply (Hk k Hin). by left.
Qed.

Lemma write_text_item_lines items :
  MappingConfigFile_write_text items
  = ListConfigFile_write_text (mapping_item_line <$> items).
Proof.
  induction items as [|item items IH]; [done|].
  change (MappingConfigFile_write_text (item :: items))
    with (mapping_item_line item +:+ newline +:+ MappingConfigFile_write_text items).
  by rewrite IH.
Qed.

Lemma item_line_clean item :
  clean_item item →
  Str.nonempty (mapping_item_line item) = true ∧
  no_linebreak (mapping_item_line item) = true.
Proof.
  destruct item as [k v]. intros (_ & _ & Hk & Hv). simpl in *.
  unfold mapping_item_line. simpl. split.
  - by destruct k.
  - rewrite no_linebreak_app, Hk. simpl. by rewrite Hv.
Qed.

Lemma mapping_parse_eq fs (o : Config (gmap string string)) tr :
  MappingConfigFile_parse_data fs (mkSt o tr)
  = (mapping_paths fs ∅ (path_order o) ≫= λ d, mret (Some d)) (mkSt o tr).
Proof. reflexivity. Qed.

Lemma mapping_paths_one fs {O} p t d0 d (st : St O) :
  is_file fs p t →
  (∀ st1 : St O,
     mapping_lines d0 (filter (λ l, Str.nonempty l = true) (Str.splitlines t)) st1
     = (Ok d, st1)) →
  mapping_paths fs d0 [p] st = (Ok d, mkSt (self st) (trace st ++ [OpRead p])).
Proof.
  intros Hfile Hlines. simpl.
  rewrite (bind_Ok_step _ _ _ _ _ (read_text_file fs p st t Hfile)).
  by rewrite (bind_Ok_step _ _ _ _ _ (Hlines _)).
Qed.

(** X6: the dictionary that a mapping file parses to can be written and
    read back: whatever the order in which its items are written, the
    text of [MappingConfigFile.write], as the only layer of a mapping
    file, parses to the same dictionary. *)
Theorem mapping_write_read_round_trip fs (o : Config (gmap string string)) tr d st1
    (items : list (string * string)) :
  MappingConfigFile_parse_data fs (mkSt o tr) = (Ok (Some d), st1) →
  NoDup items.*1 → list_to_map items = d →
  ∀ fs' p (o' : Config (gmap string string)) tr',
    path_order o' = [p] →
    is_file fs' p (MappingConfigFile_write_text items) →
    MappingConfigFile_parse_data fs' (mkSt o' tr')
    = (Ok (Some d), mkSt o' (tr' ++ [OpRead p])).
Proof.
  intros H Hnd Hd fs' p o' tr' Hpo Hfile.
  assert (Hclean : Forall clean_item items).
  { unfold MappingConfigFile_parse_data in H.
    apply bind_Ok_inv in H as (o0 & st2 & Hget & H).
    unfold get_self in Hget. simplify_eq. simpl in H.
    apply bind_Ok_inv in H as (d' & st3 & H & Hret).
    unfold mret, M_ret in Hret. simplify_eq.
    apply mapping_paths_clean in H; [|apply map_Forall_empty].
    apply Forall_forall. intros [k v] Hin.
    apply (H k v). by apply elem_of_list_to_map_1. }
  rewrite mapping_parse_eq, Hpo.
  erewrite bind_Ok_step; [reflexivity|].
  eapply mapping_paths_one; [exact Hfile|]. intros st2.
  rewrite write_text_item_lines, splitlines_write_text.
  2:{ apply Forall_fmap. eapply Forall_impl; [exact Hclean|].
      intros item Hi. by apply item_line_clean. }
  rewrite filter_all.
  2:{ apply Forall_fmap. eapply Forall_impl; [exact Hclean|].
      intros item Hi. by apply item_line_clean. }
  rewrite (mapping_lines_items items ∅ _ Hclean).
  by rewrite foldl_insert_list_to_map, Hd.
Qed.

Lemma mapping_write_read_round_trip_witness :
  let o := Examples.mapping_file [["m1"]; ["m2"]] in
  let d : gmap string string := {[ "K" := "two"; "J" := "x" ]} in
  let items := [("J", "x"); ("K", "two")] in
  let fs' := Dir [("w", File (MappingConfigFile_write_text items) None)] in
  let o' := Examples.mapping_file [["w"]] in
  MappingConfigFile_parse_data fs' (mkSt o' [])
  = (Ok (Some d), mkSt o' ([] ++ [OpRead ["w"]])).
Proof.
  intros o d items fs' o'.
  refine (mapping_write_read_round_trip Examples.fs_files o [] d
            (mkSt o [OpRead ["m1"]; OpRead ["m2"]]) items _ _ _
            fs' ["w"] o' [] _ _).
  - vm_compute. reflexivity.
  - compute_done.
  - vm_compute. reflexivity.
  - reflexivity.
  - exists None. reflexivity.
Defined.

(** ** INI files that fail their schema *)

(** X7: when the merged layers fail the schema, every access to an INI
    file raises [SchemaError] after reading all the layers, and leaves the
    object as it was: nothing is cached, and the next access reads and
    validates again. *)
Theorem ini_schema_failure fs schema (o : Config Ini) tr i st1 key :
  read_cache o = None →
  ini_read_paths fs ini_empty (path_order o) (mkSt o tr) = (Ok i, st1) →
  schema i = false →
  let failed := mkSt o (tr ++ (OpRead <$> path_order o)) in
  IniConfigFile_config_data fs schema (mkSt o tr) = (Raise SchemaError, failed) ∧
  IniConfigFile_getitem fs schema key (mkSt o tr) = (Raise SchemaError, failed) ∧
  IniConfigFile_contains fs schema key (mkSt o tr) = (Raise SchemaError, failed).
Proof.
  intros Hnone H Hs failed.
  assert (Hcd : IniConfigFile_config_data fs schema (mkSt o tr)
                = (Raise SchemaError, failed)).
  { unfold IniConfigFile_config_data.
    rewrite cache_miss by (simpl; by rewrite Hnone).
    apply cache_fill_Raise. unfold IniConfigFile_parse_data.
    unfold mbind at 1, M_bind at 1, get_self. simpl.
    rewrite (bind_Ok_step _ _ _ _ _ H), Hs.
    by apply ini_read_paths_Ok in H as [-> _]. }
  split; [done|].
  unfold IniConfigFile_getitem, IniConfigFile_contains.
  by rewrite !(bind_Raise_step _ _ _ _ _ Hcd).
Qed.

Lemma ini_schema_failure_witness :
  let failed := mkSt Examples.version_file [OpRead ["version.ini"]] in
  IniConfigFile_config_data MoreExamples.fs_bad_version VersionIni_schema
    (mkSt Examples.version_file []) = (Raise SchemaError, failed) ∧
  IniConfigFile_getitem MoreExamples.fs_bad_version VersionIni_schema "version"
    (mkSt Examples.version_file []) = (Raise SchemaError, failed) ∧
  IniConfigFile_contains MoreExamples.fs_bad_version VersionIni_schema "version"
    (mkSt Examples.version_file []) = (Raise SchemaError, failed).
Proof.
  eapply (ini_schema_failure MoreExamples.fs_bad_version VersionIni_schema
            Examples.version_file [] _ _ "version").
  - reflexivity.
  - vm_compute. reflexivity.
  - vm_compute. reflexivity.
Defined.

(** ** Extra-deps sections: the checksum mapping, validated sections *)

(** The checksum of [h] that the accessor takes: set and not empty. *)
Lemma hashes_fold_lookup (sec : gmap string string) (hs : list string)
    (d0 : gmap string string) (h : string) :
  foldl (λ (hashes_dict : gmap string string) hash_name,
           match sec !! hash_name with
           | Some value =>
               if Str.nonempty value then <[hash_name := value]> hashes_dict
               else hashes_dict
           | None => hashes_dict
           end) d0 hs !! h
  = match sec !! h with
    | Some v => if bool_decide (h ∈ hs) && Str.nonempty v then Some v else d0 !! h
    | None => d0 !! h
    end.
Proof.
  revert d0. induction hs as [|x hs IH]; intros d0; simpl.
  - by destruct (sec !! h).
  - rewrite IH. destruct (sec !! h) as [v|] eqn:Hh.
    + destruct (decide (h = x)) as [->|Hne].
      * rewrite Hh. rewrite (bool_decide_eq_true_2 (x ∈ x :: hs)) by by left.
        destruct (Str.nonempty v) eqn:Hv; simpl.
        -- rewrite andb_true_r. case_bool_decide; [done|]. by rewrite lookup_insert_eq.
        -- by rewrite andb_false_r.
      * assert (Hd : bool_decide (h ∈ x :: hs) = bool_decide (h ∈ hs)).
        { apply bool_decide_ext. rewrite elem_of_cons.
          split; [by intros [?|?]|by right]. }
        rewrite Hd. destruct (bool_decide (h ∈ hs) && Str.nonempty v); [done|].
        destruct (sec !! x) as [vx|]; [|done].
        destruct (Str.nonempty vx); [|done]. by rewrite lookup_insert_ne.
    + destruct (sec !! x) as [vx|] eqn:Hx; [|done].
      destruct (Str.nonempty vx); [|done].
      rewrite lookup_insert_ne; [done|]. intros ->. congruence.
Qed.

Lemma hashes_entries (sec : gmap string string) :
  ∃ d, ExtraDepsSection_getattr sec _passthrough_properties _hashes "hashes"
       = AttrDict d ∧
       ∀ h v, d !! h = Some v ↔
              h ∈ _hashes ∧ sec !! h = Some v ∧ Str.nonempty v = true.
Proof.
  unfold ExtraDepsSection_getattr.
  rewrite bool_decide_eq_false_2 by compute_done.
  change (String.eqb "hashes" "hashes") with true. cbv iota.
  eexists. split; [reflexivity|]. intros h v.
  rewrite hashes_fold_lookup, lookup_empty.
  destruct (sec !! h) as [w|].
  - case_bool_decide as Hin; simpl.
    + destruct (Str.nonempty w) eqn:Hw.
      * split; [by intros [= ->]|]. by intros (_ & ? & _).
      * split; [done|]. intros (_ & [= ->] & ?). congruence.
    + split; [done|]. by intros (? & _).
  - split; [done|]. by intros (_ & ? & _).
Qed.

(** X8: the [hashes] attribute of an extra-deps section is a mapping that
    holds exactly the supported checksum names that the section sets to a
    value that is not empty, each with that value; the attribute holds a
    mapping also when the section sets no checksum. *)
Theorem hashes_mapping_entries (sec : gmap string string) :
  ∃ d, ExtraDepsSection_getattr sec _passthrough_properties _hashes "hashes"
       = AttrDict d ∧
       (∀ h v, d !! h = Some v ↔
               h ∈ _hashes ∧ sec !! h = Some v ∧ Str.nonempty v = true) ∧
       ((∀ h, h ∈ _hashes → sec !! h = None) → d = ∅).
Proof.
  destruct (hashes_entries sec) as (d & Hd & Hentries).
  exists d. split; [done|]. split; [done|].
  intros Hnone. apply map_eq. intros h. rewrite lookup_empty.
  destruct (d !! h) as [v|] eqn:Hh; [|done].
  apply Hentries in Hh as (Hin & Hv & _). by rewrite (Hnone h Hin) in Hv.
Qed.

Lemma hashes_mapping_entries_witness :
  ∃ d, ExtraDepsSection_getattr (∅ : gmap string string) _passthrough_properties
         _hashes "hashes" = AttrDict d ∧ d = ∅.
Proof.
  destruct (hashes_mapping_entries ∅) as (d & Hd & _ & Hempty).
  exists d. split; [exact Hd|]. apply Hempty. intros h _. apply lookup_empty.
Defined.

Lemma section_schema_required required optional alternatives
    (d : gmap string string) k :
  section_schema required optional alternatives d = true →
  k ∈ required → ∃ v, d !! k = Some v ∧ Str.nonempty v = true.
Proof.
  intros H Hk. pose proof H as H'. unfold section_schema in H.
  apply andb_prop in H as [H _]. apply andb_prop in H as [H _].
  rewrite forallb_forall in H.
  specialize (H k (proj1 (list_elem_of_In _ _) Hk)).
  apply has_key_Some in H as [v Hv].
  exists v. split; [done|]. by eapply section_schema_nonempty.
Qed.

Lemma section_schema_alternative required optional a alternatives
    (d : gmap string string) :
  section_schema required optional (a :: alternatives) d = true →
  ∃ h v, h ∈ a :: alternatives ∧ d !! h = Some v ∧ Str.nonempty v = true.
Proof.
  intros H. pose proof H as H'. unfold section_schema in H.
  apply andb_prop in H as [H _]. apply andb_prop in H as [_ H].
  apply existsb_exists in H as (h & Hh%list_elem_of_In & Hk).
  apply has_key_Some in Hk as [v Hv].
  exists h, v. split; [done|]. split; [done|]. by eapply section_schema_nonempty.
Qed.

Lemma section_view_on_agrees keys (sec view : gmap string string) :
  section_view sec = Some view →
  ∃ d, section_view_on keys sec = Some d ∧
       ∀ k, k ∈ keys → d !! k = view !! k.
Proof.
  intros Hview.
  destruct (section_view_on_view keys sec view Hview) as [d Hd].
  exists d. split; [done|]. intros k Hk.
  by rewrite (section_view_on_lookup _ _ _ _ Hd Hk),
    (section_view_lookup _ _ _ Hview).
Qed.

(** X9: in an [extra_deps.ini] that passed validation, every section
    exposes [version], [url] and [download_name] as strings that are not
    empty, the values of these options as the section proxy presents
    them, and a checksum mapping with at least one entry. *)
Theorem validated_extra_deps_section fs (o : Config Ini) tr i st1 s :
  read_cache o = None →
  IniConfigFile_config_data fs ExtraDepsIni_schema (mkSt o tr) = (Ok i, st1) →
  is_Some (ini_sections i !! s) → s ≠ DEFAULTSECT →
  ∃ sec view,
    ini_getitem i s = Some sec ∧ section_view sec = Some view ∧
    (∀ name, name ∈ _required_keys →
       ∃ v, view !! name = Some v ∧ Str.nonempty v = true ∧
            ExtraDepsIni_getitem_attr fs s name (mkSt o tr) = (Ok (AttrStr v), st1)) ∧
    ∃ d, ExtraDepsIni_getitem_attr fs s "hashes" (mkSt o tr) = (Ok (AttrDict d), st1) ∧
         d ≠ ∅.
Proof.
  intros Hnone H [own Hown] Hs.
  assert (Hschema : ExtraDepsIni_schema i = true).
  { unfold IniConfigFile_config_data in H.
    rewrite cache_miss in H by (simpl; by rewrite Hnone).
    apply cache_fill_Ok in H as (st' & Hp & _).
    by apply ini_parse_Ok in Hp as (i' & [= <-] & Hsch & _). }
  unfold ExtraDepsIni_schema in Hschema.
  apply andb_prop in Hschema as [_ Hall]. apply bool_decide_eq_true in Hall.
  destruct (Hall s own Hown) as [_ Hcast].
  apply dict_cast_view in Hcast as (view & Hview & Hsec).
  assert (Hitem : ini_getitem i s = Some (own ∪ ini_defaults i)).
  { unfold ini_getitem. rewrite (proj2 (String.eqb_neq s DEFAULTSECT) Hs).
    by rewrite Hown. }
  pose proof (IniConfigFile_getitem_step _ _ s _ _ _ _ H Hitem) as Hget.
  exists (own ∪ ini_defaults i), view. split; [done|]. split; [done|].
  unfold ExtraDepsIni_getitem_attr.
  split.
  - intros name Hname.
    destruct (section_schema_required _ _ _ _ name Hsec Hname) as (v & Hv & Hne).
    exists v. split; [done|]. split; [done|].
    rewrite (bind_Ok_step _ _ _ _ _ Hget).
    destruct (section_view_on_agrees
                (attr_options _passthrough_properties _hashes name) _ _ Hview)
      as (d & -> & Hd).
    unfold mret, M_ret. rewrite required_key_exposed by done.
    rewrite Hd, Hv; [done|].
    unfold attr_options. rewrite bool_decide_eq_true_2; [by left|].
    unfold _passthrough_properties. apply elem_of_app. by left.
  - rewrite (bind_Ok_step _ _ _ _ _ Hget).
    destruct (section_view_on_agrees
                (attr_options _passthrough_properties _hashes "hashes") _ _ Hview)
      as (d' & -> & Hd').
    destruct (hashes_entries d') as (d & Hd & Hentries).
    exists d. unfold mret, M_ret. rewrite Hd. split; [done|].
    destruct (section_schema_alternative _ _ _ _ _ Hsec) as (h & v & Hh & Hv & Hne).
    intros ->. assert (Hl : (∅ : gmap string string) !! h = Some v).
    { apply Hentries. split; [done|]. split; [|done].
      rewrite Hd'; [done|].
      unfold attr_options. rewrite bool_decide_eq_false_2 by compute_done.
      done. }
    by rewrite lookup_empty in Hl.
Qed.

Lemma validated_extra_deps_section_witness :
  let fs := MoreExamples.fs_good_deps in
  let o := Examples.extra_deps_file in
  let i := mkIni ∅ {[ "dep" := MoreExamples.good_section ]} in
  let st1 := mkSt (set_read_cache (Some i) o) [OpRead ["extra_deps.ini"]] in
  ∃ sec view,
    ini_getitem i "dep" = Some sec ∧ section_view sec = Some view ∧
    (∀ name, name ∈ _required_keys →
       ∃ v, view !! name = Some v ∧ Str.nonempty v = true ∧
            ExtraDepsIni_getitem_attr fs "dep" name (mkSt o []) = (Ok (AttrStr v), st1)) ∧
    ∃ d, ExtraDepsIni_getitem_attr fs "dep" "hashes" (mkSt o []) = (Ok (AttrDict d), st1) ∧
         d ≠ ∅.
Proof.
  intros fs o i st1.
  apply (validated_extra_deps_section fs o [] i st1 "dep").
  - reflexivity.
  - vm_compute. reflexivity.
  - eexists. vm_compute. reflexivity.
  - discriminate.
Defined.

(** ** The patches directory *)

(** X10: a patches directory bound with [set_patches_dir] is what
    [_get_patches_dir] returns, without a look at the filesystem; unbound,
    it is the [patches] directory beside the list file, checked on the
    first use and kept from then on.  Where the directory is missing,
    both raise [NotADirectoryError] and leave the object unbound, so that
    the next call checks again. *)
Theorem patches_dir_binding fs (c : Child) tr :
  (∀ p st1, set_patches_dir fs p (mkSt c tr) = (Ok tt, st1) →
     (∃ es, fs_lookup fs p = Some (Dir es)) ∧
     _get_patches_dir fs st1 = (Ok p, st1)) ∧
  (∀ p e st1, set_patches_dir fs p (mkSt c tr) = (Raise e, st1) →
     e = NotADirectoryError p ∧ self st1 = c) ∧
  (∀ p st1, _get_patches_dir fs (mkSt c tr) = (Ok p, st1) →
     patches_dir (self st1) = Some p ∧
     _get_patches_dir fs st1 = (Ok p, st1) ∧
     (patches_dir c = None →
      p = path_parent (path (file c)) // "patches" ∧
      ∃ es, fs_lookup fs p = Some (Dir es))) ∧
  (∀ e st1, _get_patches_dir fs (mkSt c tr) = (Raise e, st1) →
     patches_dir c = None ∧ self st1 = c ∧
     e = NotADirectoryError (path_parent (path (file c)) // "patches")).
Proof.
  assert (Hget : ∀ (c' : Child) tr' p,
            patches_dir c' = Some p →
            _get_patches_dir fs (mkSt c' tr') = (Ok p, mkSt c' tr')).
  { intros c' tr' p Hp. unfold _get_patches_dir, mbind, M_bind, get_self. simpl.
    by rewrite Hp. }
  split; [|split; [|split]].
  - intros p st1 H.
    unfold set_patches_dir, path_is_dir, mbind, M_bind, log, mret, M_ret,
      get_self, put_self, raise in H. simpl in H.
    destruct (fs_lookup fs p) as [[es|? ?]|]; simpl in H; simplify_eq.
    split; [by eexists|]. by apply Hget.
  - intros p e st1 H.
    unfold set_patches_dir, path_is_dir, mbind, M_bind, log, mret, M_ret,
      get_self, put_self, raise in H. simpl in H.
    destruct (fs_lookup fs p) as [[es|? ?]|]; simpl in H; by simplify_eq.
  - intros p st1 H.
    destruct (patches_dir c) as [p0|] eqn:Hc.
    + rewrite (Hget c tr p0 Hc) in H. simplify_eq. simpl.
      split; [done|]. split; [by apply Hget|done].
    + unfold _get_patches_dir, path_is_dir, mbind, M_bind, log, mret, M_ret,
        get_self, put_self, raise in H. simpl in H. rewrite Hc in H.
      destruct (fs_lookup fs _) as [[es|? ?]|] eqn:Hfs; simpl in H; simplify_eq.
      simpl. split; [done|]. split; [by apply Hget|]. intros _. split; [done|].
      by eexists.
  - intros e st1 H.
    destruct (patches_dir c) as [p0|] eqn:Hc.
    + by rewrite (Hget c tr p0 Hc) in H.
    + unfold _get_patches_dir, path_is_dir, mbind, M_bind, log, mret, M_ret,
        get_self, put_self, raise in H. simpl in H. rewrite Hc in H.
      destruct (fs_lookup fs _) as [[es|? ?]|] eqn:Hfs; simpl in H; by simplify_eq.
Qed.

Lemma patches_dir_binding_witness :
  let fs := MoreExamples.fs_bundle true in
  let c := MoreExamples.patches_child
             (Examples.bundle_path "a" // PATCH_ORDER_LIST) None in
  let bound := set_patches (Some ["resources"; PATCHES_DIR]) c in
  set_patches_dir fs ["resources"; PATCHES_DIR] (mkSt c [])
    = (Ok tt, mkSt bound [OpIsDir ["resources"; PATCHES_DIR]]) ∧
  _get_patches_dir fs (mkSt bound [OpIsDir ["resources"; PATCHES_DIR]])
    = (Ok ["resources"; PATCHES_DIR], mkSt bound [OpIsDir ["resources"; PATCHES_DIR]]) ∧
  ∃ e st1, _get_patches_dir fs (mkSt c []) = (Raise e, st1) ∧
           self st1 = c ∧
           e = NotADirectoryError (Examples.bundle_path "a" // "patches").
Proof.
  intros fs c bound.
  assert (Hset : set_patches_dir fs ["resources"; PATCHES_DIR] (mkSt c [])
                 = (Ok tt, mkSt bound [OpIsDir ["resources"; PATCHES_DIR]]))
    by reflexivity.
  split; [exact Hset|]. split.
  - apply (proj1 (patches_dir_binding fs c []) _ _ Hset).
  - destruct (_get_patches_dir fs (mkSt c [])) as [[p|e] st1] eqn:Hget.
    + vm_compute in Hget. discriminate.
    + exists e, st1. split; [done|].
      apply (proj2 (proj2 (proj2 (patches_dir_binding fs c []))) e st1 Hget).
Defined.

(** ** The files of a bundle *)

Lemma path_name_div d n : path_name (d // n) = n.
Proof. unfold path_name, path_div. by rewrite last_last. Qed.

Lemma path_div_inj_dir d1 d2 n : d1 // n = d2 // n → d1 = d2.
Proof. unfold path_div. by intros ?%app_inv_tail. Qed.

Lemma entry_exists fs d n :
  n ∈ entries_of fs d → is_Some (fs_lookup fs (d // n)).
Proof.
  unfold entries_of, path_div. rewrite fs_lookup_app.
  destruct (fs_lookup fs d) as [[es|? ?]|]; try by intros ?%elem_of_nil.
  simpl. intros Hn. induction es as [|[k a] es IH]; [by apply elem_of_nil in Hn|].
  simpl in *. destruct (String.eqb k n) eqn:Hk; [by eexists|].
  apply IH. apply elem_of_cons in Hn as [->|Hn]; [|done].
  by rewrite String.eqb_refl in Hk.
Qed.

Lemma iterdir_entries fs {O} d (st : St O) :
  (∃ es, fs_lookup fs d = Some (Dir es)) →
  iterdir fs d st = (Ok (entries_of fs d), mkSt (self st) (trace st ++ [OpIterdir d])).
Proof.
  intros [es Hes]. unfold iterdir, entries_of, mbind, M_bind, log, mret, M_ret.
  simpl. by rewrite Hes.
Qed.

Section BundleScan.
Context (fs : Node).

Local Abbreviation scanned := (scanned fs).

Lemma bundle_scan_known {O} ds d done names (fd : gmap string Child) (st : St O) :
  d ∉ ds →
  NoDup (done ++ names) →
  (∀ n, n ∈ names → n ∈ entries_of fs d ∧ is_Some (assoc n _FILE_DEF)) →
  (∀ n, fd !! n = merged_file n (scanned ds d done n)) →
  ∃ fd' ops,
    bundle_scan fs d fd names st = (Ok fd', mkSt (self st) (trace st ++ ops)) ∧
    ∀ n, fd' !! n = merged_file n (scanned ds d (done ++ names) n).
Proof.
  intros Hd. revert done fd st.
  induction names as [|n rest IH]; intros done fd st Hnd Hnames Hfd.
  - exists fd, []. simpl. unfold mret, M_ret. rewrite !app_nil_r, St_eta. done.
  - assert (Hn : n ∉ done).
    { apply NoDup_app in Hnd as (_ & Hdis & _). intros Hin.
      apply (Hdis n Hin). by left. }
    destruct (Hnames n) as [Hentry Hknown]; [by left|].
    assert (Hscan : scanned ds d done n = dirs_with fs n ds).
    { unfold scanned. rewrite bool_decide_eq_false_2 by done. apply app_nil_r. }
    assert (Hother : ∀ m, m ≠ n →
              scanned ds d (done ++ [n]) m = scanned ds d done m).
    { intros m Hm. unfold scanned. f_equal. erewrite bool_decide_ext; [done|].
      rewrite elem_of_app, list_elem_of_singleton. split; [by intros [?|?]|by left]. }
    assert (Hthis : scanned ds d (done ++ [n]) n = dirs_with fs n ds ++ [d]).
    { unfold scanned. rewrite bool_decide_eq_true_2; [done|].
      apply elem_of_app. right. by left. }
    assert (Hnext : ∀ fd1 (st1 : St O),
              (∀ m, fd1 !! m = merged_file m (scanned ds d (done ++ [n]) m)) →
              ∃ fd' ops,
                bundle_scan fs d fd1 rest st1
                = (Ok fd', mkSt (self st1) (trace st1 ++ ops)) ∧
                ∀ m, fd' !! m = merged_file m (scanned ds d (done ++ n :: rest) m)).
    { intros fd1 st1 Hfd1.
      destruct (IH (done ++ [n]) fd1 st1) as (fd' & ops & Hrun & Hfd').
      - by rewrite <- (assoc_L (++)).
      - intros m Hm. apply Hnames. by right.
      - done.
      - exists fd', ops. split; [done|]. intros m.
        rewrite Hfd'. by rewrite <- (assoc_L (++)). }
    rewrite bundle_scan_cons. pose proof (Hfd n) as Hfdn. rewrite Hscan in Hfdn.
    destruct (fd !! n) as [child|] eqn:Hchild.
    + (* a further layer of a file that the bundle has *)
      unfold merged_file in Hfdn.
      destruct (file_class n) as [c|] eqn:Hc; [|done].
      destruct (dirs_with fs n ds) as [|d0 ds0] eqn:Hds; [done|].
      injection Hfdn as ->.
      assert (Hnew : d // n ∉ (λ d', d' // n) <$> (d0 :: ds0)).
      { intros (d' & Heq & Hd')%list_elem_of_fmap.
        apply path_div_inj_dir in Heq as <-. apply Hd.
        rewrite <- Hds in Hd'. unfold dirs_with in Hd'.
        by apply list_elem_of_filter in Hd' as [_ ?]. }
      destruct (entry_exists fs d n Hentry) as [nd Hnd'].
      assert (Hcall : ∀ st0 : St O,
                call (mkConfig (d0 // n) n ((λ d', d' // n) <$> (d0 :: ds0)) None)
                  (update_last_path (D := Parsed) fs (d // n)) st0
                = (Ok (true, mkConfig (d0 // n) n
                               (((λ d', d' // n) <$> (d0 :: ds0)) ++ [d // n]) None),
                   mkSt (self st0) (trace st0 ++ [OpExists (d // n)]))).
      { intros st0. unfold call, call_obj, mbind, M_bind.
        rewrite update_last_path_cases. simpl.
        rewrite bool_decide_eq_false_2 by done. by rewrite Hnd'. }
      simpl. rewrite (bind_Ok_step _ _ _ _ _ (Hcall st)).
      edestruct Hnext as (fd' & ops & Hrun & Hfd'); last first.
      * exists fd', ([OpExists (d // n)] ++ ops). rewrite Hrun. simpl.
        rewrite <- (assoc_L (++)). split; [done|exact Hfd'].
      * intros m. destruct (decide (m = n)) as [->|Hm].
        -- rewrite lookup_insert_eq, Hthis. unfold merged_file.
           rewrite Hc. simpl. by rewrite fmap_app.
        -- rewrite lookup_insert_ne by done. rewrite Hother by done. apply Hfd.
    + (* a name that the bundle does not have yet *)
      destruct Hknown as [oc Hoc]. rewrite Hoc.
      destruct oc as [c|].
      * assert (Hc : file_class n = Some c) by (unfold file_class; by rewrite Hoc).
        unfold merged_file in Hfdn. rewrite Hc in Hfdn.
        destruct (dirs_with fs n ds) as [|d0 ds0] eqn:Hds; [|done].
        destruct (entry_exists fs d n Hentry) as [nd Hnd'].
        assert (Hinit : ∀ st0 : St O,
                  Config_init (D := Parsed) fs (d // n) None st0
                  = (Ok (mkConfig (d // n) n [d // n] None),
                     mkSt (self st0) (trace st0 ++ [OpExists (d // n)]))).
        { intros st0. unfold Config_init, path_exists, mbind, M_bind, log,
            mret, M_ret. simpl. by rewrite Hnd', path_name_div. }
        rewrite (bind_Ok_step _ _ _ _ _ (Hinit st)).
        edestruct Hnext as (fd' & ops & Hrun & Hfd'); last first.
        -- exists fd', ([OpExists (d // n)] ++ ops). rewrite Hrun. simpl.
           rewrite <- (assoc_L (++)). split; [done|exact Hfd'].
        -- intros m. destruct (decide (m = n)) as [->|Hm].
           ++ rewrite lookup_insert_eq, Hthis. unfold merged_file.
              by rewrite Hc.
           ++ rewrite lookup_insert_ne by done. rewrite Hother by done. apply Hfd.
      * assert (Hc : file_class n = None) by (unfold file_class; by rewrite Hoc).
        edestruct Hnext as (fd' & ops & Hrun & Hfd'); last first.
        -- exists fd', ops. split; [exact Hrun|exact Hfd'].
        -- intros m. destruct (decide (m = n)) as [->|Hm].
           ++ rewrite Hchild. unfold merged_file. by rewrite Hc.
           ++ rewrite Hother by done. apply Hfd.
Qed.

Lemma scanned_all ds d n :
  scanned ds d (entries_of fs d) n = dirs_with fs n (ds ++ [d]).
Proof.
  unfold scanned, dirs_with. rewrite filter_app. f_equal.
  rewrite filter_cons, filter_nil. by case_bool_decide; case_decide.
Qed.

Lemma scanned_none ds d n : scanned ds d [] n = dirs_with fs n ds.
Proof.
  unfold scanned. rewrite bool_decide_eq_false_2 by (by intros ?%elem_of_nil).
  apply app_nil_r.
Qed.

Lemma bundle_dirs_known {O} ds dirs (fd : gmap string Child) (st : St O) :
  NoDup (ds ++ dirs) →
  Forall (known_entries fs) dirs →
  (∀ n, fd !! n = merged_file n (dirs_with fs n ds)) →
  ∃ fd' ops,
    bundle_dirs fs fd dirs st = (Ok fd', mkSt (self st) (trace st ++ ops)) ∧
    ∀ n, fd' !! n = merged_file n (dirs_with fs n (ds ++ dirs)).
Proof.
  revert ds fd st. induction dirs as [|d rest IH]; intros ds fd st Hnd Hknown Hfd.
  - exists fd, []. simpl. unfold mret, M_ret. by rewrite !app_nil_r, St_eta.
  - apply Forall_cons in Hknown as [(Hdir & Hnde & Hnames) Hrest].
    simpl. rewrite (bind_Ok_step _ _ _ _ _ (iterdir_entries fs d st Hdir)).
    destruct (bundle_scan_known ds d [] (entries_of fs d) fd
                (mkSt (self st) (trace st ++ [OpIterdir d])))
      as (fd1 & ops1 & Hscan & Hfd1).
    + apply NoDup_app in Hnd as (_ & Hdis & _). intros Hin.
      apply (Hdis d Hin). by left.
    + done.
    + intros n Hn. split; [done|by apply Hnames].
    + intros n. rewrite scanned_none. apply Hfd.
    + simpl in Hscan. rewrite (bind_Ok_step _ _ _ _ _ Hscan).
      destruct (IH (ds ++ [d]) fd1 (mkSt (self st) ((trace st ++ [OpIterdir d]) ++ ops1)))
        as (fd' & ops & Hrun & Hfd').
      * by rewrite <- (assoc_L (++)).
      * done.
      * intros n. rewrite Hfd1. simpl. by rewrite scanned_all.
      * exists fd', ([OpIterdir d] ++ ops1 ++ ops). rewrite Hrun. simpl.
        split; [by rewrite <- !(assoc_L (++))|].
        intros n. rewrite Hfd'. by rewrite <- (assoc_L (++)).
Qed.
End BundleScan.

Lemma bundle_files_known fs (o : Config (gmap string Child)) tr :
  read_cache o = None →
  NoDup (path_order o) →
  Forall (known_entries fs) (path_order o) →
  ∃ fd st1,
    ConfigBundle_config_data fs (mkSt o tr) = (Ok fd, st1) ∧
    self st1 = set_read_cache (Some fd) o ∧
    ∀ key,
      fd !! key = merged_file key (dirs_with fs key (path_order o)) ∧
      ConfigBundle_getitem fs key (mkSt o tr)
      = (match merged_file key (dirs_with fs key (path_order o)) with
         | Some c => Ok c
         | None => Raise (KeyError key)
         end, st1).
Proof.
  intros Hnone Hnd Hknown.
  destruct (bundle_dirs_known fs [] (path_order o) ∅ (mkSt o tr))
    as (fd & ops & Hrun & Hfd); [done|done|..].
  { intros n. rewrite lookup_empty. unfold merged_file, dirs_with.
    rewrite filter_nil. by destruct (file_class n). }
  simpl in Hrun, Hfd.
  assert (Hcd : ConfigBundle_config_data fs (mkSt o tr)
                = (Ok fd, mkSt (set_read_cache (Some fd) o) (tr ++ ops))).
  { unfold ConfigBundle_config_data.
    rewrite cache_miss by (simpl; by rewrite Hnone).
    apply (cache_fill_step _ (mkSt o tr) (mkSt o (tr ++ ops)) fd).
    unfold ConfigBundle_parse_data, mbind at 1, M_bind at 1, get_self. simpl.
    by rewrite (bind_Ok_step _ _ _ _ _ Hrun). }
  eexists fd, _. split; [exact Hcd|]. split; [done|].
  intros key. split; [apply Hfd|].
  unfold ConfigBundle_getitem. rewrite (bind_Ok_step _ _ _ _ _ Hcd).
  rewrite Hfd. by destruct (merged_file key _).
Qed.

(** X11: in a bundle whose layers are distinct directories that hold
    nothing but names of [_FILE_DEF], [bundle[name]] is a config file of
    the class that [_FILE_DEF] gives the name, and its layered path list
    is the file of that name in every layer that has one, in the order of
    the layers of the bundle; it raises [KeyError] when no layer has the
    name, and for a name that is known and ignored. *)
Theorem bundle_file_layers fs (o : Config (gmap string Child)) tr :
  read_cache o = None →
  NoDup (path_order o) →
  Forall (known_entries fs) (path_order o) →
  ∃ fd st1,
    ConfigBundle_config_data fs (mkSt o tr) = (Ok fd, st1) ∧
    self st1 = set_read_cache (Some fd) o ∧
    ∀ key,
      fd !! key = merged_file key (dirs_with fs key (path_order o)) ∧
      ConfigBundle_getitem fs key (mkSt o tr)
      = (match merged_file key (dirs_with fs key (path_order o)) with
         | Some c => Ok c
         | None => Raise (KeyError key)
         end, st1).
Proof. apply bundle_files_known. Qed.

Lemma bundle_file_layers_witness :
  let fs := MoreExamples.fs_bundle true in
  let o := MoreExamples.bundle_obj [Examples.bundle_path "b"; Examples.bundle_path "a"] in
  ∃ fd st1,
    ConfigBundle_config_data fs (mkSt o []) = (Ok fd, st1) ∧
    self st1 = set_read_cache (Some fd) o ∧
    ∀ key,
      fd !! key = merged_file key (dirs_with fs key (path_order o)) ∧
      ConfigBundle_getitem fs key (mkSt o [])
      = (match merged_file key (dirs_with fs key (path_order o)) with
         | Some c => Ok c
         | None => Raise (KeyError key)
         end, st1).
Proof.
  intros fs o. apply (bundle_file_layers fs o []).
  - reflexivity.
  - compute_done.
  - repeat constructor; try (eexists; reflexivity); try compute_done;
      intros n Hn; vm_compute in Hn;
      repeat (apply elem_of_cons in Hn as [-> |Hn]; [by eexists|]);
      by apply elem_of_nil in Hn.
Defined.

(** The flag map of the example bundle has the layers of [b] and of [a],
    its pruning list the only layer that has one, and the metadata file
    is no config file of the bundle. *)
Example bundle_file_layers_example :
  let fs := MoreExamples.fs_bundle true in
  let o := MoreExamples.bundle_obj [Examples.bundle_path "b"; Examples.bundle_path "a"] in
  fst (ConfigBundle_getitem fs GN_FLAGS_MAP (mkSt o []))
  = Ok (mkChild ClsMappingConfigFile
          (mkConfig (Examples.bundle_path "b" // GN_FLAGS_MAP) GN_FLAGS_MAP
             [Examples.bundle_path "b" // GN_FLAGS_MAP;
              Examples.bundle_path "a" // GN_FLAGS_MAP] None) None) ∧
  fst (ConfigBundle_getitem fs PRUNING_LIST (mkSt o []))
  = Ok (mkChild ClsListConfigFile
          (mkConfig (Examples.bundle_path "b" // PRUNING_LIST) PRUNING_LIST
             [Examples.bundle_path "b" // PRUNING_LIST] None) None) ∧
  (fst (ConfigBundle_getitem fs BASEBUNDLEMETA_INI (mkSt o []))
   = Raise (KeyError BASEBUNDLEMETA_INI)).
Proof. repeat split; vm_compute; reflexivity. Qed.

Lemma bundle_scan_app fs {O} d fd ns1 ns2 (st : St O) :
  bundle_scan fs d fd (ns1 ++ ns2) st
  = (bundle_scan fs d fd ns1 ≫= λ fd', bundle_scan fs d fd' ns2) st.
Proof.
  revert fd st. induction ns1 as [|n ns1 IH]; intros fd st; [done|].
  change ((n :: ns1) ++ ns2) with (n :: (ns1 ++ ns2)).
  rewrite bundle_scan_cons. unfold mbind at 2, M_bind at 1.
  rewrite bundle_scan_cons.
  destruct (fd !! n) as [child|].
  - unfold mbind, M_bind.
    destruct (call (file child) (update_last_path fs (d // n)) st)
      as [[[b f]|e] st1]; [|done].
    apply IH.
  - destruct (assoc n _FILE_DEF) as [[c|]|]; [| apply IH | done].
    unfold mbind, M_bind.
    destruct (Config_init fs (d // n) None st) as [[f|e] st1]; [|done].
    apply IH.
Qed.

Lemma bundle_dirs_app fs {O} fd ds1 ds2 (st : St O) :
  bundle_dirs fs fd (ds1 ++ ds2) st
  = (bundle_dirs fs fd ds1 ≫= λ fd', bundle_dirs fs fd' ds2) st.
Proof.
  revert fd st. induction ds1 as [|d ds1 IH]; intros fd st; [done|].
  simpl. unfold mbind, M_bind.
  destruct (iterdir fs d st) as [[ns|e] st1]; [|done].
  destruct (bundle_scan fs d fd ns st1) as [[fd1|e] st2]; [|done].
  apply IH.
Qed.

Lemma bundle_parse_eq fs (o : Config (gmap string Child)) tr :
  ConfigBundle_parse_data fs (mkSt o tr)
  = (bundle_dirs fs ∅ (path_order o) ≫= λ fd, mret (Some fd)) (mkSt o tr).
Proof. reflexivity. Qed.

Lemma bundle_dirs_cons fs {O} fd d rest (st : St O) :
  bundle_dirs fs fd (d :: rest) st
  = (names ← iterdir fs d;
     fd' ← bundle_scan fs d fd names;
     bundle_dirs fs fd' rest) st.
Proof. reflexivity. Qed.

(** X12: a name that [_FILE_DEF] does not know, in a directory of a layer,
    makes every access to the files of the bundle raise [ValueError] for
    that directory; the bundle is left as it was, with nothing cached. *)
Theorem bundle_unknown_file fs (o : Config (gmap string Child)) tr
    (pre post : list Path) (d : Path) (ns1 ns2 : list string) (u key : string) :
  read_cache o = None →
  path_order o = pre ++ d :: post →
  NoDup (pre ++ [d]) →
  Forall (known_entries fs) pre →
  (∃ es, fs_lookup fs d = Some (Dir es)) →
  entries_of fs d = ns1 ++ u :: ns2 →
  NoDup ns1 → (∀ n, n ∈ ns1 → is_Some (assoc n _FILE_DEF)) →
  assoc u _FILE_DEF = None →
  ∃ ops,
    let e := ValueError ("Unknown files in config bundle: " +:+ path_str d) in
    let st1 := mkSt o (tr ++ ops) in
    ConfigBundle_config_data fs (mkSt o tr) = (Raise e, st1) ∧
    ConfigBundle_getitem fs key (mkSt o tr) = (Raise e, st1) ∧
    ConfigBundle_contains fs key (mkSt o tr) = (Raise e, st1).
Proof.
  intros Hnone Hpo Hnd Hpre Hdir Hentries Hnd1 Hknown1 Hu.
  destruct (bundle_dirs_known fs [] pre ∅ (mkSt o tr))
    as (fd & ops & Hrun & Hfd).
  { apply NoDup_app in Hnd as (? & _). done. }
  { done. }
  { intros n. rewrite lookup_empty. unfold merged_file, dirs_with.
    rewrite filter_nil. by destruct (file_class n). }
  simpl in Hrun, Hfd.
  destruct (bundle_scan_known fs pre d [] ns1 fd
              (mkSt o ((tr ++ ops) ++ [OpIterdir d])))
    as (fd1 & ops1 & Hscan & Hfd1).
  { apply NoDup_app in Hnd as (_ & Hdis & _). intros Hin.
    apply (Hdis d Hin). by left. }
  { done. }
  { intros n Hn. split; [|by apply Hknown1].
    rewrite Hentries. apply elem_of_app. by left. }
  { intros n. rewrite scanned_none. apply Hfd. }
  simpl in Hscan, Hfd1.
  assert (Hfd1u : fd1 !! u = None).
  { rewrite Hfd1. unfold merged_file, file_class. by rewrite Hu. }
  assert (Hparse : ConfigBundle_parse_data fs (mkSt o tr)
            = (Raise (ValueError ("Unknown files in config bundle: " +:+ path_str d)),
               mkSt o (tr ++ (ops ++ [OpIterdir d] ++ ops1)))).
  { rewrite bundle_parse_eq, Hpo.
    erewrite bind_Raise_step; [reflexivity|].
    rewrite bundle_dirs_app, (bind_Ok_step _ _ _ _ _ Hrun), bundle_dirs_cons.
    rewrite (bind_Ok_step _ _ _ _ _ (iterdir_entries fs d _ Hdir)).
    erewrite bind_Raise_step; [reflexivity|].
    rewrite Hentries, bundle_scan_app. simpl self. simpl trace.
    rewrite (bind_Ok_step _ _ _ _ _ Hscan).
    rewrite bundle_scan_cons, Hfd1u, Hu. unfold raise.
    by rewrite <- !(assoc_L (++)). }
  exists (ops ++ [OpIterdir d] ++ ops1). simpl.
  assert (Hcd : ConfigBundle_config_data fs (mkSt o tr)
            = (Raise (ValueError ("Unknown files in config bundle: " +:+ path_str d)),
               mkSt o (tr ++ (ops ++ [OpIterdir d] ++ ops1)))).
  { unfold ConfigBundle_config_data.
    rewrite cache_miss by (simpl; by rewrite Hnone).
    by apply cache_fill_Raise. }
  split; [exact Hcd|].
  unfold ConfigBundle_getitem, ConfigBundle_contains.
  by rewrite !(bind_Raise_step _ _ _ _ _ Hcd).
Qed.

Lemma bundle_unknown_file_witness :
  let fs := MoreExamples.fs_bundle true in
  let o := MoreExamples.bundle_obj
             [Examples.bundle_path "b"; Examples.bundle_path "c";
              Examples.bundle_path "a"] in
  ∃ ops,
    let e := ValueError ("Unknown files in config bundle: "
                         +:+ path_str (Examples.bundle_path "c")) in
    let st1 := mkSt o ([] ++ ops) in
    ConfigBundle_config_data fs (mkSt o []) = (Raise e, st1) ∧
    ConfigBundle_getitem fs GN_FLAGS_MAP (mkSt o []) = (Raise e, st1) ∧
    ConfigBundle_contains fs GN_FLAGS_MAP (mkSt o []) = (Raise e, st1).
Proof.
  intros fs o.
  apply (bundle_unknown_file fs o [] [Examples.bundle_path "b"]
           [Examples.bundle_path "a"] (Examples.bundle_path "c")
           [BASEBUNDLEMETA_INI] [] "README" GN_FLAGS_MAP).
  - reflexivity.
  - reflexivity.
  - compute_done.
  - repeat constructor; try (eexists; reflexivity); try compute_done;
      intros n Hn; vm_compute in Hn;
      repeat (apply elem_of_cons in Hn as [-> |Hn]; [by eexists|]);
      by apply elem_of_nil in Hn.
  - eexists. reflexivity.
  - reflexivity.
  - apply NoDup_singleton.
  - intros n ->%list_elem_of_singleton. by eexists.
  - reflexivity.
Defined.

(** ** The layers that [from_base_name] resolves *)

Section TraversalFacts.
Context (deps : string → list string).

Lemma discover_complete seen cands m :
  m ∈ cands → m ∈ seen ∨ m ∈ discover seen cands.
Proof.
  revert seen. induction cands as [|c cs IH]; intros seen Hm; simpl.
  - by apply elem_of_nil in Hm.
  - apply elem_of_cons in Hm as [->|Hm].
    + case_bool_decide; [by left|]. right. by left.
    + case_bool_decide.
      * by apply IH.
      * destruct (IH (seen ++ [c]) Hm) as [[?| ->%list_elem_of_singleton]%elem_of_app|?].
        -- by left.
        -- right. by left.
        -- right. by right.
Qed.

Lemma queue_traversal_facts F queue seen final :
  queue_traversal deps F queue seen = Some final →
  (∃ L, final = seen ++ L) ∧
  (NoDup seen → NoDup final) ∧
  ((∀ n, n ∈ seen → n ∈ queue ∨ ∀ m, m ∈ deps n → m ∈ seen) →
   ∀ n, n ∈ final → ∀ m, m ∈ deps n → m ∈ final).
Proof.
  revert queue seen. induction F as [|F IH]; intros [|x q] seen H; simpl in H;
    try discriminate.
  - simplify_eq. split; [exists []; by rewrite app_nil_r|]. split; [done|].
    intros Hinv n Hn m Hm. destruct (Hinv n Hn) as [?%elem_of_nil|?]; [done|auto].
  - simplify_eq. split; [exists []; by rewrite app_nil_r|]. split; [done|].
    intros Hinv n Hn m Hm. destruct (Hinv n Hn) as [?%elem_of_nil|?]; [done|auto].
  - apply IH in H as ((L & ->) & Hnd & Hclosed). split; [|split].
    + exists (discover seen (deps x) ++ L). by rewrite (assoc_L (++)).
    + intros Hs. apply Hnd. apply NoDup_app. split; [done|].
      split; [|apply discover_NoDup]. intros n Hn [_ Hn']%discover_elem. done.
    + intros Hinv. apply Hclosed. intros n [Hn|Hn]%elem_of_app.
      * destruct (Hinv n Hn) as [[->|Hq]%elem_of_cons|Hd].
        -- right. intros m Hm.
           destruct (discover_complete seen (deps x) m Hm);
             apply elem_of_app; [by left|by right].
        -- left. apply elem_of_app. by left.
        -- right. intros m Hm. apply elem_of_app. left. by apply Hd.
      * left. apply elem_of_app. by right.
Qed.
End TraversalFacts.

Section LayerFacts.
Context (fs : Node) (res : Path) (CBD : string).

Local Abbreviation dir := (config_bundles_dir res CBD).
Local Abbreviation bp := (path_div (config_bundles_dir res CBD)).
Local Abbreviation deps_of := (declared_depends fs (config_bundles_dir res CBD)).

Local Abbreviation kept := (kept fs).

Lemma kept_refl nb : kept nb nb.
Proof. repeat split; auto. Qed.

Lemma kept_trans nb0 nb1 nb2 : kept nb0 nb1 → kept nb1 nb2 → kept nb0 nb2.
Proof.
  intros (? & ? & ? & Ha) (? & ? & ? & Hb). repeat split; try congruence.
  intros p Hp. destruct (Hb p Hp) as [?|?]; auto.
Qed.

Lemma for_depends_kept depends nb pending (st st' : St unit) nb' pending' :
  for_depends fs res CBD depends nb pending st = (Ok (nb', pending'), st') →
  kept nb nb'.
Proof.
  revert nb pending st. induction depends as [|d ds IH]; intros nb pending st H;
    simpl in H.
  - unfold mret, M_ret in H. simplify_eq. apply kept_refl.
  - apply bind_Ok_inv in H as ([added nb1] & st1 & Hcall & H).
    assert (Hk : kept nb nb1).
    { unfold call, call_obj, mbind, M_bind in Hcall.
      rewrite update_first_path_cases in Hcall. simpl in Hcall.
      case_bool_decide; simpl in Hcall.
      - unfold mret, M_ret in Hcall. simplify_eq. apply kept_refl.
      - destruct (fs_lookup fs (bp d)) eqn:Hfs; simpl in Hcall; [|discriminate].
        unfold mret, M_ret in Hcall. simplify_eq. repeat split; try done.
        simpl. intros p [->|Hp]%elem_of_cons; [right; by rewrite Hfs|by left]. }
    destruct added; apply IH in H; by eapply kept_trans.
Qed.

Lemma explore_kept fuel nb pending known (st st' : St unit) nb' :
  explore fs res CBD fuel nb pending known st = (Ok nb', st') → kept nb nb'.
Proof.
  revert nb pending known st. induction fuel as [|fuel IH];
    intros nb pending known st H; simpl in H.
  - destruct (deque_pop pending) as [[x q]|]; [discriminate|].
    unfold mret, M_ret in H. simplify_eq. apply kept_refl.
  - destruct (deque_pop pending) as [[x q]|].
    2:{ unfold mret, M_ret in H. simplify_eq. apply kept_refl. }
    case_bool_decide; [discriminate|].
    apply bind_Ok_inv in H as (meta & st1 & _ & H).
    apply bind_Ok_inv in H as ([deps meta'] & st2 & _ & H).
    apply bind_Ok_inv in H as ([nb1 pending1] & st3 & Hfor & H).
    apply for_depends_kept in Hfor. apply IH in H. by eapply kept_trans.
Qed.

(** An access through the cache changes no attribute but the cache. *)
Lemma cache_mixin_only_cache {D} (truthy : D → bool) parse
    (st st' : St (Config D)) r :
  keeps_self parse →
  CacheConfigMixin_config_data truthy parse st = (r, st') →
  (∃ c, self st' = set_read_cache c (self st)) ∧
  (∀ e, r = Raise e → self st' = self st).
Proof.
  intros Hp H.
  assert (Hsame : ∃ c, self st = set_read_cache c (self st)).
  { exists (read_cache (self st)). by destruct (self st). }
  assert (Hfill : ∀ r st', cache_fill parse st = (r, st') →
            (∃ c, self st' = set_read_cache c (self st)) ∧
            (∀ e, r = Raise e → self st' = self st)).
  { clear H r st'. intros r st' H. unfold cache_fill, ConfigABC_config_data in H.
    apply bind_inv in H as [(d & st1 & Hd & H)|(e & Hraise & ->)].
    - unfold mbind, M_bind, get_self, put_self, mret, M_ret in H. simpl in H.
      simplify_eq. simpl. split; [|done].
      apply bind_inv in Hd as [(pd & st2 & Hpd & Hd)|(e & Hraise & ?)]; [|done].
      destruct pd; unfold mret, M_ret, raise in Hd; simplify_eq.
      rewrite (Hp _ _ _ Hpd). by eexists.
    - assert (self st' = self st) as ->; [|by split].
      apply bind_inv in Hraise as [(pd & st2 & Hpd & Hd)|(e' & Hraise & ?)].
      + destruct pd; unfold mret, M_ret, raise in Hd; simplify_eq.
        by rewrite (Hp _ _ _ Hpd).
      + by rewrite (Hp _ _ _ Hraise). }
  unfold CacheConfigMixin_config_data, mbind at 1, M_bind at 1, get_self in H.
  simpl in H. destruct (read_cache (self st)) as [d|]; [|by eapply Hfill].
  destruct (truthy d); [|by eapply Hfill].
  unfold mret, M_ret in H. simplify_eq. by split.
Qed.

(** What the [try] statement does to the bundle: nothing but to the
    cache; and a patch order in the cache has its patches directory bound
    when the cache was empty before. *)
Lemma bind_patches_dir_Ok nb (st st' : St unit) b :
  bind_patches_dir fs res nb st = (Ok b, st') →
  (∃ c, b = set_read_cache c nb) ∧
  (read_cache nb = None →
   ∀ d c, read_cache b = Some d → d !! PATCH_ORDER_LIST = Some c →
          patches_dir c = Some (res // PATCHES_DIR) ∧
          ∃ es, fs_lookup fs (res // PATCHES_DIR) = Some (Dir es)).
Proof.
  unfold bind_patches_dir. intros H.
  apply bind_Ok_inv in H as ([r0 nb'] & st1 & Hcall & H).
  unfold call_obj in Hcall.
  destruct (ConfigBundle_patches fs (mkSt nb (trace st))) as [r1 st2] eqn:Hrun.
  simplify_eq.
  unfold ConfigBundle_patches in Hrun.
  apply bind_inv in Hrun as [(d0 & st3 & Hcd & Hrun)|(e & Hraise & ->)].
  - pose proof Hcd as Hcd'. unfold ConfigBundle_config_data in Hcd'.
    apply cache_mixin_only_cache in Hcd' as [[c0 Hc0] _];
      [|apply bundle_parse_facts]. simpl in Hc0.
    assert (Hcache : read_cache nb = None → read_cache (self st3) = Some d0).
    { intros Hnone. unfold ConfigBundle_config_data in Hcd.
      rewrite cache_miss in Hcd by (simpl; by rewrite Hnone).
      by apply cache_fill_Ok in Hcd as (st4 & _ & ->). }
    destruct (d0 !! PATCH_ORDER_LIST) as [patches|] eqn:Hpatches.
    + unfold mret, M_ret in Hrun. simplify_eq.
      apply bind_Ok_inv in H as ([u patches'] & st4 & Hset & H).
      unfold mret, M_ret in H. simplify_eq.
      unfold call, call_obj, mbind, M_bind in Hset.
      destruct (set_patches_dir fs (res // PATCHES_DIR) _) as [[[]|e] st5] eqn:Hsp;
        simpl in Hset; [|discriminate].
      unfold mret, M_ret in Hset. simplify_eq.
      split.
      * rewrite Hc0. eexists. by destruct nb.
      * intros Hnone d c Hd Hc. simpl in Hd. rewrite (Hcache Hnone) in Hd.
        simpl in Hd. simplify_eq. rewrite lookup_insert_eq in Hc. simplify_eq.
        unfold set_patches_dir, path_is_dir, mbind, M_bind, log, mret, M_ret,
          get_self, put_self, raise in Hsp. simpl in Hsp.
        destruct (fs_lookup fs (res // PATCHES_DIR)) as [[es|? ?]|];
          simpl in Hsp; simplify_eq. simpl. split; [done|by eexists].
    + unfold raise in Hrun. simplify_eq. unfold mret, M_ret in H. simplify_eq.
      split; [by eexists|].
      intros Hnone d c Hd Hc. rewrite (Hcache Hnone) in Hd. simplify_eq.
  - pose proof Hraise as Hraise'. unfold ConfigBundle_config_data in Hraise'.
    apply cache_mixin_only_cache in Hraise' as [_ Hsame];
      [|apply bundle_parse_facts].
    specialize (Hsame e eq_refl). simpl in Hsame.
    destruct e; unfold mret, M_ret, raise in H; try discriminate.
    injection H as <- <-. rewrite Hsame.
    split; [exists (read_cache nb); by destruct nb|].
    intros Hnone d c Hd. congruence.
Qed.

End LayerFacts.

Section ResolvedLayers.
Context (fs : Node) (res : Path) (CBD : string).

Local Abbreviation dir := (config_bundles_dir res CBD).
Local Abbreviation bp := (path_div (config_bundles_dir res CBD)).
Local Abbreviation deps_of := (declared_depends fs (config_bundles_dir res CBD)).

Lemma Config_init_attrs {O D} p nm (st st' : St O) (c : Config D) :
  Config_init fs p nm st = (Ok c, st') →
  c = mkConfig p (match nm with
                  | Some n => if Str.nonempty n then n else path_name p
                  | None => path_name p
                  end) [p] None.
Proof.
  unfold Config_init, path_exists, mbind, M_bind, log, mret, M_ret, raise. simpl.
  destruct (fs_lookup fs p); simpl; intros H; by simplify_eq.
Qed.

(** [from_base_name], with the traversal that gave the layers. *)
Lemma from_base_name_Ok nm (st st' : St unit) b :
  from_base_name fs res CBD nm st = (Ok b, st') →
  ∃ L,
    path_order b = bp <$> (reverse L ++ [nm]) ∧
    NoDup (nm :: L) ∧
    (∀ n, n ∈ nm :: L → ∀ m, m ∈ deps_of n → m ∈ nm :: L) ∧
    path b = bp nm ∧ name b = nm ∧
    (∀ p, p ∈ path_order b → is_Some (fs_lookup fs p)) ∧
    ∃ nb st1, read_cache nb = None ∧ path_order nb = path_order b ∧
              bind_patches_dir fs res nb st1 = (Ok b, st').
Proof.
  unfold from_base_name. intros H.
  apply bind_Ok_inv in H as (nb & st1 & Hinit & H).
  pose proof (Config_init_Ok _ _ _ _ _ _ Hinit) as (Hex & _ & _).
  apply Config_init_attrs in Hinit. rewrite path_name_div in Hinit.
  apply bind_Ok_inv in H as (nb' & st2 & Hloop & H).
  pose proof (explore_kept _ _ _ _ _ _ _ _ _ _ Hloop) as (Hpath & Hname & Hcache & Hlayers).
  change [nm] with (reverse [nm]) in Hloop.
  eapply (explore_spec _ _ _ _ _ _ _ [nm]) in Hloop; [|by subst nb|..].
  2:{ apply NoDup_singleton. }
  2:{ intros n ->%list_elem_of_singleton. by apply bundle_exists_name. }
  2:{ done. }
  2:{ intros n ?%elem_of_empty. done. }
  2:{ apply NoDup_singleton. }
  2:{ intros n _ ?%elem_of_empty. done. }
  2:{ rewrite num_bundles_names. simpl. lia. }
  destruct Hloop as (final & Hq & Hfinal).
  apply queue_traversal_facts in Hq as ((L & ->) & Hnd & Hclosed).
  pose proof (bind_patches_dir_Ok _ _ _ _ _ _ H) as [[c Hb] _].
  exists L. simpl in *.
  assert (Hpo : path_order b = path_order nb') by (by subst b).
  split; [|split; [|split; [|split; [|split; [|split]]]]].
  - rewrite Hpo, Hfinal. by rewrite reverse_cons.
  - apply Hnd, NoDup_singleton.
  - apply Hclosed. intros n ->%list_elem_of_singleton. left. by left.
  - subst b nb. simpl. by rewrite Hpath.
  - subst b nb. simpl. by rewrite Hname.
  - rewrite Hpo. intros p Hp. destruct (Hlayers p Hp) as [Hin|?]; [|done].
    subst nb. simpl in Hin. by apply list_elem_of_singleton in Hin as ->.
  - exists nb', st2. split; [|done]. rewrite Hcache. by subst nb.
Qed.

Lemma deque_pop_elem {A} (q q' : list A) x :
  deque_pop q = Some (x, q') → ∀ n, n ∈ q ↔ n = x ∨ n ∈ q'.
Proof.
  unfold deque_pop. destruct (reverse q) as [|y r] eqn:Hr; [done|].
  intros H n. simplify_eq. rewrite <- (reverse_involutive q), Hr.
  rewrite !elem_of_reverse. apply elem_of_cons.
Qed.

(** A metadata object whose [depends] can be read is valid. *)
Lemma depends_valid d (m : Config Ini) tr deps st' :
  path_order m = [d // BASEBUNDLEMETA_INI] →
  read_cache m = None →
  BaseBundleMetaIni_depends fs (mkSt m tr) = (Ok deps, st') →
  valid_meta fs d.
Proof.
  intros Hpo Hnone H. unfold BaseBundleMetaIni_depends in H.
  apply bind_Ok_inv in H as (sec & st1 & Hget & _).
  unfold IniConfigFile_getitem in Hget.
  apply bind_Ok_inv in Hget as (i & st1' & Hcd & _).
  unfold IniConfigFile_config_data in Hcd.
  rewrite cache_miss in Hcd by (simpl; by rewrite Hnone).
  apply cache_fill_Ok in Hcd as (st2 & Hparse & _).
  apply ini_parse_Ok in Hparse as (i' & ? & Hs & _ & Hread). simplify_eq.
  rewrite Hpo in Hread. simpl in Hread.
  apply bind_Ok_inv in Hread as (f & st3 & Hf & Hret).
  unfold mret, M_ret in Hret. simplify_eq.
  rewrite ini_merge_empty in Hs.
  apply read_ini_Ok in Hf as [_ [t Hfile]]. by exists t, f.
Qed.

Lemma for_depends_pending (Q : Path → Prop) depends nb pending
    (st st' : St unit) nb' pending' :
  (∀ p, p ∈ path_order nb → (∃ n, n ∈ pending ∧ p = bp n) ∨ Q p) →
  for_depends fs res CBD depends nb pending st = (Ok (nb', pending'), st') →
  ∀ p, p ∈ path_order nb' → (∃ n, n ∈ pending' ∧ p = bp n) ∨ Q p.
Proof.
  revert nb pending st. induction depends as [|d ds IH]; intros nb pending st Hinv H;
    simpl in H.
  - unfold mret, M_ret in H. by simplify_eq.
  - apply bind_Ok_inv in H as ([added nb1] & st1 & Hcall & H).
    unfold call, call_obj, mbind, M_bind in Hcall.
    rewrite update_first_path_cases in Hcall. simpl in Hcall.
    case_bool_decide; simpl in Hcall.
    + unfold mret, M_ret in Hcall. simplify_eq. by eapply IH.
    + destruct (fs_lookup fs (bp d)) eqn:Hfs; simpl in Hcall; [|discriminate].
      unfold mret, M_ret in Hcall. simplify_eq. eapply IH; [|exact H].
      simpl. intros p [-> |Hp]%elem_of_cons.
      * left. exists d. split; [by left|done].
      * destruct (Hinv p Hp) as [(k & Hk & ->)|HQ]; [|by right].
        left. exists k. split; [by right|done].
Qed.

Lemma explore_valid fuel nb pending known (st st' : St unit) nb' :
  (∀ p, p ∈ path_order nb → (∃ n, n ∈ pending ∧ p = bp n) ∨ valid_meta fs p) →
  explore fs res CBD fuel nb pending known st = (Ok nb', st') →
  ∀ p, p ∈ path_order nb' → valid_meta fs p.
Proof.
  revert nb pending known st. induction fuel as [|fuel IH];
    intros nb pending known st Hinv H; simpl in H.
  - destruct (deque_pop pending) as [[x q]|] eqn:Hpop; [discriminate|].
    unfold mret, M_ret in H. simplify_eq.
    assert (pending = []) as ->.
    { unfold deque_pop in Hpop. destruct (reverse pending) eqn:Hr; [|done].
      by rewrite <- (reverse_involutive pending), Hr. }
    intros p Hp. destruct (Hinv p Hp) as [(n & Hn & _)|?]; [|done].
    by apply elem_of_nil in Hn.
  - destruct (deque_pop pending) as [[x q]|] eqn:Hpop.
    2:{ unfold mret, M_ret in H. simplify_eq.
        assert (pending = []) as ->.
        { unfold deque_pop in Hpop. destruct (reverse pending) eqn:Hr; [|done].
          by rewrite <- (reverse_involutive pending), Hr. }
        intros p Hp. destruct (Hinv p Hp) as [(n & Hn & _)|?]; [|done].
        by apply elem_of_nil in Hn. }
    case_bool_decide; [discriminate|].
    apply bind_Ok_inv in H as (meta & st1 & Hinit & H).
    apply bind_Ok_inv in H as ([deps meta'] & st2 & Hdeps & H).
    apply bind_Ok_inv in H as ([nb1 pending1] & st3 & Hfor & H).
    apply Config_init_attrs in Hinit.
    assert (Hx : valid_meta fs (bp x)).
    { unfold call, call_obj, mbind, M_bind in Hdeps.
      destruct (BaseBundleMetaIni_depends fs _) as [[ds|e] st4] eqn:Hrun;
        simpl in Hdeps; [|discriminate].
      eapply depends_valid; [| |exact Hrun]; by subst meta. }
    eapply IH; [|exact H]. eapply for_depends_pending; [|exact Hfor].
    intros p Hp. destruct (Hinv p Hp) as [(n & Hn & ->)|?]; [|by right].
    apply (deque_pop_elem _ _ _ Hpop) in Hn as [-> |Hn]; [by right|].
    left. by exists n.
Qed.

Lemma from_base_name_valid name (st st' : St unit) b :
  from_base_name fs res CBD name st = (Ok b, st') →
  ∀ p, p ∈ path_order b → valid_meta fs p.
Proof.
  unfold from_base_name. intros H.
  apply bind_Ok_inv in H as (nb & st1 & Hinit & H).
  apply Config_init_attrs in Hinit.
  apply bind_Ok_inv in H as (nb' & st2 & Hloop & H).
  apply bind_patches_dir_Ok in H as [[c ->] _]. simpl.
  eapply explore_valid; [|exact Hloop].
  subst nb. simpl. intros p ->%list_elem_of_singleton.
  left. exists name. split; [by left|done].
Qed.

Lemma from_base_name_NoDup name (st st' : St unit) b :
  from_base_name fs res CBD name st = (Ok b, st') → NoDup (path_order b).
Proof.
  intros H. apply from_base_name_Ok in H as (L & Hpo & Hnd & _).
  apply NoDup_cons in Hnd as [Hnotin Hnd].
  rewrite Hpo. apply NoDup_fmap_2; [intros n1 n2; apply path_div_inj|].
  apply NoDup_app. split; [by rewrite reverse_Permutation|].
  split; [|apply NoDup_singleton].
  intros n Hn Hn'. apply list_elem_of_singleton in Hn' as ->.
  by rewrite elem_of_reverse in Hn.
Qed.

Lemma get_dependencies_layers (b : Config (gmap string Child)) l name :
  path_order b = bp <$> (l ++ [name]) → get_dependencies b = l.
Proof.
  intros H. unfold get_dependencies. rewrite H, fmap_app. simpl.
  rewrite removelast_last. clear H.
  induction l as [|x l IH]; [done|]. rewrite !fmap_cons, path_name_div.
  f_equal. exact IH.
Qed.

(** X13: when the name asked for and the names that the metadata declare
    are plain names of directories, one component of a path each, the
    bundle that [from_base_name] returns is the bundle of the name asked
    for: its path is the directory of that name and its name is that
    name; its layers are distinct directories that exist, those of its
    dependencies as [get_dependencies] lists them followed by its own, and
    it is not among its own dependencies. *)
Theorem resolved_layer_structure nm (st st' : St unit) b :
  names_simple fs (config_bundles_dir res CBD) nm = true →
  from_base_name fs res CBD nm st = (Ok b, st') →
  path b = bp nm ∧ name b = nm ∧
  path_order b = bp <$> (get_dependencies b ++ [nm]) ∧
  NoDup (path_order b) ∧
  (nm ∉ get_dependencies b) ∧
  ∀ p, p ∈ path_order b → is_Some (fs_lookup fs p).
Proof.
  intros _ H. pose proof (from_base_name_NoDup _ _ _ _ H) as Hnodup.
  apply from_base_name_Ok in H
    as (L & Hpo & Hnd & _ & Hpath & Hname & Hex & _).
  rewrite (get_dependencies_layers _ _ _ Hpo).
  apply NoDup_cons in Hnd as [Hnotin Hnd].
  repeat split; try done. by rewrite elem_of_reverse.
Qed.


(** X14: the layers of the bundle that [from_base_name] returns are closed
    under the declared dependencies: whatever the metadata of a layer
    declares in [depends] is a bundle directory that exists and is a layer
    too. *)
Theorem resolved_layers_closed name (st st' : St unit) b n m :
  from_base_name fs res CBD name st = (Ok b, st') →
  bp n ∈ path_order b →
  m ∈ deps_of n →
  bp m ∈ path_order b ∧ is_Some (fs_lookup fs (bp m)).
Proof.
  intros H Hn Hm. apply from_base_name_Ok in H
    as (L & Hpo & _ & Hclosed & _ & _ & Hex & _).
  assert (Hin : ∀ k, bp k ∈ path_order b ↔ k ∈ name :: L).
  { intros k. rewrite Hpo. split.
    - intros (k' & Hk & Hk')%list_elem_of_fmap. apply path_div_inj in Hk as <-.
      rewrite elem_of_app, elem_of_reverse, list_elem_of_singleton in Hk'.
      rewrite elem_of_cons. tauto.
    - intros Hk. apply list_elem_of_fmap_2.
      rewrite elem_of_app, elem_of_reverse, list_elem_of_singleton.
      rewrite elem_of_cons in Hk. tauto. }
  assert (bp m ∈ path_order b).
  { apply Hin. eapply Hclosed; [|exact Hm]. by apply Hin. }
  split; [done|]. by apply Hex.
Qed.


(** X15: every layer of the bundle that [from_base_name] returns holds a
    metadata file that parses and that the schema accepts: the resolution
    has read the metadata of each layer, the dependencies included. *)
Theorem resolved_layers_have_metadata name (st st' : St unit) b p :
  from_base_name fs res CBD name st = (Ok b, st') →
  p ∈ path_order b → valid_meta fs p.
Proof. intros H. by apply (from_base_name_valid _ _ _ _ H). Qed.

(** X16: when the layers of the bundle that [from_base_name] returns hold
    nothing but names of [_FILE_DEF] and one of them has a patch order,
    then [resources/patches] is a directory, the bundle returned has its
    files parsed, its patch order is bound to that directory and has the
    patch order of every layer that has one as its layers, and every other
    file is the one a fresh parse of the layers gives. *)
Theorem patch_order_bound name (st st' : St unit) b :
  from_base_name fs res CBD name st = (Ok b, st') →
  Forall (known_entries fs) (path_order b) →
  (∃ p, p ∈ path_order b ∧ PATCH_ORDER_LIST ∈ entries_of fs p) →
  (∃ es, fs_lookup fs (res // PATCHES_DIR) = Some (Dir es)) ∧
  ∃ d c, read_cache b = Some d ∧ d !! PATCH_ORDER_LIST = Some c ∧
    patches_dir c = Some (res // PATCHES_DIR) ∧
    Some (set_patches None c)
    = merged_file PATCH_ORDER_LIST (dirs_with fs PATCH_ORDER_LIST (path_order b)) ∧
    ∀ key, key ≠ PATCH_ORDER_LIST →
           d !! key = merged_file key (dirs_with fs key (path_order b)).
Proof.
  intros H Hknown (p & Hp & Hhas).
  pose proof (from_base_name_NoDup _ _ _ _ H) as Hnd.
  apply from_base_name_Ok in H
    as (_ & _ & _ & _ & _ & _ & _ & nb & st1 & Hnone & Hpo & H).
  rewrite <- Hpo in *.
  destruct (bundle_files_known fs nb (trace st1) Hnone Hnd Hknown)
    as (fd & st2 & Hcd & Hself & Hkeys).
  pose proof (bind_patches_dir_Ok _ _ _ _ _ _ H) as [_ Hbound].
  specialize (Hbound Hnone).
  unfold bind_patches_dir in H.
  apply bind_Ok_inv in H as ([r0 nb'] & st3 & Hcall & H).
  unfold call_obj, ConfigBundle_patches in Hcall.
  rewrite (bind_Ok_step _ _ _ _ _ Hcd) in Hcall.
  destruct (Hkeys PATCH_ORDER_LIST) as [Hlook _].
  destruct (merged_file PATCH_ORDER_LIST _) as [c0|] eqn:Hmerged.
  2:{ unfold merged_file in Hmerged.
      change (file_class PATCH_ORDER_LIST) with (Some ClsPatchesConfig) in Hmerged.
      destruct (dirs_with fs PATCH_ORDER_LIST (path_order nb)) eqn:Hdirs; [|done].
      assert (Hin : p ∈ dirs_with fs PATCH_ORDER_LIST (path_order nb)).
      { unfold dirs_with. apply list_elem_of_filter. by split. }
      rewrite Hdirs in Hin. by apply elem_of_nil in Hin. }
  rewrite Hlook in Hcall. unfold mret, M_ret in Hcall. simplify_eq.
  apply bind_Ok_inv in H as ([u c1] & st4 & Hset & H).
  unfold mret, M_ret in H. simplify_eq.
  unfold call, call_obj, mbind, M_bind in Hset.
  destruct (set_patches_dir fs (res // PATCHES_DIR) _) as [[[]|e] st5] eqn:Hsp;
    simpl in Hset; [|discriminate].
  unfold mret, M_ret in Hset. simplify_eq.
  rewrite Hself in *. simpl in *.
  destruct (Hbound _ (self st5) eq_refl) as [Hdir Hes]; [by rewrite lookup_insert_eq|].
  split; [done|].
  exists (<[PATCH_ORDER_LIST:=self st5]> fd), (self st5).
  split; [done|]. split; [by rewrite lookup_insert_eq|]. split; [done|]. split.
  - unfold set_patches_dir, path_is_dir, mbind, M_bind, log, mret, M_ret,
      get_self, put_self, raise in Hsp. simpl in Hsp.
    destruct (fs_lookup fs (res // PATCHES_DIR)) as [[es|? ?]|];
      simpl in Hsp; simplify_eq. simpl.
    unfold merged_file in Hmerged.
    change (file_class PATCH_ORDER_LIST) with (Some ClsPatchesConfig) in Hmerged.
    destruct (dirs_with fs PATCH_ORDER_LIST (path_order nb)); by simplify_eq.
  - intros key Hkey. rewrite lookup_insert_ne by done. apply Hkeys.
Qed.

End ResolvedLayers.

Lemma resolved_layer_structure_witness :
  names_simple Examples.fs_tree (Examples.res // Examples.bundles) "a" = true ∧
  ∃ b st',
    from_base_name Examples.fs_tree Examples.res Examples.bundles "a" (mkSt tt [])
      = (Ok b, st') ∧
    get_dependencies b = ["f"; "e"; "d"; "c"; "b"] ∧
    NoDup (path_order b).
Proof.
  assert (Hnames : names_simple Examples.fs_tree (Examples.res // Examples.bundles)
                     "a" = true) by (vm_compute; reflexivity).
  split; [exact Hnames|].
  destruct (from_base_name Examples.fs_tree Examples.res Examples.bundles "a"
              (mkSt tt [])) as [[b|e] st'] eqn:H.
  - exists b, st'. split; [reflexivity|].
    pose proof (resolved_layer_structure Examples.fs_tree Examples.res
                  Examples.bundles "a" (mkSt tt []) st' b Hnames H)
      as (_ & _ & _ & Hnd & _).
    split; [|exact Hnd]. vm_compute in H. by simplify_eq.
  - vm_compute in H. discriminate.
Defined.

Lemma resolved_layers_closed_witness :
  ∃ b st',
    from_base_name Examples.fs_tree Examples.res Examples.bundles "a" (mkSt tt [])
      = (Ok b, st') ∧
    Examples.bundle_path "f" ∈ path_order b.
Proof.
  destruct (from_base_name Examples.fs_tree Examples.res Examples.bundles "a"
              (mkSt tt [])) as [[b|e] st'] eqn:H.
  - exists b, st'. split; [reflexivity|].
    apply (resolved_layers_closed _ _ _ "a" (mkSt tt []) st' b "d" "f" H).
    + vm_compute in H. simplify_eq. compute_done.
    + compute_done.
  - vm_compute in H. discriminate.
Defined.

Lemma resolved_layers_have_metadata_witness :
  ∃ b st',
    from_base_name Examples.fs_tree Examples.res Examples.bundles "a" (mkSt tt [])
      = (Ok b, st') ∧
    valid_meta Examples.fs_tree (Examples.bundle_path "f").
Proof.
  destruct (from_base_name Examples.fs_tree Examples.res Examples.bundles "a"
              (mkSt tt [])) as [[b|e] st'] eqn:H.
  - exists b, st'. split; [reflexivity|].
    apply (resolved_layers_have_metadata _ _ _ "a" (mkSt tt []) st' b _ H).
    vm_compute in H. simplify_eq. compute_done.
  - vm_compute in H. discriminate.
Defined.

Lemma patch_order_bound_witness :
  ∃ b st',
    from_base_name (MoreExamples.fs_bundle true) Examples.res Examples.bundles "a" (mkSt tt []) = (Ok b, st') ∧
    (∃ es, fs_lookup (MoreExamples.fs_bundle true) (Examples.res // PATCHES_DIR) = Some (Dir es)) ∧
    ∃ d c, read_cache b = Some d ∧ d !! PATCH_ORDER_LIST = Some c ∧
      patches_dir c = Some (Examples.res // PATCHES_DIR) ∧
      Some (set_patches None c)
      = merged_file PATCH_ORDER_LIST (dirs_with (MoreExamples.fs_bundle true) PATCH_ORDER_LIST (path_order b)) ∧
      ∀ key, key ≠ PATCH_ORDER_LIST →
             d !! key = merged_file key (dirs_with (MoreExamples.fs_bundle true) key (path_order b)).
Proof.
  destruct (from_base_name (MoreExamples.fs_bundle true) Examples.res Examples.bundles "a"
              (mkSt tt [])) as [[b|e] st'] eqn:H.
  - exists b, st'. split; [reflexivity|].
    assert (Hlayers : path_order b
                      = [Examples.bundle_path "b"; Examples.bundle_path "a"]).
    { rewrite (from_base_name_spec _ _ _ _ _ _ _ H). vm_compute. reflexivity. }
    apply (patch_order_bound (MoreExamples.fs_bundle true) _ _ "a" (mkSt tt []) st' b H).
    + rewrite Hlayers. clear. set (fs := MoreExamples.fs_bundle true).
      repeat constructor; try (eexists; reflexivity); try compute_done;
        intros n Hn; vm_compute in Hn;
        repeat (apply elem_of_cons in Hn as [-> |Hn]; [by eexists|]);
        by apply elem_of_nil in Hn.
    + exists (Examples.bundle_path "a"). rewrite Hlayers. split; compute_done.
  - vm_compute in H. discriminate.
Defined.

(** ** The exceptions of [from_base_name] *)

Section ErrorFacts.
Context (fs : Node).

Local Abbreviation RE := no_lookup_error.

Ltac solve_RE := split; intros ? ?; discriminate.

Lemma RE_missing_error p : RE (missing_error fs p).
Proof. unfold missing_error. destruct (below_file fs p); solve_RE. Qed.

Lemma raises_only_mono {O A} (P Q : Exn → Prop) (m : M O A) :
  (∀ e, P e → Q e) → raises_only P m → raises_only Q m.
Proof. intros HPQ Hm st e st' H. apply HPQ. by eapply Hm. Qed.

Lemma RE_path_exists {O} p : raises_only (O := O) RE (path_exists fs p).
Proof.
  unfold path_exists. apply raises_only_bind; [apply raises_only_log|].
  intros _. apply raises_only_ret.
Qed.

Lemma RE_path_is_dir {O} p : raises_only (O := O) RE (path_is_dir fs p).
Proof.
  unfold path_is_dir. apply raises_only_bind; [apply raises_only_log|].
  intros _. apply raises_only_ret.
Qed.

Lemma RE_read_ini {O} p : raises_only (O := O) RE (read_ini fs p).
Proof.
  unfold read_ini. apply raises_only_bind; [apply raises_only_log|].
  intros _. destruct (fs_lookup fs p) as [[?|? [?|]]|];
    first [ apply raises_only_ret
          | apply raises_only_raise; first [apply RE_missing_error | solve_RE] ].
Qed.

Lemma RE_iterdir {O} p : raises_only (O := O) RE (iterdir fs p).
Proof.
  unfold iterdir. apply raises_only_bind; [apply raises_only_log|].
  intros _. destruct (fs_lookup fs p) as [[?|? ?]|];
    first [ apply raises_only_ret
          | apply raises_only_raise; first [apply RE_missing_error | solve_RE] ].
Qed.

Lemma RE_Config_init {O D} p nm :
  raises_only (O := O) RE (Config_init (D := D) fs p nm).
Proof.
  unfold Config_init. apply raises_only_bind; [apply RE_path_exists|].
  intros e. destruct (negb e);
    first [apply raises_only_ret | apply raises_only_raise; solve_RE].
Qed.

Lemma RE_update_first {D} p : raises_only RE (update_first_path (D := D) fs p).
Proof.
  intros [o tr] e st' H. rewrite update_first_path_cases in H.
  case_bool_decide; [discriminate|].
  destruct (fs_lookup fs p); simplify_eq. solve_RE.
Qed.

Lemma RE_update_last {D} p : raises_only RE (update_last_path (D := D) fs p).
Proof.
  intros [o tr] e st' H. rewrite update_last_path_cases in H.
  case_bool_decide; [discriminate|].
  destruct (fs_lookup fs p); simplify_eq. solve_RE.
Qed.

Lemma RE_ini_read_paths {O} i0 paths :
  raises_only (O := O) RE (ini_read_paths fs i0 paths).
Proof.
  revert i0. induction paths as [|p rest IH]; intros i0; simpl.
  - apply raises_only_ret.
  - apply raises_only_bind; [apply RE_read_ini|]. intros i. apply IH.
Qed.

Lemma RE_ini_parse schema : raises_only RE (IniConfigFile_parse_data fs schema).
Proof.
  unfold IniConfigFile_parse_data.
  apply raises_only_bind; [apply raises_only_get_self|]. intros o.
  apply raises_only_bind; [apply RE_ini_read_paths|]. intros i.
  destruct (schema i);
    first [apply raises_only_ret | apply raises_only_raise; solve_RE].
Qed.

(** A parser that never returns [None] never makes [_config_data] raise
    its [TypeError]. *)
Lemma RE_cache_mixin {D} (truthy : D → bool) parse :
  raises_only RE parse →
  (∀ st st', parse st ≠ (Ok None, st')) →
  raises_only RE (CacheConfigMixin_config_data truthy parse).
Proof.
  intros Hp Hsome.
  assert (Hfill : raises_only RE (cache_fill parse)).
  { intros st e st' H. unfold cache_fill, ConfigABC_config_data in H.
    apply bind_Raise_inv in H as [H|(d & st1 & _ & H)].
    - apply bind_Raise_inv in H as [H|(r & st1 & Hr & H)]; [by eapply Hp|].
      destruct r as [d|]; [discriminate|]. by apply Hsome in Hr.
    - discriminate. }
  unfold CacheConfigMixin_config_data.
  apply raises_only_bind; [apply raises_only_get_self|]. intros o.
  destruct (read_cache o) as [d|]; [|done].
  destruct (truthy d); [apply raises_only_ret|done].
Qed.

Lemma ini_parse_Some schema st st' :
  IniConfigFile_parse_data fs schema st ≠ (Ok None, st').
Proof.
  intros H. destruct st as [o tr].
  apply ini_parse_Ok in H as (i & ? & _). discriminate.
Qed.

Lemma bundle_parse_Some st st' :
  ConfigBundle_parse_data fs st ≠ (Ok None, st').
Proof.
  unfold ConfigBundle_parse_data. intros H.
  apply bind_Ok_inv in H as (o & st1 & _ & H).
  apply bind_Ok_inv in H as (d & st2 & _ & H). discriminate.
Qed.

Lemma RE_ini_config_data schema :
  raises_only RE (IniConfigFile_config_data fs schema).
Proof.
  apply RE_cache_mixin; [apply RE_ini_parse|apply ini_parse_Some].
Qed.

(** The schema of the metadata asks for the section that [depends] and
    [display_name] read, and has read every option of it. *)
Lemma meta_schema_section i :
  BaseBundleMetaIni_schema i = true →
  ∃ sec d, ini_getitem i "basebundle" = Some sec ∧
           section_view sec = Some d ∧
           section_schema ["display_name"] ["depends"] [] d = true.
Proof.
  unfold BaseBundleMetaIni_schema. intros H. apply andb_prop in H as [_ H].
  destruct (ini_getitem i "basebundle") as [sec|]; [|done].
  apply dict_cast_view in H as (d & Hd & H). by exists sec, d.
Qed.

(** The metadata object of a bundle, as [from_base_name] creates it: no
    [KeyError] comes out of [depends]. *)
Lemma RE_depends (m : Config Ini) tr e st' :
  read_cache m = None →
  BaseBundleMetaIni_depends fs (mkSt m tr) = (Raise e, st') → RE e.
Proof.
  intros Hnone H. unfold BaseBundleMetaIni_depends in H.
  assert (Hget : ∀ st r st1,
            IniConfigFile_config_data fs BaseBundleMetaIni_schema st = (Ok r, st1) →
            BaseBundleMetaIni_schema r = true →
            ∃ sec, IniConfigFile_getitem fs BaseBundleMetaIni_schema "basebundle" st
                   = (Ok sec, st1) ∧ ini_getitem r "basebundle" = Some sec).
  { intros st r st1 Hcd Hs. apply meta_schema_section in Hs as (sec & d & Hsec & _).
    exists sec. split; [|done]. by eapply IniConfigFile_getitem_step. }
  destruct (IniConfigFile_config_data fs BaseBundleMetaIni_schema (mkSt m tr))
    as [[i|e0] st1] eqn:Hcd.
  - assert (Hs : BaseBundleMetaIni_schema i = true).
    { unfold IniConfigFile_config_data in Hcd.
      rewrite cache_miss in Hcd by (simpl; by rewrite Hnone).
      apply cache_fill_Ok in Hcd as (st2 & Hparse & _).
      apply ini_parse_Ok in Hparse as (i' & ? & Hs & _). by simplify_eq. }
    destruct (Hget _ _ _ Hcd Hs) as (sec & Hitem & Hsec).
    rewrite (bind_Ok_step _ _ _ _ _ Hitem) in H.
    destruct (has_key sec "depends") eqn:Hkey; [|discriminate].
    apply ini_config_data_stable in Hcd as [_ Hstable].
    specialize (Hstable (trace st1)). rewrite St_eta in Hstable.
    destruct (Hget _ _ _ Hstable Hs) as (sec' & Hitem' & Hsec').
    rewrite (bind_Ok_step _ _ _ _ _ Hitem') in H.
    assert (sec' = sec) as -> by congruence.
    apply has_key_Some in Hkey as [v Hv].
    apply bind_Raise_inv in H as [H|(w & st2 & _ & H)]; [|discriminate].
    unfold section_getitem in H.
    change (Str.lower "depends") with "depends" in H. rewrite Hv in H.
    destruct (interpolate sec v); unfold mret, M_ret, raise in H; simplify_eq.
    solve_RE.
  - unfold IniConfigFile_getitem in H.
    rewrite (bind_Raise_step _ _ _ _ _ (bind_Raise_step _ _ _ _ _ Hcd)) in H.
    simplify_eq. by eapply RE_ini_config_data.
Qed.

Lemma RE_for_depends res CBD deps nb pending :
  raises_only RE (for_depends fs res CBD deps nb pending).
Proof.
  revert nb pending. induction deps as [|d ds IH]; intros nb pending; simpl.
  - apply raises_only_ret.
  - apply raises_only_bind.
    + apply raises_only_call, RE_update_first.
    + intros [[] nb']; apply IH.
Qed.

(** The loop raises no such error either. *)
Lemma RE_explore res CBD fuel nb pending known :
  raises_only RE (explore fs res CBD fuel nb pending known).
Proof.
  revert nb pending known. induction fuel as [|fuel IH]; intros nb pending known;
    simpl.
  - destruct (deque_pop pending) as [[x q]|]; [|apply raises_only_ret].
    apply raises_only_raise. solve_RE.
  - destruct (deque_pop pending) as [[x q]|]; [|apply raises_only_ret].
    case_bool_decide as Hknown.
    { apply raises_only_raise. solve_RE. }
    intros st e st' H.
    apply bind_Raise_inv in H as [H|(meta & st1 & Hinit & H)].
    { by eapply RE_Config_init. }
    apply Config_init_attrs in Hinit.
    apply bind_Raise_inv in H as [H|([deps meta'] & st2 & _ & H)].
    { unfold call, call_obj, mbind, M_bind in H.
      destruct (BaseBundleMetaIni_depends fs _) as [[ds|e0] st3] eqn:Hrun;
        simpl in H; [discriminate|].
      unfold raise in H. injection H as <- <-.
      eapply RE_depends; [|exact Hrun]. by subst meta. }
    apply bind_Raise_inv in H as [H|([nb1 pending1] & st3 & _ & H)].
    { by eapply RE_for_depends. }
    by eapply IH.
Qed.

Lemma RE_bundle_scan {O} d fd names :
  raises_only (O := O) RE (bundle_scan fs d fd names).
Proof.
  revert fd. induction names as [|n rest IH]; intros fd.
  - apply raises_only_ret.
  - rewrite bundle_scan_cons. destruct (fd !! n) as [child|].
    + apply raises_only_bind; [apply raises_only_call, RE_update_last|].
      intros [? f]. apply IH.
    + destruct (assoc n _FILE_DEF) as [[c|]|].
      * apply raises_only_bind; [apply RE_Config_init|]. intros f. apply IH.
      * apply IH.
      * apply raises_only_raise. solve_RE.
Qed.

Lemma RE_bundle_dirs {O} fd dirs :
  raises_only (O := O) RE (bundle_dirs fs fd dirs).
Proof.
  revert fd. induction dirs as [|d rest IH]; intros fd; simpl.
  - apply raises_only_ret.
  - apply raises_only_bind; [apply RE_iterdir|]. intros names.
    apply raises_only_bind; [apply RE_bundle_scan|]. intros fd'. apply IH.
Qed.

Lemma RE_bundle_config_data : raises_only RE (ConfigBundle_config_data fs).
Proof.
  apply RE_cache_mixin; [|apply bundle_parse_Some].
  unfold ConfigBundle_parse_data.
  apply raises_only_bind; [apply raises_only_get_self|]. intros o.
  apply raises_only_bind; [apply RE_bundle_dirs|]. intros fd.
  apply raises_only_ret.
Qed.

Lemma RE_bind_patches_dir res nb : raises_only RE (bind_patches_dir fs res nb).
Proof.
  intros st e st' H. unfold bind_patches_dir in H.
  apply bind_Raise_inv in H as [H|([r nb'] & st1 & Hcall & H)].
  { unfold call_obj in H. destruct (ConfigBundle_patches fs _); discriminate. }
  unfold call_obj in Hcall.
  destruct (ConfigBundle_patches fs (mkSt nb (trace st))) as [r1 st2] eqn:Hrun.
  simplify_eq. destruct r as [patches|e0].
  - apply bind_Raise_inv in H as [H|([u c] & st3 & _ & H)]; [|discriminate].
    unfold call, call_obj, mbind, M_bind in H.
    destruct (set_patches_dir fs _ _) as [[[]|e1] st4] eqn:Hsp; simpl in H;
      [discriminate|].
    unfold raise in H. simplify_eq.
    unfold set_patches_dir, path_is_dir, mbind, M_bind, log, mret, M_ret,
      get_self, put_self, raise in Hsp. simpl in Hsp.
    destruct (fs_lookup fs (res // PATCHES_DIR)) as [[es|? ?]|];
      simpl in Hsp; simplify_eq; solve_RE.
  - unfold ConfigBundle_patches in Hrun.
    apply bind_Raise_inv in Hrun as [Hrun|(d & st3 & _ & Hrun)].
    + apply RE_bundle_config_data in Hrun.
      destruct e0; unfold mret, M_ret, raise in H; by simplify_eq.
    + destruct (d !! PATCH_ORDER_LIST); unfold mret, M_ret, raise in Hrun;
        [discriminate|].
      injection Hrun as <- <-. unfold mret, M_ret in H. discriminate.
Qed.

End ErrorFacts.

(** X17: [from_base_name] raises neither a [KeyError] nor a [TypeError]:
    the [KeyError] of a bundle without a patch order is caught, a
    metadata file that passed its schema has the section and the options
    that are read, and no parser returns [None], so that the [TypeError]
    of [_config_data] is never raised. *)
Theorem from_base_name_exceptions fs res CBD name (st st' : St unit) e :
  from_base_name fs res CBD name st = (Raise e, st') →
  (∀ key, e ≠ KeyError key) ∧ (∀ msg, e ≠ TypeError msg).
Proof.
  intros H. unfold from_base_name in H.
  apply bind_Raise_inv in H as [H|(nb & st1 & _ & H)];
    [by eapply RE_Config_init|].
  apply bind_Raise_inv in H as [H|(nb' & st2 & _ & H)].
  - by eapply RE_explore.
  - by eapply RE_bind_patches_dir.
Qed.

Lemma from_base_name_exceptions_witness :
  ∃ e st',
    from_base_name (MoreExamples.fs_bundle true) Examples.res Examples.bundles "c"
      (mkSt tt []) = (Raise e, st') ∧
    (∀ key, e ≠ KeyError key) ∧ (∀ msg, e ≠ TypeError msg).
Proof.
  destruct (from_base_name (MoreExamples.fs_bundle true) Examples.res
              Examples.bundles "c" (mkSt tt [])) as [[b|e] st'] eqn:H.
  - vm_compute in H. discriminate.
  - exists e, st'. split; [reflexivity|].
    exact (from_base_name_exceptions _ _ _ _ _ _ _ H).
Defined.

(** ** The metadata of a bundle, run forward *)

Section MetaRuns.
Context (fs : Node).

Lemma Config_init_cases {O D} p (st : St O) :
  Config_init (D := D) fs p None st
  = (match fs_lookup fs p with
     | Some _ => Ok (mkConfig p (path_name p) [p] None)
     | None => Raise (FileNotFoundError p)
     end, mkSt (self st) (trace st ++ [OpExists p])).
Proof.
  unfold Config_init, path_exists, mbind, M_bind, log, mret, M_ret, raise. simpl.
  by destruct (fs_lookup fs p).
Qed.

(** An INI file of one layer with an empty cache: what an access to its
    content does. *)
Lemma ini_single_layer schema (m : Config Ini) tr p :
  path_order m = [p] → read_cache m = None →
  IniConfigFile_config_data fs schema (mkSt m tr)
  = match fs_lookup fs p with
    | Some (File _ (Some i)) =>
        if schema i
        then (Ok i, mkSt (set_read_cache (Some i) m) (tr ++ [OpRead p]))
        else (Raise SchemaError, mkSt m (tr ++ [OpRead p]))
    | Some (File _ None) => (Raise (ParsingError p), mkSt m (tr ++ [OpRead p]))
    | Some (Dir _) => (Raise (IsADirectoryError p), mkSt m (tr ++ [OpRead p]))
    | None => (Raise (missing_error fs p), mkSt m (tr ++ [OpRead p]))
    end.
Proof.
  intros Hpo Hnone. unfold IniConfigFile_config_data.
  rewrite cache_miss by (simpl; by rewrite Hnone).
  assert (Hparse : IniConfigFile_parse_data fs schema (mkSt m tr)
    = (match fs_lookup fs p with
       | Some (File _ (Some i)) => if schema i then Ok (Some i) else Raise SchemaError
       | Some (File _ None) => Raise (ParsingError p)
       | Some (Dir _) => Raise (IsADirectoryError p)
       | None => Raise (missing_error fs p)
       end, mkSt m (tr ++ [OpRead p]))).
  { unfold IniConfigFile_parse_data.
    unfold mbind at 1, M_bind at 1, get_self. simpl. rewrite Hpo. simpl.
    unfold read_ini, mbind, M_bind, log, mret, M_ret, raise. simpl.
    destruct (fs_lookup fs p) as [[?|? [i|]]|]; try done.
    rewrite ini_merge_empty. by destruct (schema i). }
  destruct (fs_lookup fs p) as [[?|? [i|]]|]; try by apply cache_fill_Raise.
  destruct (schema i); [|by apply cache_fill_Raise].
  by rewrite (cache_fill_step _ _ _ _ Hparse).
Qed.

(** X18: a metadata file that the schema accepts has a [basebundle]
    section with a [display_name] that is not empty; on a fresh object for
    it, [display_name] returns that value and [depends] returns the
    entries of [depends] split at the commas and stripped, or nothing when
    the section has no [depends]: both values as the section proxy
    presents them, interpolated; either property reads the file once and
    leaves it cached. *)
Theorem valid_metadata_read d t i (m : Config Ini) tr :
  fs_lookup fs (d // BASEBUNDLEMETA_INI) = Some (File t (Some i)) →
  BaseBundleMetaIni_schema i = true →
  path_order m = [d // BASEBUNDLEMETA_INI] → read_cache m = None →
  let st1 := mkSt (set_read_cache (Some i) m)
               (tr ++ [OpRead (d // BASEBUNDLEMETA_INI)]) in
  ∃ sec view v,
    ini_getitem i "basebundle" = Some sec ∧
    section_view sec = Some view ∧
    view !! "display_name" = Some v ∧ Str.nonempty v = true ∧
    BaseBundleMetaIni_display_name fs (mkSt m tr) = (Ok v, st1) ∧
    BaseBundleMetaIni_depends fs (mkSt m tr)
    = (Ok (match view !! "depends" with
           | Some ds => Str.strip <$> Str.split "," ds
           | None => []
           end), st1).
Proof.
  intros Hfile Hs Hpo Hnone st1.
  pose proof (ini_single_layer BaseBundleMetaIni_schema m tr _ Hpo Hnone) as Hcd.
  rewrite Hfile, Hs in Hcd. fold st1 in Hcd.
  destruct (meta_schema_section _ Hs) as (sec & view & Hsec & Hview & Hschema).
  destruct (section_schema_required _ _ _ _ "display_name" Hschema)
    as (v & Hv & Hlen); [by left|].
  pose proof (IniConfigFile_getitem_step _ _ _ _ _ _ _ Hcd Hsec) as Hitem.
  exists sec, view, v. split; [done|]. split; [done|]. split; [done|].
  split; [done|]. split.
  - unfold BaseBundleMetaIni_display_name.
    rewrite (bind_Ok_step _ _ _ _ _ Hitem).
    by apply (section_getitem_view sec view).
  - unfold BaseBundleMetaIni_depends.
    rewrite (bind_Ok_step _ _ _ _ _ Hitem). unfold has_key.
    pose proof (section_view_lookup _ _ "depends" Hview) as Hlook.
    destruct (sec !! "depends") as [raw|] eqn:Hraw; simpl in Hlook.
    2:{ by rewrite Hlook. }
    apply ini_config_data_stable in Hcd as [_ Hstable].
    specialize (Hstable (trace st1)).
    pose proof (IniConfigFile_getitem_step _ _ _ _ _ _ _ Hstable Hsec) as Hitem'.
    simpl in Hitem'. fold st1 in Hitem'.
    rewrite (bind_Ok_step _ _ _ _ _ Hitem').
    destruct (view !! "depends") as [ds|] eqn:Hds.
    + by rewrite (bind_Ok_step _ _ _ _ _
                    (section_getitem_view sec view "depends" ds st1 Hview Hds)).
    + exfalso. unfold section_view in Hview. case_bool_decide as Hall; [|done].
      destruct (Hall _ _ Hraw) as [w Hw]. congruence.
Qed.

End MetaRuns.

Lemma valid_metadata_read_witness :
  let d := Examples.bundle_path "a" in
  let i := mkIni ∅ {[ "basebundle" :=
             {[ "display_name" := "Bundle"; "depends" := "b, c" ]} ]} in
  let m := mkConfig (d // BASEBUNDLEMETA_INI) BASEBUNDLEMETA_INI
             [d // BASEBUNDLEMETA_INI] None in
  let st1 := mkSt (set_read_cache (Some i) m) ([] ++ [OpRead (d // BASEBUNDLEMETA_INI)]) in
  ∃ (sec view : gmap string string) v,
    ini_getitem i "basebundle" = Some sec ∧
    section_view sec = Some view ∧
    view !! "display_name" = Some v ∧ Str.nonempty v = true ∧
    BaseBundleMetaIni_display_name Examples.fs_tree (mkSt m []) = (Ok v, st1) ∧
    BaseBundleMetaIni_depends Examples.fs_tree (mkSt m [])
    = (Ok (match view !! "depends" with
           | Some ds => Str.strip <$> Str.split "," ds
           | None => []
           end), st1).
Proof.
  intros d i m.
  apply (valid_metadata_read Examples.fs_tree d EmptyString i m []).
  - vm_compute. reflexivity.
  - vm_compute. reflexivity.
  - reflexivity.
  - reflexivity.
Defined.

(** The run that stops at the bundle asked for, with what it looked at. *)
Lemma root_failure_run fs res CBD name (st : St unit) e :
  root_failure fs (config_bundles_dir res CBD) name = Some e →
  let d := config_bundles_dir res CBD // name in
  from_base_name fs res CBD name st
  = (Raise e,
     mkSt tt (trace st ++ [OpExists d] ++
              match fs_lookup fs d, fs_lookup fs (d // BASEBUNDLEMETA_INI) with
              | None, _ => []
              | Some _, None => [OpExists (d // BASEBUNDLEMETA_INI)]
              | Some _, Some _ => [OpExists (d // BASEBUNDLEMETA_INI);
                                   OpRead (d // BASEBUNDLEMETA_INI)]
              end)).
Proof.
  intros Hfail d. unfold root_failure in Hfail. fold d in Hfail.
  unfold from_base_name. fold d.
  destruct st as [[] tr]. simpl.
  destruct (fs_lookup fs d) as [nd|] eqn:Hd.
  2:{ simplify_eq. apply bind_Raise_step. rewrite Config_init_cases, Hd.
      done. }
  erewrite bind_Ok_step by (rewrite Config_init_cases, Hd; reflexivity).
  apply bind_Raise_step.
  unfold explore; fold (explore fs res CBD).
  change (deque_pop [name]) with (Some (name, @nil string)).
  rewrite bool_decide_eq_false_2 by set_solver.
  unfold meta_failure in Hfail. cbv zeta in Hfail.
  destruct (fs_lookup fs (d // BASEBUNDLEMETA_INI)) as [nm|] eqn:Hm.
  2:{ simplify_eq. apply bind_Raise_step. rewrite Config_init_cases.
      fold d. rewrite Hm. simpl. by rewrite <- app_assoc. }
  erewrite bind_Ok_step by (rewrite Config_init_cases; fold d; rewrite Hm; reflexivity).
  apply bind_Raise_step. simpl.
  unfold call, call_obj, BaseBundleMetaIni_depends, IniConfigFile_getitem.
  unfold mbind at 1, M_bind at 1.
  rewrite (bind_Raise_step _ _ _ e
             (mkSt (mkConfig (d // BASEBUNDLEMETA_INI)
                      (path_name (d // BASEBUNDLEMETA_INI))
                      [d // BASEBUNDLEMETA_INI] None)
                   ((tr ++ [OpExists d]) ++ [OpExists (d // BASEBUNDLEMETA_INI)]
                    ++ [OpRead (d // BASEBUNDLEMETA_INI)]))).
  - unfold raise. simpl. by rewrite <- !app_assoc.
  - apply bind_Raise_step.
    rewrite (ini_single_layer fs _ _ _ (d // BASEBUNDLEMETA_INI)) by done.
    rewrite Hm.
    destruct nm as [?|? [i|]]; [| |];
      try destruct (BaseBundleMetaIni_schema i); simplify_eq;
      simpl; by rewrite <- ?app_assoc.
Qed.

(** X19: with a resources directory that exists and a name that is one
    component of a path: when the directory of the bundle asked for does
    not exist, [from_base_name] raises [FileNotFoundError] for it; when it
    exists and its metadata is missing, is a directory, cannot be read by
    the INI reader or fails the schema, [from_base_name] raises
    [FileNotFoundError], [IsADirectoryError], the error of the reader or
    [SchemaError]. *)
Theorem root_failure_raised fs res CBD name (st : St unit) e :
  (∃ es, fs_lookup fs res = Some (Dir es)) →
  simple_name name = true →
  root_failure fs (config_bundles_dir res CBD) name = Some e →
  fst (from_base_name fs res CBD name st) = Raise e.
Proof.
  intros _ _ Hfail. by rewrite (root_failure_run _ _ _ _ st _ Hfail).
Qed.

Lemma root_failure_raised_witness :
  let fs := MoreExamples.fs_bundle true in
  fst (from_base_name fs Examples.res Examples.bundles "x" (mkSt tt []))
  = Raise (FileNotFoundError (Examples.bundle_path "x")).
Proof.
  intros fs.
  apply (root_failure_raised fs Examples.res Examples.bundles "x" (mkSt tt [])).
  - eexists. vm_compute. reflexivity.
  - vm_compute. reflexivity.
  - vm_compute. reflexivity.
Defined.
